(** * Order repository, conversation registry and bot handlers of the
      Teams orders application: a shallow embedding and its properties.

    The embedded sources are [ordersService.ts] (order repository),
    [botService.ts] (conversation registry and card builders),
    [index.ts] (HTTP and bot handlers) and, of the two tab views, the
    functions that compute the lists they show ([aggregateOrders], the
    handler of the server's events and the local updates after a
    request).

    Conventions of the embedding.
    - A JavaScript string is the sequence of its UTF-8 bytes (what
      [Buffer.from] yields); [===] on strings is equality.  [>] on
      strings compares UTF-16 code units ([Js.string_gt]); [Js.lex_le]
      compares bytes, which is the same order on ASCII.
    - Integers held in JavaScript numbers are modelled by [N]: the model
      is exact for values below 2^53, and the theorems on the ids that
      [createOrder] assigns state this bound.
    - A finite double is the rational it stands for, and an amount is
      one or one of the three non-finite doubles.  Arithmetic on
      doubles rounds to the nearest double ([Js.binary64]).
    - A row of the store holds the amount it was written with.  The
      table store keeps a finite amount only (another one is stored as
      no amount, which reads back as NaN), so the theorems on the
      amount of a row that a call has written take it finite
      ([Js.isFinite]).
    - [async] functions run to completion one after the other
      (serialized execution): a computation is a function from the
      world to a result and a new world, and a rejected promise is the
      result [Throw].
    - The table store is external.  Each call to it is recorded in the
      world; whether it is cut short by an outage is read from a script
      held in the world, so that theorems quantify over every pattern
      of outages.  A call that fails leaves the rows as they were. *)

From Stdlib Require Import ZArith QArith Qround Qabs Qpower Lqa Ascii DecimalString DecimalN.
From stdpp Require Import gmap strings list fin_maps sorting.

Local Open Scope string_scope.

(** ** JavaScript primitives used by the sources *)

Module Js.

(** [String(n)] for a non-negative integer. *)
Definition String_of_N (n : N) : string :=
  NilEmpty.string_of_uint (N.to_uint n).

Fixpoint repeat_string (fill : string) (k : nat) : string :=
  match k with
  | O => ""
  | S k' => fill +:+ repeat_string fill k'
  end.

(** [s.padStart(width, "0")]: never truncates. *)
Definition padStart0 (width : nat) (s : string) : string :=
  repeat_string "0" (width - String.length s) +:+ s.

(** The character class [\d]. *)
Definition is_digit (c : ascii) : bool :=
  (48 <=? nat_of_ascii c)%nat && (nat_of_ascii c <=? 57)%nat.

Fixpoint all_digits (s : string) : bool :=
  match s with
  | EmptyString => true
  | String c s' => is_digit c && all_digits s'
  end.

Definition digit_value (c : ascii) : N := N.of_nat (nat_of_ascii c - 48).

Fixpoint parse_digits (acc : N) (s : string) : N :=
  match s with
  | EmptyString => acc
  | String c s' => parse_digits (10 * acc + digit_value c) s'
  end.

(** [parseInt(s, 10)] on a string of decimal digits (the only strings
    the sources pass to it). *)
Definition parseInt10 (s : string) : N := parse_digits 0 s.

(** A JavaScript number holding an amount. *)
Inductive number : Type :=
  | Num (q : Q)
  | NaN
  | Infinity
  | NegInfinity.

(** [Number(x)] applied to a value that already is a number. *)
Definition Number (x : number) : number := x.

(** [x.toFixed(2)]; finite values of magnitude 1e21 and more, which
    JavaScript prints in exponent form, are printed in full here. *)
Definition toFixed2 (x : number) : string :=
  match x with
  | NaN => "NaN"
  | Infinity => "Infinity"
  | NegInfinity => "-Infinity"
  | Num q =>
      let n := Z.to_N (Qfloor (Qabs q * 100 + (1 # 2))%Q) in
      (if (Qnum q <? 0)%Z then "-" else "")
        +:+ String_of_N (n / 100) +:+ "."
        +:+ padStart0 2 (String_of_N (n mod 100))
  end.

(** [Math.random()]: the doubles [k / 2^53] with [0 <= k < 2^53]. *)
Definition unit_double (k : N) : Q :=
  Z.of_N (k mod 2 ^ 53) # (2 ^ 53).

(** [Math.floor] and [Math.round] on a finite value. *)
Definition Math_floor (q : Q) : Z := Qfloor q.
Definition Math_round (q : Q) : Z := Qfloor (q + (1 # 2))%Q.

(** *** Arithmetic on doubles

    A finite double is the rational it stands for.  The result of an
    operation is the exact result rounded to the nearest double, to the
    one with an even last bit when two are equally near (53 bits of
    precision).  The exponent range is not modelled: no overflow and no
    subnormal values, which the sources are far from. *)

(** [floor (log2 q)] for a positive rational. *)
Definition ilog2 (q : Q) : Z :=
  let k := (Z.log2 (Qnum q) - Z.log2 (Z.pos (Qden q)))%Z in
  if Qle_bool (2 ^ k) q then k else (k - 1)%Z.

(** The nearest integer, the even one of two that are equally near. *)
Definition round_even (x : Q) : Z :=
  let f := Qfloor x in
  match (x - inject_Z f ?= 1 # 2)%Q with
  | Lt => f
  | Gt => (f + 1)%Z
  | Eq => if Z.even f then f else (f + 1)%Z
  end.

Definition binary64_pos (q : Q) : Q :=
  let e := ilog2 q in
  Qred (inject_Z (round_even (q * 2 ^ (52 - e))) * 2 ^ (e - 52)).

(** The double nearest to [q]. *)
Definition binary64 (q : Q) : Q :=
  match (q ?= 0)%Q with
  | Eq => 0%Q
  | Gt => binary64_pos q
  | Lt => (- binary64_pos (- q))%Q
  end.

(** [a * b], [a + b] and [a / b] on doubles. *)
Definition fmul (a b : Q) : Q := binary64 (a * b).
Definition fadd (a b : Q) : Q := binary64 (a + b).
Definition fdiv (a b : Q) : Q := binary64 (a / b).

(** Calendar date of a day count since 1970-01-01 (proleptic
    Gregorian), as [Date.prototype.toISOString] prints it. *)
Definition civil_from_days (days : Z) : Z * Z * Z :=
  let z := (days + 719468)%Z in
  let era := (z / 146097)%Z in
  let doe := (z - era * 146097)%Z in
  let yoe := ((doe - doe / 1460 + doe / 36524 - doe / 146096) / 365)%Z in
  let doy := (doe - (365 * yoe + yoe / 4 - yoe / 100))%Z in
  let mp := ((5 * doy + 2) / 153)%Z in
  let d := (doy - (153 * mp + 2) / 5 + 1)%Z in
  let m := (if (mp <? 10)%Z then mp + 3 else mp - 9)%Z in
  let y := (yoe + era * 400 + (if (m <=? 2)%Z then 1 else 0))%Z in
  (y, m, d).

Definition ms_per_day : Z := (24 * 60 * 60 * 1000)%Z.

(** [new Date(ms).toISOString().slice(0, 10)] for years 0000 to 9999. *)
Definition isoDate (ms : Z) : string :=
  let '(y, m, d) := civil_from_days (ms / ms_per_day) in
  padStart0 4 (String_of_N (Z.to_N y)) +:+ "-"
    +:+ padStart0 2 (String_of_N (Z.to_N m)) +:+ "-"
    +:+ padStart0 2 (String_of_N (Z.to_N d)).

(** [a.localeCompare(b)] depends on the collation of the host; the
    sources that call it take it as a parameter, of which the
    [comparison] is the sign of the number returned.  This one compares
    code units. *)
Definition code_unit_compare (a b : string) : comparison :=
  String.compare a b.

(** A collation never orders two strings both ways. *)
Definition consistent (localeCompare : string → string → comparison) : Prop :=
  ∀ a b, localeCompare a b = Gt → localeCompare b a ≠ Gt.

(** [l.sort(cmp)]: the sort is stable, and [cmp a b] positive sends
    [a] behind [b]. *)
Fixpoint sort_insert {A} (cmp : A → A → comparison) (x : A) (l : list A)
    : list A :=
  match l with
  | [] => [x]
  | y :: l' =>
      match cmp x y with
      | Gt => y :: sort_insert cmp x l'
      | _ => x :: y :: l'
      end
  end.

Definition Array_sort {A} (cmp : A → A → comparison) (l : list A) : list A :=
  foldr (sort_insert cmp) [] l.

(** What a comparator asks of a sorted array: [a] may stand
    immediately before [b]. *)
Definition in_order {A} (cmp : A → A → comparison) (a b : A) : Prop :=
  cmp a b ≠ Gt.

(** Lexicographic order of strings by code unit: [a] is at most [b]. *)
Fixpoint lex_le (a b : string) : bool :=
  match a, b with
  | EmptyString, _ => true
  | String _ _, EmptyString => false
  | String x a', String y b' =>
      (N_of_ascii x <? N_of_ascii y)%N
      || ((N_of_ascii x =? N_of_ascii y)%N && lex_le a' b')
  end.

(** The UTF-16 code units of a string, from its UTF-8 bytes: a
    character of one to three bytes is one unit, one of four bytes the
    two units of its surrogate pair.  A byte that starts no complete
    character (it cannot occur in the bytes of a JavaScript string) is
    taken as a unit of its own. *)
Fixpoint utf16_units (s : string) : list N :=
  match s with
  | EmptyString => []
  | String c0 s1 =>
      let b0 := N_of_ascii c0 in
      match s1 with
      | String c1 s2 =>
          let b1 := N_of_ascii c1 in
          if (b0 <? 192)%N then b0 :: utf16_units s1
          else if (b0 <? 224)%N then
            ((b0 - 192) * 64 + (b1 - 128))%N :: utf16_units s2
          else
            match s2 with
            | String c2 s3 =>
                let b2 := N_of_ascii c2 in
                if (b0 <? 240)%N then
                  ((b0 - 224) * 4096 + (b1 - 128) * 64 + (b2 - 128))%N
                    :: utf16_units s3
                else
                  match s3 with
                  | String c3 s4 =>
                      let b3 := N_of_ascii c3 in
                      let v := ((b0 - 240) * 262144 + (b1 - 128) * 4096
                                + (b2 - 128) * 64 + (b3 - 128) - 65536)%N in
                      (55296 + v / 1024)%N :: (56320 + v mod 1024)%N
                        :: utf16_units s4
                  | EmptyString => b0 :: utf16_units s1
                  end
            | EmptyString => b0 :: utf16_units s1
            end
      | EmptyString => [b0]
      end
  end.

(** Lexicographic order of sequences of code units: [a] is at most
    [b]. *)
Fixpoint units_le (a b : list N) : bool :=
  match a, b with
  | [], _ => true
  | _ :: _, [] => false
  | x :: a', y :: b' => (x <? y)%N || ((x =? y)%N && units_le a' b')
  end.

(** [a > b] on strings: the order of their UTF-16 code units. *)
Definition string_gt (a b : string) : bool :=
  negb (units_le (utf16_units a) (utf16_units b)).

(** [Number.isFinite(x)] *)
Definition isFinite (x : number) : bool :=
  match x with
  | Num _ => true
  | _ => false
  end.

(** A collation of the kind a host with ICU provides, on ASCII: letters
    are compared without regard to case first, and of two strings that
    differ by case only the one with the lower-case letter comes
    first. *)
Definition fold_case (c : ascii) : ascii :=
  let n := N_of_ascii c in
  if ((65 <=? n) && (n <=? 90))%N then ascii_of_N (n + 32) else c.

Fixpoint fold_case_string (s : string) : string :=
  match s with
  | EmptyString => EmptyString
  | String c s' => String (fold_case c) (fold_case_string s')
  end.

Definition caseless_compare (a b : string) : comparison :=
  match String.compare (fold_case_string a) (fold_case_string b) with
  | Eq => String.compare b a
  | c => c
  end.

End Js.

(** ** Data model: ordersService.ts *)

Inductive OrderStatus : Type :=
  | Submitted | Pending | Processing | Shipped | Delivered | Cancelled.

#[global] Instance OrderStatus_eq_dec : EqDecision OrderStatus.
Proof. solve_decision. Defined.

(** The string a status is at run time. *)
Definition status_string (s : OrderStatus) : string :=
  match s with
  | Submitted => "Submitted" | Pending => "Pending"
  | Processing => "Processing" | Shipped => "Shipped"
  | Delivered => "Delivered" | Cancelled => "Cancelled"
  end.

Record Order : Type := mkOrder {
  id : string;
  customer : string;
  amount : Js.number;
  status : OrderStatus;
  date : string;
}.

(** [Omit<Order, "id">] *)
Record OrderData : Type := mkOrderData {
  d_customer : string;
  d_amount : Js.number;
  d_status : OrderStatus;
  d_date : string;
}.

(** [Partial<Omit<Order, "id">>]: an absent (or null) field is [None]. *)
Record OrderPatch : Type := mkOrderPatch {
  p_customer : option string;
  p_amount : option Js.number;
  p_status : option OrderStatus;
  p_date : option string;
}.

Definition empty_patch : OrderPatch := mkOrderPatch None None None None.
Definition status_patch (s : OrderStatus) : OrderPatch :=
  mkOrderPatch None None (Some s) None.

(** A row of the Orders table.  The partition key is the constant
    [PARTITION_KEY]; the row key is the key of the row in the map. *)
Record OrderEntity : Type := mkOrderEntity {
  e_id : string;
  e_customer : string;
  e_amount : Js.number;
  e_status : OrderStatus;
  e_date : string;
}.

(** A row of the BotSubscriptions table. *)
Record SubEntity : Type := mkSubEntity {
  conversationId : string;
  serviceUrl : string;
}.

Definition TABLE_NAME : string := "Orders".
Definition SUB_TABLE : string := "BotSubscriptions".

Definition CUSTOMERS : list string :=
  [ "Contoso Ltd."; "Fabrikam Inc."; "Northwind Traders";
    "Adventure Works"; "Tailspin Toys"; "Woodgrove Bank";
    "Proseware Inc."; "Lucerne Publishing"; "Humongous Insurance";
    "Wide World Importers"; "Fourth Coffee"; "Alpine Ski House";
    "Coho Winery"; "Relecloud"; "Trey Research" ].

Definition STATUSES : list OrderStatus :=
  [Submitted; Pending; Processing; Shipped; Delivered; Cancelled].

(** ** Cards: botService.ts *)

Record TextBlock : Type := mkTextBlock {
  tb_text : string;
  tb_size : string;
  tb_weight : option string;
  tb_color : option string;
  tb_isSubtle : bool;
}.

Record Fact : Type := mkFact { fact_title : string; fact_value : string }.

Record ExecuteAction : Type := mkExecuteAction {
  act_title : string;
  act_verb : string;
  act_orderId : string;
  act_style : string;
}.

Inductive CardElement : Type :=
  | ElTextBlock (t : TextBlock)
  | ElFactSet (facts : list Fact)
  | ElActionSet (actions : list ExecuteAction).

Record AdaptiveCard : Type := mkAdaptiveCard {
  card_schema : string;
  card_version : string;
  card_body : list CardElement;
}.

(** ** The world *)

(** Errors a rejected promise carries. *)
Inductive Error : Type :=
  | StoreUnavailable
  | EntityAlreadyExists
  | ResourceNotFound
  | TableAlreadyExists
  | OtherError (msg : string).

(** Calls made to the table store and to the messaging transport. *)
Inductive Call : Type :=
  | CallCreateTable (table : string)
  | CallList (table : string)
  | CallGet (table key : string)
  | CallCreate (table key : string)
  | CallUpdate (table key : string)
  | CallUpsert (table key : string)
  | CallDelete (table key : string)
  | CallSubmit (table : string) (keys : list string)
  | CallSend (conversation : string).

(** A line of [app.log]: [LogError msg err] is the line
    [`${msg}: ${String(err)}`]. *)
Inductive LogLine : Type :=
  | LogInfo (msg : string)
  | LogError (msg : string) (err : Error).

(** What is written to a live-update session. *)
Inductive SsePayload : Type :=
  | SseNewOrder (o : Order)
  | SseOrderUpdated (o : Order).

(** An open HTTP response held in [sseClients]. *)
Record SseClient : Type := mkSseClient {
  writableEnded : bool;
  written : list SsePayload;
}.

Record World : Type := mkWorld {
  orders : gmap string OrderEntity;   (* rows of the Orders table *)
  subs : gmap string SubEntity;       (* rows of BotSubscriptions *)
  faults : list bool;                 (* outage script, one flag per call *)
  random : list N;                    (* successive Math.random() draws *)
  today : string;                     (* new Date() as yyyy-mm-dd *)
  sseClients : list SseClient;        (* the set, in insertion order *)
  outbox : list (string * AdaptiveCard); (* app.send, newest first *)
  logs : list LogLine;                (* app.log, newest first *)
  calls : list Call;                  (* external calls, newest first *)
}.

Definition set_orders (f : gmap string OrderEntity → gmap string OrderEntity)
    (w : World) : World :=
  mkWorld (f (orders w)) (subs w) (faults w) (random w) (today w)
          (sseClients w) (outbox w) (logs w) (calls w).
Definition set_subs (f : gmap string SubEntity → gmap string SubEntity)
    (w : World) : World :=
  mkWorld (orders w) (f (subs w)) (faults w) (random w) (today w)
          (sseClients w) (outbox w) (logs w) (calls w).
Definition set_faults (fs : list bool) (w : World) : World :=
  mkWorld (orders w) (subs w) fs (random w) (today w)
          (sseClients w) (outbox w) (logs w) (calls w).
Definition set_random (r : list N) (w : World) : World :=
  mkWorld (orders w) (subs w) (faults w) r (today w)
          (sseClients w) (outbox w) (logs w) (calls w).
Definition set_sseClients (cs : list SseClient) (w : World) : World :=
  mkWorld (orders w) (subs w) (faults w) (random w) (today w)
          cs (outbox w) (logs w) (calls w).
Definition push_outbox (m : string * AdaptiveCard) (w : World) : World :=
  mkWorld (orders w) (subs w) (faults w) (random w) (today w)
          (sseClients w) (m :: outbox w) (logs w) (calls w).
Definition push_log (l : LogLine) (w : World) : World :=
  mkWorld (orders w) (subs w) (faults w) (random w) (today w)
          (sseClients w) (outbox w) (l :: logs w) (calls w).
Definition push_call (c : Call) (w : World) : World :=
  mkWorld (orders w) (subs w) (faults w) (random w) (today w)
          (sseClients w) (outbox w) (logs w) (c :: calls w).

(** ** Computations: promises under serialized execution *)

Inductive Result (A : Type) : Type :=
  | Ok (a : A)
  | Throw (e : Error).
Arguments Ok {A} a.
Arguments Throw {A} e.

Definition M (A : Type) : Type := World → Result A * World.

Definition ret {A} (a : A) : M A := fun w => (Ok a, w).
Definition throw {A} (e : Error) : M A := fun w => (Throw e, w).
Definition bind {A B} (m : M A) (k : A → M B) : M B :=
  fun w => match m w with
           | (Ok a, w') => k a w'
           | (Throw e, w') => (Throw e, w')
           end.
(** [p.catch(h)] and [try { p } catch (err) { h }]. *)
Definition catch {A} (m : M A) (h : Error → M A) : M A :=
  fun w => match m w with
           | (Ok a, w') => (Ok a, w')
           | (Throw e, w') => h e w'
           end.
Definition gets {A} (f : World → A) : M A := fun w => (Ok (f w), w).
Definition modify (f : World → World) : M unit := fun w => (Ok tt, f w).

Notation "'let*' x ':=' m 'in' k" := (bind m (fun x => k))
  (at level 10, x pattern, m at level 100, k at level 200).

(** [for (const x of l) { await f(x) }] *)
Fixpoint forEach {A} (f : A → M unit) (l : list A) : M unit :=
  match l with
  | [] => ret tt
  | x :: l' => let* _ := f x in forEach f l'
  end.

(** The items of [l] computed in turn and collected. *)
Fixpoint mapM {A B} (f : A → M B) (l : list A) : M (list B) :=
  match l with
  | [] => ret []
  | x :: l' => let* y := f x in let* ys := mapM f l' in ret (y :: ys)
  end.

(** ** The table store (@azure/data-tables), as the sources use it

    Both tables are taken to exist, so [createTable] answers
    [TableAlreadyExists] unless an outage cuts it short; its callers
    swallow either error.  [listEntities] enumerates the rows in the
    order of the map, on which no property below depends. *)

(** Issue an external call: record it and read from the script whether
    an outage cuts it short. *)
Definition external (c : Call) : M unit :=
  fun w =>
    match faults w with
    | true :: fs => (Throw StoreUnavailable, push_call c (set_faults fs w))
    | false :: fs => (Ok tt, push_call c (set_faults fs w))
    | [] => (Ok tt, push_call c w)
    end.

Module Orders.

Definition createTable : M unit :=
  let* _ := external (CallCreateTable TABLE_NAME) in
  throw TableAlreadyExists.

Definition listEntities : M (list (string * OrderEntity)) :=
  let* _ := external (CallList TABLE_NAME) in
  gets (fun w => map_to_list (orders w)).

Definition getEntity (rowKey : string) : M OrderEntity :=
  let* _ := external (CallGet TABLE_NAME rowKey) in
  let* rows := gets orders in
  match rows !! rowKey with
  | Some e => ret e
  | None => throw ResourceNotFound
  end.

(** [createEntity(e)]; the row holds [e] as given (an amount that is
    not finite included, see the conventions). *)
Definition createEntity (rowKey : string) (e : OrderEntity) : M unit :=
  let* _ := external (CallCreate TABLE_NAME rowKey) in
  let* rows := gets orders in
  match rows !! rowKey with
  | Some _ => throw EntityAlreadyExists
  | None => modify (set_orders <[rowKey := e]>)
  end.

(** [updateEntity(e, "Replace")]; the row holds [e] as given. *)
Definition updateEntity (rowKey : string) (e : OrderEntity) : M unit :=
  let* _ := external (CallUpdate TABLE_NAME rowKey) in
  let* rows := gets orders in
  match rows !! rowKey with
  | Some _ => modify (set_orders <[rowKey := e]>)
  | None => throw ResourceNotFound
  end.

Definition insert_all (acts : list (string * OrderEntity))
    (rows : gmap string OrderEntity) : gmap string OrderEntity :=
  foldl (fun m a => <[a.1 := a.2]> m) rows acts.

(** [submitTransaction] of create actions: all rows or none. *)
Definition submitTransaction (acts : list (string * OrderEntity)) : M unit :=
  let* _ := external (CallSubmit TABLE_NAME (acts.*1)) in
  let* rows := gets orders in
  if decide (NoDup (acts.*1) ∧ Forall (fun k => rows !! k = None) (acts.*1))
  then modify (set_orders (insert_all acts))
  else throw EntityAlreadyExists.

End Orders.

Module Subs.

Definition createTable : M unit :=
  let* _ := external (CallCreateTable SUB_TABLE) in
  throw TableAlreadyExists.

Definition listEntities : M (list (string * SubEntity)) :=
  let* _ := external (CallList SUB_TABLE) in
  gets (fun w => map_to_list (subs w)).

(** [upsertEntity(e, "Replace")] *)
Definition upsertEntity (rowKey : string) (e : SubEntity) : M unit :=
  let* _ := external (CallUpsert SUB_TABLE rowKey) in
  modify (set_subs <[rowKey := e]>).

Definition deleteEntity (rowKey : string) : M unit :=
  let* _ := external (CallDelete SUB_TABLE rowKey) in
  let* rows := gets subs in
  match rows !! rowKey with
  | Some _ => modify (set_subs (delete rowKey))
  | None => throw ResourceNotFound
  end.

End Subs.

(** ** ordersService.ts *)

(** [`ORD-${String(i).padStart(3, "0")}`] *)
Definition orderId (i : N) : string :=
  "ORD-" +:+ Js.padStart0 3 (Js.String_of_N i).

(** [rowKey.match(/^ORD-(\d+)$/)]: the captured digits. *)
Definition match_ORD (rowKey : string) : option string :=
  match rowKey with
  | String "O"%char (String "R"%char (String "D"%char (String "-"%char ds))) =>
      if bool_decide (ds ≠ "") && Js.all_digits ds then Some ds else None
  | _ => None
  end.

Definition Math_random : M Q :=
  fun w =>
    match random w with
    | [] => (Ok (Js.unit_double 0), w)
    | k :: r => (Ok (Js.unit_double k), set_random r w)
    end.

(** [Math.random() * daysBack * 24 * 60 * 60 * 1000] multiplies from
    the left and rounds each product. *)
Definition randomDate (daysBack : Z) : M string :=
  let now := 1771891200000%Z in (* new Date("2026-02-24").getTime() *)
  let* r := Math_random in
  let offset :=
    Js.Math_floor
      (Js.fmul (Js.fmul (Js.fmul (Js.fmul (Js.fmul r (inject_Z daysBack))
                                          24) 60) 60) 1000) in
  ret (Js.isoDate (now - offset)).

(** One turn of the loop of [generateOrders]: the row key and the row. *)
Definition generateOrder (i : N) : M (string * OrderEntity) :=
  let id := orderId i in
  let* r1 := Math_random in
  let* r2 := Math_random in
  let* r3 := Math_random in
  let* d := randomDate 365 in
  ret (id,
       mkOrderEntity id
         (nth (Z.to_nat (Js.Math_floor
                 (Js.fmul r1 (inject_Z (Z.of_nat (length CUSTOMERS))))))
              CUSTOMERS "")
         (Js.Num (Js.fdiv
                    (inject_Z (Js.Math_round
                       (Js.fmul (Js.fadd (Js.fmul r2 9900) 100) 100)))
                    100))
         (nth (Z.to_nat (Js.Math_floor
                 (Js.fmul r3 (inject_Z (Z.of_nat (length STATUSES))))))
              STATUSES Submitted)
         d).

(** [for (let i = 1; i <= count; i++)] *)
Definition generateOrders (count : nat) : M (list (string * OrderEntity)) :=
  mapM generateOrder (N.of_nat <$> seq 1 count).

(** Creates the Orders table and seeds 100 rows if it is empty. *)
Definition seedIfEmpty : M unit :=
  let* _ := catch Orders.createTable (fun _ => ret tt) in
  let* first := Orders.listEntities in
  match first with
  | _ :: _ => ret tt (* already has data *)
  | [] =>
      let* transaction := generateOrders 100 in
      Orders.submitTransaction transaction
  end.

(** The [Order] pushed for a listed entity: its id is the row key. *)
Definition toOrder (row : string * OrderEntity) : Order :=
  mkOrder row.1 (e_customer row.2) (Js.Number (e_amount row.2))
          (e_status row.2) (e_date row.2).

(** Returns all orders sorted by ID descending. *)
Definition listOrders (localeCompare : string → string → comparison)
    : M (list Order) :=
  let* rows := Orders.listEntities in
  ret (Js.Array_sort (fun a b => localeCompare (id b) (id a))
                     (toOrder <$> rows)).

(** The loop of [createOrder] over the row keys ([parseInt] and
    [Math.max] are exact while the suffixes are below 2^53). *)
Definition maxNum_of (rows : list (string * OrderEntity)) : N :=
  foldl (fun maxNum row =>
           match match_ORD row.1 with
           | Some ds => N.max maxNum (Js.parseInt10 ds)
           | None => maxNum
           end) 0%N rows.

Definition newEntity (id : string) (data : OrderData) : OrderEntity :=
  mkOrderEntity id (d_customer data) (d_amount data) (d_status data)
                (d_date data).

(** Creates a new order, auto-incrementing the numeric portion of the ID. *)
Definition createOrder (data : OrderData) (notify : option (Order → M unit))
    : M Order :=
  let* rows := Orders.listEntities in
  let maxNum := maxNum_of rows in
  let id := orderId (maxNum + 1) in
  let* _ := Orders.createEntity id (newEntity id data) in
  let order := mkOrder id (d_customer data) (Js.Number (d_amount data))
                       (d_status data) (d_date data) in
  let* _ := match notify with
            | Some f => f order
            | None => ret tt
            end in
  ret order.

(** Serialized calls of [createOrder], one per item of [cs]: the data
    of the call and its notification callback, if any. *)
Definition createOrders (cs : list (OrderData * option (Order → M unit)))
    : M (list Order) :=
  mapM (fun c => createOrder c.1 c.2) cs.

(** Renames a customer on all their orders.  Returns the number of
    orders updated. *)
Definition renameCustomer (oldName newName : string) : M nat :=
  let* rows := Orders.listEntities in
  let toUpdate :=
    toOrder <$> filter (fun row => e_customer row.2 = oldName) rows in
  let* _ := forEach (fun order =>
              Orders.updateEntity (id order)
                (mkOrderEntity (id order) newName (amount order)
                               (status order) (date order)))
              toUpdate in
  ret (length toUpdate).

(** The numeric suffix of a row key matching [ORD-<digits>]. *)
Definition suffix (rowKey : string) : option N :=
  Js.parseInt10 <$> match_ORD rowKey.

(** [m] is the maximum numeric suffix among the row keys matching
    [ORD-<digits>], and 0 when none matches. *)
Definition max_suffix_is (rows : gmap string OrderEntity) (m : N) : Prop :=
  (∀ k n, k ∈ dom rows → suffix k = Some n → (n ≤ m)%N)
  ∧ (m = 0%N ∨ ∃ k, k ∈ dom rows ∧ suffix k = Some m).

(** The order [createOrder] returns when it assigns the number [i]. *)
Definition orderOf (i : N) (data : OrderData) : Order :=
  mkOrder (orderId i) (d_customer data) (Js.Number (d_amount data))
          (d_status data) (d_date data).

(** The numbers 1 to [n] and the ids ORD-001 to ORD-<n>. *)
Definition upto (n : nat) : list N := N.of_nat <$> seq 1 n.
Definition ids_upto (n : nat) : list string := orderId <$> upto n.

(** The number of orders whose customer is [name]. *)
Definition count_customer (name : string) (rows : gmap string OrderEntity)
    : nat :=
  length (filter (fun row => e_customer row.2 = name) (map_to_list rows)).

(** [p ?? d] *)
Definition nullish {A} (p : option A) (d : A) : A :=
  match p with
  | Some v => v
  | None => d
  end.

(** Updates an existing order in Table Storage. *)
Definition updateOrder (id : string) (patch : OrderPatch) : M Order :=
  let* existing := Orders.getEntity id in
  let updated :=
    mkOrderEntity id
      (nullish (p_customer patch) (e_customer existing))
      (nullish (p_amount patch) (e_amount existing))
      (nullish (p_status patch) (e_status existing))
      (nullish (p_date patch) (e_date existing)) in
  let* _ := Orders.updateEntity id updated in
  ret (mkOrder id (e_customer updated) (Js.Number (e_amount updated))
               (e_status updated) (e_date updated)).

(** ** botService.ts: conversation registry *)

Definition base64_alphabet : string :=
  "ABCDEFGHIJKLMNOPQRSTUVWXYZabcdefghijklmnopqrstuvwxyz0123456789+/".

Definition base64_char (i : N) : ascii :=
  match String.get (N.to_nat i) base64_alphabet with
  | Some c => c
  | None => "="%char
  end.

(** [buf.toString("base64")]: three bytes give four characters, a
    shorter last group is padded with [=]. *)
Fixpoint base64 (bytes : list N) : string :=
  match bytes with
  | [] => ""
  | [a] =>
      String (base64_char (N.shiftr a 2))
        (String (base64_char (N.shiftl (N.land a 3) 4)) "==")
  | [a; b] =>
      String (base64_char (N.shiftr a 2))
        (String (base64_char (N.lor (N.shiftl (N.land a 3) 4) (N.shiftr b 4)))
          (String (base64_char (N.shiftl (N.land b 15) 2)) "="))
  | a :: b :: c :: rest =>
      String (base64_char (N.shiftr a 2))
        (String (base64_char (N.lor (N.shiftl (N.land a 3) 4) (N.shiftr b 4)))
          (String (base64_char (N.lor (N.shiftl (N.land b 15) 2) (N.shiftr c 6)))
            (String (base64_char (N.land c 63)) (base64 rest))))
  end.

(** [Buffer.from(s)]: the bytes of the string. *)
Definition Buffer_from (s : string) : list N :=
  N_of_ascii <$> String.list_ascii_of_string s.

(** [s.replace(/[/+=]/g, "_")] *)
Fixpoint replace_unsafe (s : string) : string :=
  match s with
  | EmptyString => EmptyString
  | String c s' =>
      String (if bool_decide (c = "/"%char ∨ c = "+"%char ∨ c = "="%char)
              then "_"%char else c)
             (replace_unsafe s')
  end.

(** The row key both [saveConversation] and [removeConversation]
    compute for a conversation id. *)
Definition rowKeyOf (conversationId : string) : string :=
  replace_unsafe (base64 (Buffer_from conversationId)).

Definition ensureSubTable : M unit :=
  catch Subs.createTable (fun _ => ret tt).

(** Persist a conversation ID so we can send proactive messages to it. *)
Definition saveConversation (conversationId serviceUrl : string) : M unit :=
  let rowKey := rowKeyOf conversationId in
  Subs.upsertEntity rowKey (mkSubEntity conversationId serviceUrl).

(** Remove a stored conversation (bot uninstalled). *)
Definition removeConversation (conversationId : string) : M unit :=
  let rowKey := rowKeyOf conversationId in
  catch (Subs.deleteEntity rowKey) (fun _ => ret tt (* already gone *)).

(** Return all saved conversation IDs ([""] is falsy and is skipped). *)
Definition listConversations : M (list string) :=
  let* rows := Subs.listEntities in
  ret (filter (fun c => c ≠ "") (conversationId <$> rows.*2)).

(** ** botService.ts: adaptive card builders *)

Definition STATUS_COLORS (s : OrderStatus) : string :=
  match s with
  | Submitted => "Accent" | Pending => "Warning"
  | Processing => "Accent" | Shipped => "Good"
  | Delivered => "Good" | Cancelled => "Attention"
  end.

Definition card_schema_url : string :=
  "http://adaptivecards.io/schemas/adaptive-card.json".

(** Build the initial "new order received" card with Accept / Cancel
    actions. *)
Definition buildNewOrderCard (order : Order) : AdaptiveCard :=
  let header :=
    mkTextBlock "📦 New Order Received" "Large" (Some "Bolder")
                (Some "Accent") false in
  let facts :=
    [ mkFact "Order ID" (id order);
      mkFact "Customer" (customer order);
      mkFact "Amount" ("$" +:+ Js.toFixed2 (Js.Number (amount order)));
      mkFact "Date" (date order);
      mkFact "Status" (status_string (status order)) ] in
  let accept :=
    mkExecuteAction "✅ Accept" "order.accept" (id order) "positive" in
  let cancel :=
    mkExecuteAction "❌ Cancel" "order.cancel" (id order) "destructive" in
  mkAdaptiveCard card_schema_url "1.5"
    [ElTextBlock header; ElFactSet facts; ElActionSet [accept; cancel]].

(** Build a confirmation card shown after the user acts on an order. *)
Definition buildConfirmedCard (order : Order) (actedBy : string)
    : AdaptiveCard :=
  let label :=
    match status order with
    | Pending => "✅ Order Accepted"
    | Cancelled => "❌ Order Cancelled"
    | s => "📋 Order " +:+ status_string s
    end in
  let header :=
    mkTextBlock label "Large" (Some "Bolder")
                (Some (STATUS_COLORS (status order))) false in
  let facts :=
    [ mkFact "Order ID" (id order);
      mkFact "Customer" (customer order);
      mkFact "Amount" ("$" +:+ Js.toFixed2 (Js.Number (amount order)));
      mkFact "Date" (date order);
      mkFact "New Status" (status_string (status order));
      mkFact "Updated by" actedBy ] in
  let note :=
    mkTextBlock "No further actions available." "Small" None None true in
  mkAdaptiveCard card_schema_url "1.5"
    [ElTextBlock header; ElFactSet facts; ElTextBlock note].

(** ** index.ts: fan-out and handlers *)

(** [client.write(payload)] on a client that has not ended. *)
Definition sseWrite (p : SsePayload) (client : SseClient) : SseClient :=
  if writableEnded client then client
  else mkSseClient (writableEnded client) (written client ++ [p]).

(** [for (const client of sseClients) if (!client.writableEnded) ...] *)
Definition sseBroadcast (p : SsePayload) : M unit :=
  modify (fun w => set_sseClients (sseWrite p <$> sseClients w) w).

Definition app_log (line : LogLine) : M unit := modify (push_log line).

(** [app.send(conversationId, { attachments: [card] })] *)
Definition app_send (conversation : string) (card : AdaptiveCard) : M unit :=
  let* _ := external (CallSend conversation) in
  modify (push_outbox (conversation, card)).

(** The promise chain started by [broadcastNewOrder] is run in place:
    its interleaving with the rest of the request is not modelled. *)
Definition broadcastNewOrder (order : Order) : M unit :=
  (* 1. SSE to open browser tabs *)
  let* _ := sseBroadcast (SseNewOrder order) in
  (* 2. Adaptive card notification to every installed conversation *)
  let card := buildNewOrderCard order in
  catch
    (let* conversationIds := listConversations in
     let* _ := app_log (LogInfo
                 ("[bot] broadcasting new order " +:+ id order +:+ " to "
                    +:+ Js.String_of_N (N.of_nat (length conversationIds))
                    +:+ " conversation(s)")) in
     forEach (fun conversationId =>
                catch (app_send conversationId card)
                      (fun err => app_log (LogError
                         ("[bot] failed to deliver to " +:+ conversationId)
                         err)))
             conversationIds)
    (fun err => app_log (LogError "[bot] failed to list conversations" err)).

(** Bot: capture conversation on install / remove. *)
Definition on_install_add (convId : string) (serviceUrl : option string)
    : M unit :=
  let* _ := saveConversation convId (nullish serviceUrl "") in
  app_log (LogInfo ("[bot] conversation stored: " +:+ convId)).

Definition on_install_remove (convId : string) : M unit :=
  let* _ := removeConversation convId in
  app_log (LogInfo ("[bot] conversation removed: " +:+ convId)).

(** A JSON value as the bot transport delivers it. *)
#[local] Unset Elimination Schemes.
Inductive JsValue : Type :=
  | VUndefined
  | VNull
  | VBool (b : bool)
  | VNumber (n : Js.number)
  | VString (s : string)
  | VArray (items : list JsValue)
  | VObject (fields : list (string * JsValue)).
#[local] Set Elimination Schemes.

(** [v?.[name]] for a name that is not an array index. *)
Definition get_field (name : string) (v : JsValue) : JsValue :=
  match v with
  | VObject fields =>
      match list_find (fun f => f.1 = name) fields with
      | Some (_, f) => f.2
      | None => VUndefined
      end
  | _ => VUndefined
  end.

(** [ctx.activity.value.action] and [ctx.activity.from?.name] *)
Record InvokeAction : Type := mkInvokeAction {
  verb : option string;
  data : JsValue;
}.

Record CardActionActivity : Type := mkCardActionActivity {
  action : option InvokeAction;
  from_name : option string;
}.

Inductive InvokeValue : Type :=
  | BadRequest (message : string) (innerStatusCode : nat)
  | InternalError (err : Error) (innerStatusCode : nat)
  | CardValue (card : AdaptiveCard).

Record InvokeResponse : Type := mkInvokeResponse {
  statusCode : nat;
  type : string;
  value : InvokeValue;
}.

(** Bot: handle Accept / Cancel button taps on the new-order card. *)
Definition on_card_action (activity : CardActionActivity) : M InvokeResponse :=
  let verb :=
    nullish (match action activity with
             | Some a => verb a
             | None => None
             end) "" in
  let data :=
    match action activity with
    | Some a => data a
    | None => VUndefined
    end in
  let orderId :=
    match get_field "orderId" data with
    | VString s => s
    | _ => ""
    end in
  if bool_decide (orderId = "")
     || (bool_decide (verb ≠ "order.accept")
         && bool_decide (verb ≠ "order.cancel"))
  then
    ret (mkInvokeResponse 400 "application/vnd.microsoft.error"
           (BadRequest "Unknown action" 400))
  else
    let newStatus :=
      if bool_decide (verb = "order.accept") then Pending else Cancelled in
    catch
      (let* updated := updateOrder orderId (status_patch newStatus) in
       let actedBy := nullish (from_name activity) "Unknown" in
       let confirmedCard := buildConfirmedCard updated actedBy in
       (* Broadcast the status change via SSE so open tabs refresh *)
       let* _ := sseBroadcast (SseOrderUpdated updated) in
       ret (mkInvokeResponse 200 "application/vnd.microsoft.card.adaptive"
              (CardValue confirmedCard)))
      (fun err =>
         ret (mkInvokeResponse 500 "application/vnd.microsoft.error"
                (InternalError err 500))).

Inductive HttpBody : Type :=
  | JsonOrder (o : Order)
  | JsonError (err : Error).

Record HttpResponse : Type := mkHttpResponse {
  http_status : nat;
  http_body : HttpBody;
}.

(** The [amount] of a request body: [number | string]. *)
Inductive RawAmount : Type :=
  | RawNumber (n : Js.number)
  | RawString (s : string).

(** POST /api/orders.  [Number] applied to a string is the language's
    conversion, taken as the parameter [StringToNumber]. *)
Definition post_orders (StringToNumber : string → Js.number)
    (customer : string) (rawAmount : RawAmount) : M HttpResponse :=
  catch
    (let amount :=
       match rawAmount with
       | RawNumber n => Js.Number n
       | RawString s => StringToNumber s
       end in
     let* today := gets today in
     let* created :=
       createOrder (mkOrderData customer amount Submitted today)
                   (Some broadcastNewOrder) in
     ret (mkHttpResponse 201 (JsonOrder created)))
    (fun err => ret (mkHttpResponse 500 (JsonError err))).

(** ** Worlds used in statements and examples *)

(** The store answers: the script holds no outage. *)
Definition calm (w : World) : Prop := faults w = [].

#[global] Instance calm_dec w : Decision (calm w).
Proof. unfold calm. apply _. Defined.

(** A world with the given rows, no outage, no live session. *)
Definition world_of (rows : gmap string OrderEntity)
    (regs : gmap string SubEntity) : World :=
  mkWorld rows regs [] [] "2026-02-24" [] [] [] [].

Definition acme : OrderEntity :=
  mkOrderEntity "ORD-001" "Acme" (Js.Num (85 # 2)) Submitted "2026-02-24".
Definition bolt : OrderEntity :=
  mkOrderEntity "ORD-002" "Bolt" (Js.Num 7) Shipped "2026-01-05".

Definition two_orders : World :=
  world_of (<["ORD-001" := acme]> (<["ORD-002" := bolt]> ∅)) ∅.

(** Three calls of [createOrder], the second one from the POST handler. *)
Definition three_calls : list (OrderData * option (Order → M unit)) :=
  [ (mkOrderData "Acme" (Js.Num (85 # 2)) Submitted "2026-02-24", None);
    (mkOrderData "Bolt" (Js.Num 7) Submitted "2026-02-25",
     Some broadcastNewOrder);
    (mkOrderData "Acme" (Js.Num 1) Submitted "2026-02-26", None) ].

(** What a card-action event carries: its verb ([""] when absent) and
    the [orderId] of its payload ([undefined] when absent). *)
Definition action_verb (activity : CardActionActivity) : string :=
  match action activity with
  | Some a => nullish (verb a) ""
  | None => ""
  end.

Definition action_orderId (activity : CardActionActivity) : JsValue :=
  match action activity with
  | Some a => get_field "orderId" (data a)
  | None => VUndefined
  end.

(** The status a verb asks for. *)
Definition status_of_verb (v : string) : OrderStatus :=
  if bool_decide (v = "order.accept") then Pending else Cancelled.

(** An accept tap on the first order, by Dana. *)
Definition accept_tap : CardActionActivity :=
  mkCardActionActivity
    (Some (mkInvokeAction (Some "order.accept")
             (VObject [("orderId", VString "ORD-001")])))
    (Some "Dana").

(** A tap whose payload carries a number where the id should be. *)
Definition malformed_tap : CardActionActivity :=
  mkCardActionActivity
    (Some (mkInvokeAction (Some "order.accept")
             (VObject [("orderId", VNumber (Js.Num 1))])))
    (Some "Dana").

(** A store that answers the listing and is out when the insert comes,
    with one live session open and one ended. *)
Definition insert_outage : World :=
  mkWorld (<["ORD-001" := acme]> ∅) ∅ [false; true] [] "2026-02-24"
          [mkSseClient false []; mkSseClient true []] [] [] [].

(** The same sessions, the store answering. *)
Definition live_world : World :=
  mkWorld (<["ORD-001" := acme]> ∅) ∅ [] [] "2026-02-24"
          [mkSseClient false []; mkSseClient true []] [] [] [].

(** Every run of the computation relates the world before to the
    world after by [R]. *)
Definition preserves {A} (R : relation World) (m : M A) : Prop :=
  ∀ w r w', m w = (r, w') → R w w'.

(** The live sessions are as before. *)
Definition same_sessions : relation World :=
  fun w w' => sseClients w' = sseClients w.

(** The orders are as before, and a store that answered still does. *)
Definition same_orders : relation World :=
  fun w w' => orders w' = orders w ∧ (calm w → calm w').

(** A notification callback that resolves, and leaves the orders to
    [createOrder]. *)
Definition quiet (notify : Order → M unit) : Prop :=
  ∀ order w, ∃ w', notify order w = (Ok tt, w') ∧ same_orders w w'.

Ltac run :=
  unfold bind, ret, throw, catch, gets, modify, external in *;
  simpl in *.

(** ** index.ts: the remaining HTTP handlers *)

Inductive ApiBody : Type :=
  | JsonOrders (orders : list Order)
  | JsonUpdatedOrder (o : Order)
  | JsonUpdated (updated : nat)
  | JsonFailure (err : Error).

(** [res.json(body)] answers 200, [res.status(500).json(...)] 500. *)
Record ApiResponse : Type := mkApiResponse {
  api_status : nat;
  api_body : ApiBody;
}.

(** [decodeURIComponent(name)]: the decoding is the language's and is
    taken as the parameter [decode], which is [None] where
    [decodeURIComponent] throws a [URIError]. *)
Definition URIError : Error := OtherError "URIError: URI malformed".

Definition decodeURIComponent (decode : string → option string)
    (name : string) : M string :=
  match decode name with
  | Some s => ret s
  | None => throw URIError
  end.

(** [l.filter(p)] for a predicate that may throw: it is called on each
    item in turn. *)
Fixpoint Array_filter {A} (p : A → M bool) (l : list A) : M (list A) :=
  match l with
  | [] => ret []
  | x :: l' =>
      let* keep := p x in
      let* rest := Array_filter p l' in
      ret (if keep then x :: rest else rest)
  end.

(** GET /api/orders *)
Definition get_orders (localeCompare : string → string → comparison)
    : M ApiResponse :=
  catch
    (let* orders := listOrders localeCompare in
     ret (mkApiResponse 200 (JsonOrders orders)))
    (fun err => ret (mkApiResponse 500 (JsonFailure err))).

(** GET /api/customers/:name/orders *)
Definition get_customer_orders
    (localeCompare : string → string → comparison)
    (decode : string → option string) (name : string) : M ApiResponse :=
  catch
    (let* orders := listOrders localeCompare in
     let* matching :=
       Array_filter
         (fun o => let* decoded := decodeURIComponent decode name in
                   ret (bool_decide (customer o = decoded)))
         orders in
     ret (mkApiResponse 200 (JsonOrders matching)))
    (fun err => ret (mkApiResponse 500 (JsonFailure err))).

(** PUT /api/customers/:name *)
Definition put_customer (decode : string → option string)
    (name newName : string) : M ApiResponse :=
  catch
    (let* oldName := decodeURIComponent decode name in
     let* updated := renameCustomer oldName newName in
     ret (mkApiResponse 200 (JsonUpdated updated)))
    (fun err => ret (mkApiResponse 500 (JsonFailure err))).

(** PUT /api/orders/:id *)
Definition put_order (id : string) (patch : OrderPatch) : M ApiResponse :=
  catch
    (let* updated := updateOrder id patch in
     ret (mkApiResponse 200 (JsonUpdatedOrder updated)))
    (fun err => ret (mkApiResponse 500 (JsonFailure err))).

(** ** Notions used in the further properties *)

(** The row [renameCustomer] writes over the row [e] under key [k]. *)
Definition renamed (newName k : string) (e : OrderEntity) : OrderEntity :=
  mkOrderEntity k newName (e_amount e) (e_status e) (e_date e).

(** The patch merged over a stored row, as [updateOrder] writes it
    under key [k]. *)
Definition merged (k : string) (patch : OrderPatch) (e : OrderEntity)
    : OrderEntity :=
  mkOrderEntity k (nullish (p_customer patch) (e_customer e))
                  (nullish (p_amount patch) (e_amount e))
                  (nullish (p_status patch) (e_status e))
                  (nullish (p_date patch) (e_date e)).

(** Every row carries its row key as its [id]: all writers of the
    Orders table keep this. *)
Definition rows_wf (rows : gmap string OrderEntity) : Prop :=
  ∀ k e, rows !! k = Some e → e_id e = k.

(** A callback that leaves the orders alone, whatever the store does. *)
Definition harmless (notify : option (Order → M unit)) : Prop :=
  ∀ f, notify = Some f → quiet f.

(** The numeric suffixes of the row keys are below 2^53: [parseInt]
    reads them exactly and [maxNum + 1] is exact, as the numbers of the
    embedding are. *)
Definition suffixes_exact (rows : gmap string OrderEntity) : Prop :=
  ∀ k n, k ∈ dom rows → suffix k = Some n → (n < 2 ^ 53)%N.

(** The amount of a POST body as [Number(rawAmount)] reads it. *)
Definition amount_of (StringToNumber : string → Js.number)
    (rawAmount : RawAmount) : Js.number :=
  match rawAmount with
  | RawNumber n => Js.Number n
  | RawString s => StringToNumber s
  end.

(** Two rows whose keys differ in the case of a letter. *)
Definition mixed_case_keys : World :=
  world_of (<["ORD-a" := mkOrderEntity "ORD-a" "Acme" (Js.Num 1) Submitted
                                        "2026-02-24"]>
              (<["ORD-B" := mkOrderEntity "ORD-B" "Bolt" (Js.Num 2) Submitted
                                          "2026-02-24"]> ∅)) ∅.

(** A store with keys of several shapes. *)
Definition mixed_keys : World :=
  world_of (<["ORD-0041" := acme]>
              (<["ORD-7" := bolt]>
                 (<["ORD-9x" := bolt]> (<["misc" := bolt]> ∅)))) ∅.

Definition cato : OrderData :=
  mkOrderData "Cato" (Js.Num 3) Submitted "2026-03-01".

(** The id of each of the numbers 1 to [n] is lexicographically at most
    the id of the next number: a check by evaluation. *)
Definition ids_ascend_upto (n : nat) : bool :=
  forallb (fun i => Js.lex_le (orderId i) (orderId (i + 1))) (upto n).

(** [a] may stand before [b] in a list of ids in descending order. *)
Definition id_desc : relation string := fun a b => Js.lex_le b a = true.

(** The dates [randomDate] can draw: today's date of the sources,
    2026-02-24, and the 365 days before it. *)
Definition seed_dates : list string :=
  (fun d => Js.isoDate (1771891200000 - Z.of_nat d * Js.ms_per_day)%Z)
    <$> seq 0 366.

(** What a generated row satisfies under the key [k]. *)
Definition seeded_row (k : string) (e : OrderEntity) : Prop :=
  e_id e = k
  ∧ e_customer e ∈ CUSTOMERS
  ∧ (∃ q, e_amount e = Js.Num q ∧ (100 <= q)%Q ∧ (q <= 10000)%Q)
  ∧ e_date e ∈ seed_dates.

(** A character allowed in a row key by this encoding: a letter, a
    digit or [_]. *)
Definition key_char (c : ascii) : bool :=
  let n := N_of_ascii c in
  ((65 <=? n) && (n <=? 90) || (97 <=? n) && (n <=? 122)
   || (48 <=? n) && (n <=? 57) || (n =? 95))%N.

Fixpoint all_chars (p : ascii → bool) (s : string) : bool :=
  match s with
  | EmptyString => true
  | String c s' => p c && all_chars p s'
  end.

(** Every registration is stored under the row key of its own
    conversation id: the writers of BotSubscriptions keep this. *)
Definition registry_wf (regs : gmap string SubEntity) : Prop :=
  ∀ k e, regs !! k = Some e → k = rowKeyOf (conversationId e).

(** A registry holding one conversation. *)
Definition one_conversation : World :=
  world_of ∅ (<[rowKeyOf "19:meeting@thread.v2"
                := mkSubEntity "19:meeting@thread.v2" "https://smba.example"]> ∅).

(** The actions a card offers. *)
Definition card_actions (card : AdaptiveCard) : list ExecuteAction :=
  flat_map (fun el => match el with
                      | ElActionSet actions => actions
                      | _ => []
                      end) (card_body card).

(** The event delivered when [who] taps the action [a] of a card: it
    carries the verb of the action and its data. *)
Definition tap (a : ExecuteAction) (who : option string)
    : CardActionActivity :=
  mkCardActionActivity
    (Some (mkInvokeAction (Some (act_verb a))
             (VObject [("orderId", VString (act_orderId a))])))
    who.

(** The header of a card: its first text block. *)
Definition card_header (card : AdaptiveCard) : option string :=
  match card_body card with
  | ElTextBlock t :: _ => Some (tb_text t)
  | _ => None
  end.

(** The world after [broadcastNewOrder] has written to the sessions. *)
Definition after_sse (order : Order) (w : World) : World :=
  set_sseClients (sseWrite (SseNewOrder order) <$> sseClients w) w.

(** Two conversations registered, the transport failing for the first
    delivery. *)
Definition two_conversations : World :=
  mkWorld ∅
    (<[rowKeyOf "19:a" := mkSubEntity "19:a" "https://smba.example"]>
       (<[rowKeyOf "19:b" := mkSubEntity "19:b" "https://smba.example"]> ∅))
    [false; true; false] [] "2026-02-24" [mkSseClient false []] [] [] [].

(** * The views (client)

    ** Customers view: aggregation *)

(** [JSON.stringify] of a number: one that is not finite is written
    as [null]. *)
Definition json_of_number (n : Js.number) : JsValue :=
  match n with
  | Js.Num q => VNumber (Js.Num q)
  | _ => VNull
  end.

(** An order as the Customers view receives it from GET /api/orders:
    [JSON.parse] of what the server wrote. *)
Record ViewOrder : Type := mkViewOrder {
  v_id : string;
  v_customer : string;
  v_amount : JsValue;
  v_status : OrderStatus;
  v_date : string;
}.

Definition view_of_order (o : Order) : ViewOrder :=
  mkViewOrder (id o) (customer o) (json_of_number (amount o)) (status o)
              (date o).

Record CustomerSummary : Type := mkCustomerSummary {
  s_customer : string;
  totalAmount : JsValue;
  orderCount : nat;
  latestOrderDate : string;
}.

(** [a > b] on strings compares UTF-16 code units. *)
Definition string_gt (a b : string) : bool := Js.string_gt a b.

Section Aggregate.

(** [a + b] of the language, on whatever the amounts are. *)
Context (plus : JsValue → JsValue → JsValue).

(** One turn of the loop of [aggregateOrders]: [map.get(order.customer)]
    and the update of the summary found, or [map.set] of a new one.
    The [Map] is the list of its values in insertion order; the key of
    a summary is its [customer]. *)
Fixpoint aggregate_step (order : ViewOrder) (map : list CustomerSummary)
    : list CustomerSummary :=
  match map with
  | [] =>
      [mkCustomerSummary (v_customer order) (v_amount order) 1
                         (v_date order)]
  | existing :: rest =>
      if bool_decide (s_customer existing = v_customer order) then
        mkCustomerSummary (s_customer existing)
          (plus (totalAmount existing) (v_amount order))
          (orderCount existing + 1)
          (if string_gt (v_date order) (latestOrderDate existing)
           then v_date order else latestOrderDate existing)
        :: rest
      else existing :: aggregate_step order rest
  end.

Definition aggregateOrders (orders : list ViewOrder) : list CustomerSummary :=
  foldl (fun map order => aggregate_step order map) [] orders.

End Aggregate.

(** The local updates of [handleSaveCustomer] after the server has
    answered: [setAllOrders] and [setCustomers]. *)
Definition setAllOrders_renamed (old newName : string)
    (prev : list ViewOrder) : list ViewOrder :=
  (fun o => if bool_decide (v_customer o = old)
            then mkViewOrder (v_id o) newName (v_amount o) (v_status o)
                             (v_date o)
            else o) <$> prev.

Definition setCustomers_renamed (old newName : string)
    (prev : list CustomerSummary) : list CustomerSummary :=
  (fun c => if bool_decide (s_customer c = old)
            then mkCustomerSummary newName (totalAmount c) (orderCount c)
                                   (latestOrderDate c)
            else c) <$> prev.

(** The later of two dates, as the loop keeps it. *)
Definition later (d x : string) : string := if string_gt x d then x else d.

(** Addition of two finite doubles, for the examples. *)
Definition plus_exact (a b : JsValue) : JsValue :=
  match a, b with
  | VNumber (Js.Num x), VNumber (Js.Num y) => VNumber (Js.Num (Js.fadd x y))
  | _, _ => VNumber Js.NaN
  end.

Definition three_view_orders : list ViewOrder :=
  [ mkViewOrder "ORD-003" "Acme" (VNumber (Js.Num 1)) Submitted "2026-02-26";
    mkViewOrder "ORD-002" "Bolt" (VNumber (Js.Num 7)) Shipped "2026-01-05";
    mkViewOrder "ORD-001" "Acme" (VNumber (Js.Num 2)) Submitted "2026-02-24" ].

(** ** Orders view: the list of orders and the events *)

(** A row of the list the Orders view holds.  The list is typed
    [Order[]], but the handler of the events appends whatever
    [JSON.parse(e.data)] yields: an order, or the envelope
    [{ type: "order.updated", order }] of a status change. *)
Inductive ViewRow : Type :=
  | RowOrder (o : ViewOrder)
  | RowUpdate (o : ViewOrder).

(** [row.id]: the envelope has no [id], it reads [undefined]. *)
Definition row_id (r : ViewRow) : option string :=
  match r with
  | RowOrder o => Some (v_id o)
  | RowUpdate _ => None
  end.

(** [JSON.parse(e.data)] of an event the server wrote. *)
Definition event_data (p : SsePayload) : ViewRow :=
  match p with
  | SseNewOrder o => RowOrder (view_of_order o)
  | SseOrderUpdated o => RowUpdate (view_of_order o)
  end.

(** [prev.some((o) => o.id === order.id) ? prev : [...prev, order]] *)
Definition append_unless_listed (order : ViewRow) (prev : list ViewRow)
    : list ViewRow :=
  if existsb (fun o => bool_decide (row_id o = row_id order)) prev
  then prev
  else prev ++ [order].

(** [es.onmessage] *)
Definition onmessage (p : SsePayload) (prev : list ViewRow) : list ViewRow :=
  append_unless_listed (event_data p) prev.

(** The local updates of [handleCreate] and [handleSave] after the
    server has answered with the order. *)
Definition handleCreate_local (created : Order) (prev : list ViewRow)
    : list ViewRow :=
  append_unless_listed (RowOrder (view_of_order created)) prev.

Definition handleSave_local (updated : Order) (prev : list ViewRow)
    : list ViewRow :=
  (fun o => if bool_decide (row_id o = Some (id updated))
            then RowOrder (view_of_order updated)
            else o) <$> prev.

(** The list after the events written to a session, in turn. *)
Definition view_after (init : list ViewRow) (events : list SsePayload)
    : list ViewRow :=
  foldl (fun prev p => onmessage p prev) init events.

(** * Properties *)

(** ** Checks of the primitives *)

Example toFixed2_ex : Js.toFixed2 (Js.Num (85 # 2)) = "42.50".
Proof. reflexivity. Qed.

Example toFixed2_neg : Js.toFixed2 (Js.Num (- (1 # 1000))) = "-0.00".
Proof. reflexivity. Qed.

Example isoDate_now : Js.isoDate 1771891200000%Z = "2026-02-24".
Proof. vm_compute. reflexivity. Qed.

Example isoDate_leap : Js.isoDate (1771891200000 - 726 * Js.ms_per_day)%Z = "2024-02-29".
Proof. vm_compute. reflexivity. Qed.

Example parseInt10_ex : Js.parseInt10 "0042" = 42%N.
Proof. reflexivity. Qed.

Example base64_ex : base64 (Buffer_from "Man") = "TWFu".
Proof. reflexivity. Qed.

Example base64_pad1 : base64 (Buffer_from "Ma") = "TWE=".
Proof. reflexivity. Qed.

Example base64_pad2 : base64 (Buffer_from "M") = "TQ==".
Proof. reflexivity. Qed.

Example rowKeyOf_ex : rowKeyOf "19:meeting@thread.v2" = "MTk6bWVldGluZ0B0aHJlYWQudjI_".
Proof. reflexivity. Qed.

(** ** Running computations *)

Lemma external_calm c w :
  calm w → external c w = (Ok tt, push_call c w) ∧ calm (push_call c w).
Proof. unfold calm, external. intros H. rewrite H. split; [done | exact H]. Qed.

(** An external call touches neither table. *)
Lemma external_rows c w r w' :
  external c w = (r, w') →
  orders w' = orders w ∧ subs w' = subs w ∧ sseClients w' = sseClients w
  ∧ outbox w' = outbox w ∧ calls w' = c :: calls w.
Proof.
  unfold external.
  destruct (faults w) as [|[] fs]; intros [= <- <-]; simpl; auto.
Qed.

(** It consumes one flag of the script, and fails only on an outage. *)
Lemma external_faults c w r w' :
  external c w = (r, w') →
  faults w' = tail (faults w) ∧ (calm w → r = Ok tt ∧ calm w').
Proof.
  unfold external, calm.
  destruct (faults w) as [|[] fs] eqn:Hf; intros [= <- <-]; simpl; auto;
    split; try done.
Qed.

Lemma updateOrder_frame w k e patch r w' :
  orders w !! k = Some e →
  updateOrder k patch w = (r, w') →
  let e' := mkOrderEntity k (nullish (p_customer patch) (e_customer e))
                            (nullish (p_amount patch) (e_amount e))
                            (nullish (p_status patch) (e_status e))
                            (nullish (p_date patch) (e_date e)) in
  match r with
  | Ok o => o = toOrder (k, e') ∧ orders w' = <[k := e']> (orders w)
  | Throw _ => orders w' = orders w
  end.
Proof.
  intros Hrow.
  unfold updateOrder, Orders.getEntity, Orders.updateEntity. run.
  destruct w as [os ss fs rn td cl ob lg cs]; simpl in *.
  destruct fs as [|[] [|[] fs]]; simpl; rewrite ?Hrow; simpl;
    rewrite ?Hrow; simpl; intros [= <- <-]; simpl; done.
Qed.

Lemma updateOrder_calm w k e patch :
  orders w !! k = Some e →
  calm w → ∃ o w', updateOrder k patch w = (Ok o, w').
Proof.
  intros Hrow.
  unfold calm, updateOrder, Orders.getEntity, Orders.updateEntity. run.
  destruct w as [os ss fs rn td cl ob lg cs]; simpl in *.
  intros ->. simpl. rewrite Hrow. simpl. rewrite Hrow. simpl. eauto.
Qed.

(** ** updateOrder *)

(** C2: for an order present in the store, [updateOrder(id, {status: S})]
    changes the status only.  When the store answers, the call returns
    the order with its customer, amount and date as stored and status
    [S].  Whatever the store does, every other row is as before, the
    row of [id] keeps its customer, amount and date, and a returned
    order carries these values, the status [S] being the stored one. *)
Theorem updateOrder_status_only w k e S :
  orders w !! k = Some e →
  (calm w →
   ∃ w', updateOrder k (status_patch S) w
         = (Ok (mkOrder k (e_customer e) (e_amount e) S (e_date e)), w'))
  ∧ ∀ r w', updateOrder k (status_patch S) w = (r, w') →
      (∀ k', k' ≠ k → orders w' !! k' = orders w !! k')
      ∧ (∃ e', orders w' !! k = Some e'
               ∧ e_customer e' = e_customer e
               ∧ e_amount e' = e_amount e
               ∧ e_date e' = e_date e
               ∧ ∀ o, r = Ok o →
                   e_status e' = S
                   ∧ o = mkOrder k (e_customer e) (e_amount e) S (e_date e)).
Proof.
  intros Hrow. split.
  - intros Hcalm.
    destruct (updateOrder_calm w k e (status_patch S) Hrow Hcalm)
      as (o & w' & Hrun).
    pose proof (updateOrder_frame _ _ _ _ _ _ Hrow Hrun) as [-> _].
    by exists w'.
  - intros r w' Hrun.
    pose proof (updateOrder_frame _ _ _ _ _ _ Hrow Hrun) as Hf.
    destruct r as [o|err]; simpl in Hf.
    + destruct Hf as [-> Hw']. rewrite Hw'. split.
      * intros k' Hk'. by rewrite lookup_insert_ne.
      * eexists. rewrite lookup_insert_eq. split; [done|]. simpl.
        do 3 (split; [done|]). by intros o [= <-].
    + rewrite Hf. split; [done|]. exists e. by do 4 (split; [done|]).
Qed.

Lemma updateOrder_status_only_witness :
  ∃ w', updateOrder "ORD-001" (status_patch Pending) two_orders
        = (Ok (mkOrder "ORD-001" "Acme" (Js.Num (85 # 2)) Pending
                       "2026-02-24"), w').
Proof.
  apply (updateOrder_status_only two_orders "ORD-001" acme Pending);
    reflexivity.
Defined.

(** C3: for an order present in the store, [updateOrder(id, {})]
    returns, when the store answers, the order as it was stored (id,
    customer, amount, status and date).  Whatever the store does, every
    other row is as before, the stored order reads as before, and a
    returned order is the stored one. *)
Theorem updateOrder_empty_patch w k e :
  orders w !! k = Some e →
  (calm w → ∃ w', updateOrder k empty_patch w = (Ok (toOrder (k, e)), w'))
  ∧ ∀ r w', updateOrder k empty_patch w = (r, w') →
      (∀ k', k' ≠ k → orders w' !! k' = orders w !! k')
      ∧ (∃ e', orders w' !! k = Some e' ∧ toOrder (k, e') = toOrder (k, e))
      ∧ (e_id e = k → orders w' = orders w)
      ∧ (∀ o, r = Ok o → o = toOrder (k, e)).
Proof.
  intros Hrow. split.
  - intros Hcalm.
    destruct (updateOrder_calm w k e empty_patch Hrow Hcalm)
      as (o & w' & Hrun).
    pose proof (updateOrder_frame _ _ _ _ _ _ Hrow Hrun) as [-> _].
    by exists w'.
  - intros r w' Hrun.
    pose proof (updateOrder_frame _ _ _ _ _ _ Hrow Hrun) as Hf.
    destruct r as [o|err]; simpl in Hf.
    + destruct Hf as [-> Hw']. rewrite Hw'. repeat split.
      * intros k' Hk'. by rewrite lookup_insert_ne.
      * eexists. rewrite lookup_insert_eq. done.
      * intros <-. apply insert_id. rewrite Hrow. by destruct e.
      * by intros o [= <-].
    + rewrite Hf. repeat split; [by exists e | done].
Qed.

Lemma updateOrder_empty_patch_witness :
  ∃ w', updateOrder "ORD-002" empty_patch two_orders
        = (Ok (toOrder ("ORD-002", bolt)), w').
Proof.
  apply (updateOrder_empty_patch two_orders "ORD-002" bolt); reflexivity.
Defined.

(** ** listOrders *)

Section ArraySort.

Context {A : Type} (cmp : A → A → comparison).

#[local] Abbreviation in_order := (Js.in_order cmp).

(** The comparator is consistent: it never sends each of two elements
    behind the other. *)
Hypothesis cmp_consistent : ∀ a b, cmp a b = Gt → cmp b a ≠ Gt.

Lemma sort_insert_HdRel x y l :
  in_order y x → HdRel in_order y l → HdRel in_order y (Js.sort_insert cmp x l).
Proof.
  intros Hyx Hl. destruct l as [|z l]; simpl; [by constructor|].
  inversion_clear Hl. destruct (cmp x z); by constructor.
Qed.

Lemma sort_insert_Sorted x l :
  Sorted in_order l → Sorted in_order (Js.sort_insert cmp x l).
Proof.
  induction 1 as [|y l Hs IH Hhd]; simpl; [by repeat constructor|].
  destruct (cmp x y) eqn:Hxy.
  - repeat constructor; try done. unfold Js.in_order. by rewrite Hxy.
  - repeat constructor; try done. unfold Js.in_order. by rewrite Hxy.
  - constructor; [done|]. apply sort_insert_HdRel; [|done].
    by apply cmp_consistent.
Qed.

Lemma Array_sort_Sorted l : Sorted in_order (Js.Array_sort cmp l).
Proof.
  induction l as [|x l IH]; simpl; [constructor|].
  by apply sort_insert_Sorted.
Qed.

Lemma sort_insert_Permutation x l : Js.sort_insert cmp x l ≡ₚ x :: l.
Proof.
  induction l as [|y l IH]; simpl; [done|].
  destruct (cmp x y); try done. rewrite IH. apply Permutation_swap.
Qed.

Lemma Array_sort_Permutation l : Js.Array_sort cmp l ≡ₚ l.
Proof.
  induction l as [|x l IH]; simpl; [done|].
  by rewrite sort_insert_Permutation, IH.
Qed.

End ArraySort.


Lemma lex_le_compare a b : Js.lex_le a b = true ↔ String.compare a b ≠ Gt.
Proof.
  revert b. induction a as [|x a IH]; intros [|y b]; simpl; try done.
  unfold Ascii.compare.
  destruct (N.compare_spec (N_of_ascii x) (N_of_ascii y)) as [Heq|Hlt|Hgt].
  - rewrite Heq, N.ltb_irrefl, N.eqb_refl. simpl. apply IH.
  - apply N.ltb_lt in Hlt. rewrite Hlt. done.
  - assert ((N_of_ascii x <? N_of_ascii y)%N = false) as ->
      by (apply N.ltb_ge; lia).
    assert ((N_of_ascii x =? N_of_ascii y)%N = false) as ->
      by (apply N.eqb_neq; lia).
    done.
Qed.

Lemma code_unit_consistent : Js.consistent Js.code_unit_compare.
Proof.
  intros a b. unfold Js.code_unit_compare.
  rewrite (String.compare_antisym a b).
  by destruct (String.compare b a).
Qed.



Lemma caseless_consistent : Js.consistent Js.caseless_compare.
Proof.
  intros a b. unfold Js.caseless_compare.
  rewrite (String.compare_antisym (Js.fold_case_string a)),
    (String.compare_antisym b a).
  destruct (String.compare (Js.fold_case_string b) (Js.fold_case_string a));
    simpl; [|done..].
  by destruct (String.compare a b).
Qed.


Example listOrders_collation_run :
  ∃ l w', listOrders Js.caseless_compare mixed_case_keys = (Ok l, w')
          ∧ id <$> l = ["ORD-B"; "ORD-a"]
          ∧ Js.lex_le "ORD-a" "ORD-B" = false.
Proof. eexists _, _. split; [vm_compute; reflexivity|]. split; reflexivity. Qed.

(** ** renameCustomer *)

Lemma listEntities_inv w r w' :
  Orders.listEntities w = (r, w') →
  orders w' = orders w
  ∧ calls w' = CallList TABLE_NAME :: calls w
  ∧ (calm w → calm w' ∧ r = Ok (map_to_list (orders w)))
  ∧ ∀ rows, r = Ok rows → rows = map_to_list (orders w).
Proof.
  unfold Orders.listEntities, bind. intros Hrun.
  destruct (external _ w) as [[[]|err] w1] eqn:Hext; run;
    pose proof (external_faults _ _ _ _ Hext) as [_ Hcalm];
    apply external_rows in Hext as (Ho & _ & _ & _ & Hc); simplify_eq;
    (split; [done|]); (split; [done|]); rewrite ?Ho; split.
  - intros Hw. by destruct (Hcalm Hw).
  - by intros rows [= <-].
  - intros Hw. by destruct (Hcalm Hw).
  - done.
Qed.

Lemma listEntities_calm w :
  calm w →
  Orders.listEntities w
  = (Ok (map_to_list (orders w)), push_call (CallList TABLE_NAME) w).
Proof.
  intros Hcalm. unfold Orders.listEntities, bind.
  by destruct (external_calm (CallList TABLE_NAME) w Hcalm) as [-> _].
Qed.

Lemma updateEntity_inv k e w r w' :
  Orders.updateEntity k e w = (r, w') →
  match r with
  | Ok _ => orders w' = <[k := e]> (orders w) ∧ is_Some (orders w !! k)
  | Throw _ => orders w' = orders w
  end.
Proof.
  unfold Orders.updateEntity, bind. intros Hrun.
  destruct (external _ w) as [[[]|err] w1] eqn:Hext; run;
    apply external_rows in Hext as (Ho & _); simplify_eq; [|done].
  rewrite Ho in Hrun.
  destruct (orders w !! k) eqn:Hk; simplify_eq/=; [|done].
  by rewrite Ho.
Qed.

Lemma updateEntity_calm k e w :
  calm w → is_Some (orders w !! k) →
  ∃ w', Orders.updateEntity k e w = (Ok tt, w') ∧ calm w'
        ∧ orders w' = <[k := e]> (orders w).
Proof.
  intros Hcalm [e0 Hk]. unfold Orders.updateEntity, bind.
  destruct (external_calm (CallUpdate TABLE_NAME k) w Hcalm) as [-> Hc].
  run. rewrite Hk. eauto.
Qed.

Section Rename.

Context (newName : string).

(** The write [renameCustomer] issues for a collected order. *)
Let write (order : Order) : M unit :=
  Orders.updateEntity (id order)
    (mkOrderEntity (id order) newName (amount order) (status order)
                   (date order)).

Lemma rename_writes_inv l w w' k e :
  forEach write l w = (Ok tt, w') →
  orders w' !! k = Some e →
  (e_customer e = newName ∧ k ∈ id <$> l)
  ∨ (orders w !! k = Some e ∧ k ∉ id <$> l).
Proof.
  revert w. induction l as [|o l IH]; intros w; simpl.
  - intros [= <-] Hk. right. split; [done|]. apply not_elem_of_nil.
  - unfold bind at 1. destruct (write o w) as [[[]|err] w1] eqn:Hw; [|done].
    apply updateEntity_inv in Hw as [Ho1 _].
    intros Hrun Hk. destruct (IH _ Hrun Hk) as [[Hc Hin]|[Hk1 Hnin]].
    + left. split; [done|]. by apply elem_of_cons; right.
    + rewrite Ho1 in Hk1. destruct (decide (id o = k)) as [<-|Hne].
      * rewrite lookup_insert_eq in Hk1. simplify_eq. left. split; [done|].
        by apply elem_of_cons; left.
      * rewrite lookup_insert_ne in Hk1 by done. right. split; [done|].
        intros [->|?]%elem_of_cons; done.
Qed.

Lemma rename_writes_calm l w :
  calm w → (∀ o, o ∈ l → is_Some (orders w !! id o)) →
  ∃ w', forEach write l w = (Ok tt, w').
Proof.
  revert w. induction l as [|o l IH]; intros w Hcalm Hin; simpl.
  - by eexists.
  - destruct (updateEntity_calm (id o)
                (mkOrderEntity (id o) newName (amount o) (status o) (date o))
                w Hcalm) as (w1 & Hw & Hc1 & Ho1).
    { apply Hin. by left. }
    unfold bind at 1. unfold write at 1. rewrite Hw.
    apply IH; [done|]. intros o' Ho'. rewrite Ho1.
    apply lookup_insert_is_Some'. right. apply Hin. by right.
Qed.

End Rename.

(** C4, its second part for a new name that differs from the old one:
    when [renameCustomer(old, new)] completes, the count it returns is
    the number of orders whose customer was [old] before the call, and,
    provided [new] differs from [old], no order has the customer [old]
    after it.  When the store answers, the call completes. *)
Theorem renameCustomer_count w oldName newName :
  (calm w →
   ∃ w', renameCustomer oldName newName w
         = (Ok (count_customer oldName (orders w)), w'))
  ∧ ∀ n w', renameCustomer oldName newName w = (Ok n, w') →
      n = count_customer oldName (orders w)
      ∧ (oldName ≠ newName → count_customer oldName (orders w') = 0).
Proof.
  assert (∀ n w', renameCustomer oldName newName w = (Ok n, w') →
      n = count_customer oldName (orders w)
      ∧ (oldName ≠ newName → count_customer oldName (orders w') = 0))
    as Hinv.
  { intros n w'. unfold renameCustomer. unfold bind at 1.
    destruct (Orders.listEntities w) as [[rows|err] w1] eqn:Hl; [|done].
    apply listEntities_inv in Hl as (Ho & _ & _ & Hrows).
    specialize (Hrows _ eq_refl). subst rows.
    unfold bind.
    destruct (forEach _ _ w1) as [[[]|err] w2] eqn:Hf; [|done].
    intros [= <- <-]. split.
    { unfold count_customer. by rewrite length_fmap. }
    intros Hne. unfold count_customer. apply length_zero_iff_nil.
    destruct (filter _ (map_to_list (orders w2))) as [|[k e] rest] eqn:Hfl;
      [done|exfalso].
    assert ((k, e) ∈ filter (λ row, e_customer row.2 = oldName)
                            (map_to_list (orders w2))) as Hin
      by (rewrite Hfl; left).
    apply list_elem_of_filter in Hin as [Hc Hin]. simpl in Hc.
    apply elem_of_map_to_list in Hin.
    destruct (rename_writes_inv newName _ _ _ _ _ Hf Hin)
      as [[Hc' _]|[Hk Hnin]]; [congruence|].
    apply Hnin. rewrite <- list_fmap_compose.
    apply list_elem_of_fmap. exists (k, e). split; [done|].
    apply list_elem_of_filter. split; [done|].
    apply elem_of_map_to_list. by rewrite <- Ho. }
  split; [|exact Hinv].
  intros Hcalm. unfold renameCustomer in *. unfold bind at 1.
  rewrite (listEntities_calm w Hcalm).
  set (toUpdate := toOrder <$> filter _ (map_to_list (orders w))).
  destruct (rename_writes_calm newName toUpdate
              (push_call (CallList TABLE_NAME) w)) as [w' Hw'].
  { exact Hcalm. }
  { intros o [[k e] [-> Hin]]%list_elem_of_fmap.
    apply list_elem_of_filter in Hin as [_ Hin].
    apply elem_of_map_to_list in Hin. simpl. by rewrite Hin. }
  exists w'. unfold bind. rewrite Hw'.
  unfold ret. f_equal. f_equal. unfold count_customer, toUpdate.
  by rewrite length_fmap.
Qed.

Lemma renameCustomer_count_witness :
  ∃ w', renameCustomer "Acme" "Apex" two_orders
        = (Ok (count_customer "Acme" (orders two_orders)), w').
Proof. apply (renameCustomer_count two_orders "Acme" "Apex"). reflexivity. Defined.

(** C4 as stated fails when the new name is the old one: renaming
    Acme to Acme in a store with one order of Acme completes, and that
    order still has the customer Acme. *)
Lemma renameCustomer_same_name_counterexample :
  ¬ (∀ n w', renameCustomer "Acme" "Acme" two_orders = (Ok n, w') →
             n = count_customer "Acme" (orders two_orders)
             ∧ count_customer "Acme" (orders w') = 0).
Proof.
  intros H.
  destruct (renameCustomer "Acme" "Acme" two_orders) as [[n|err] w'] eqn:Hrun;
    [|by vm_compute in Hrun].
  destruct (H _ _ eq_refl) as [_ Hzero].
  vm_compute in Hrun. injection Hrun as Hn Hw'. subst w'.
  by vm_compute in Hzero.
Qed.

Example renameCustomer_same_name_run :
  ∃ w', renameCustomer "Acme" "Acme" two_orders = (Ok 1, w')
        ∧ count_customer "Acme" (orders w') = 1.
Proof. eexists. split; vm_compute; reflexivity. Qed.

(** ** Order ids *)

Lemma parse_digits_pos d p :
  Js.parse_digits (N.pos p) (NilEmpty.string_of_uint d)
  = N.pos (Pos.of_uint_acc d p).
Proof.
  revert p. induction d; intros p; simpl; [done|..];
    unfold Js.digit_value; simpl; rewrite <- IHd; f_equal; lia.
Qed.

Lemma parse_digits_uint d :
  Js.parse_digits 0 (NilEmpty.string_of_uint d) = N.of_uint d.
Proof.
  unfold N.of_uint.
  induction d; simpl; [done|done|..]; unfold Js.digit_value; simpl;
    apply parse_digits_pos.
Qed.

Lemma parseInt10_String n : Js.parseInt10 (Js.String_of_N n) = n.
Proof.
  unfold Js.parseInt10, Js.String_of_N.
  by rewrite parse_digits_uint, DecimalN.Unsigned.of_to.
Qed.

Lemma all_digits_uint d : Js.all_digits (NilEmpty.string_of_uint d) = true.
Proof. induction d; simpl; done. Qed.

Lemma String_of_N_nonempty n : Js.String_of_N n ≠ "".
Proof.
  unfold Js.String_of_N. intros Hnil.
  assert (N.to_uint n = Decimal.Nil) as Hd
    by (destruct (N.to_uint n); simpl in Hnil; done).
  pose proof (DecimalN.Unsigned.of_to n) as Hn. rewrite Hd in Hn.
  simpl in Hn. subst n. done.
Qed.

Lemma padStart0_spec width s :
  ∃ k, Js.padStart0 width s = Js.repeat_string "0" k +:+ s.
Proof. by eexists. Qed.

Lemma zeros_all_digits k s :
  Js.all_digits (Js.repeat_string "0" k +:+ s) = Js.all_digits s.
Proof. induction k; simpl; done. Qed.

Lemma zeros_parse k s :
  Js.parse_digits 0 (Js.repeat_string "0" k +:+ s) = Js.parse_digits 0 s.
Proof. induction k; simpl; done. Qed.

Lemma zeros_nonempty k s : s ≠ "" → Js.repeat_string "0" k +:+ s ≠ "".
Proof. destruct k; simpl; done. Qed.

Lemma match_ORD_prefix ds :
  match_ORD ("ORD-" +:+ ds)
  = if bool_decide (ds ≠ "") && Js.all_digits ds then Some ds else None.
Proof. reflexivity. Qed.

(** The suffix of the id made from [n] is [n]. *)
Lemma suffix_orderId n : suffix (orderId n) = Some n.
Proof.
  unfold suffix, orderId. rewrite match_ORD_prefix.
  destruct (padStart0_spec 3 (Js.String_of_N n)) as [k ->].
  rewrite bool_decide_eq_true_2
    by (apply zeros_nonempty, String_of_N_nonempty).
  rewrite zeros_all_digits. unfold Js.String_of_N at 1.
  rewrite all_digits_uint. simpl. f_equal.
  unfold Js.parseInt10. rewrite zeros_parse. apply parseInt10_String.
Qed.

#[global] Instance orderId_inj : Inj (=) (=) orderId.
Proof.
  intros n m Heq. apply (f_equal suffix) in Heq.
  rewrite !suffix_orderId in Heq. by simplify_eq.
Qed.

Lemma upto_S n : upto (S n) = (upto n ++ [N.of_nat (S n)])%list.
Proof. unfold upto. by rewrite seq_S, fmap_app. Qed.

Lemma elem_of_upto n i : i ∈ upto n ↔ (1 ≤ i ≤ N.of_nat n)%N.
Proof.
  unfold upto. rewrite list_elem_of_fmap. split.
  - intros (j & -> & Hj). apply elem_of_seq in Hj. lia.
  - intros Hi. exists (N.to_nat i). split; [lia|]. apply elem_of_seq. lia.
Qed.

Lemma NoDup_ids_upto n : NoDup (ids_upto n).
Proof.
  unfold ids_upto, upto. apply (NoDup_fmap_2 _).
  apply (NoDup_fmap_2 _). apply NoDup_seq.
Qed.

Lemma length_ids_upto n : length (ids_upto n) = n.
Proof. unfold ids_upto, upto. by rewrite !length_fmap, length_seq. Qed.

Example orderId_7 : orderId 7 = "ORD-007".
Proof. reflexivity. Qed.

Example orderId_100 : orderId 100 = "ORD-100".
Proof. reflexivity. Qed.

Example orderId_1000 : orderId 1000 = "ORD-1000".
Proof. reflexivity. Qed.

Example suffix_no_match : suffix "ORD-12a" = None ∧ suffix "ORD-" = None.
Proof. done. Qed.

(** ** What the fan-out of a new order preserves *)

#[global] Instance same_sessions_preorder : PreOrder same_sessions.
Proof.
  split; [done|]. unfold same_sessions. intros w1 w2 w3 H1 H2. congruence.
Qed.

#[global] Instance same_orders_preorder : PreOrder same_orders.
Proof.
  split; [done|]. unfold same_orders.
  intros w1 w2 w3 [H1 C1] [H2 C2]. split; [congruence|auto].
Qed.

Section Preserves.

Context (R : relation World) `{!PreOrder R}.

Lemma preserves_ret {A} (a : A) : preserves R (ret a).
Proof. by intros w r w' [= <- <-]. Qed.

Lemma preserves_bind {A B} (m : M A) (k : A → M B) :
  preserves R m → (∀ a, preserves R (k a)) → preserves R (bind m k).
Proof.
  intros Hm Hk w r w'. unfold bind.
  destruct (m w) as [[a|e] w1] eqn:H1.
  - intros H2. transitivity w1; [by eapply Hm | by eapply Hk].
  - intros [= <- <-]. by eapply Hm.
Qed.

Lemma preserves_catch {A} (m : M A) (h : Error → M A) :
  preserves R m → (∀ e, preserves R (h e)) → preserves R (catch m h).
Proof.
  intros Hm Hh w r w'. unfold catch.
  destruct (m w) as [[a|e] w1] eqn:H1.
  - intros [= <- <-]. by eapply Hm.
  - intros H2. transitivity w1; [by eapply Hm | by eapply Hh].
Qed.

Lemma preserves_forEach {A} (f : A → M unit) l :
  (∀ a, preserves R (f a)) → preserves R (forEach f l).
Proof.
  intros Hf. induction l as [|x l IH]; simpl.
  - apply preserves_ret.
  - by apply preserves_bind.
Qed.

(** The fan-out to the conversations, given what its primitive steps
    preserve. *)
Lemma preserves_fanout order :
  (∀ c, preserves R (external c)) →
  (∀ f, (∀ w, R w (f w)) → preserves R (modify f)) →
  (∀ l, ∀ w, R w (push_log l w)) →
  (∀ m, ∀ w, R w (push_outbox m w)) →
  preserves R
    (catch
       (let* conversationIds := listConversations in
        let* _ := app_log (LogInfo
                    ("[bot] broadcasting new order " +:+ id order +:+ " to "
                       +:+ Js.String_of_N (N.of_nat (length conversationIds))
                       +:+ " conversation(s)")) in
        forEach (fun conversationId =>
                   catch (app_send conversationId (buildNewOrderCard order))
                         (fun err => app_log (LogError
                            ("[bot] failed to deliver to " +:+ conversationId)
                            err)))
                conversationIds)
       (fun err =>
          app_log (LogError "[bot] failed to list conversations" err))).
Proof.
  intros Hext Hmod Hlog Hout.
  assert (∀ l, preserves R (app_log l)) as Happ
    by (intros l; apply Hmod, Hlog).
  apply preserves_catch; [|done].
  apply preserves_bind.
  { apply preserves_bind.
    - apply preserves_bind; [apply Hext|]. intros _.
      by intros w r w' [= <- <-].
    - intros rows. apply preserves_ret. }
  intros ids. apply preserves_bind; [done|]. intros _.
  apply preserves_forEach. intros c. apply preserves_catch; [|done].
  apply preserves_bind; [apply Hext|]. intros _. apply Hmod, Hout.
Qed.

End Preserves.

Lemma preserves_modify R (f : World → World) :
  (∀ w, R w (f w)) → preserves R (modify f).
Proof. intros Hf w r w' [= <- <-]. apply Hf. Qed.

(** [broadcastNewOrder] never throws, writes the order once to every
    session that has not ended, and leaves the orders alone. *)
Lemma broadcastNewOrder_sessions order w :
  ∃ w', broadcastNewOrder order w = (Ok tt, w')
        ∧ sseClients w'
          = sseWrite (SseNewOrder order) <$> sseClients w
        ∧ same_orders w w'.
Proof.
  unfold broadcastNewOrder. unfold bind at 1. unfold sseBroadcast at 1.
  unfold modify at 1.
  set (w1 := set_sseClients _ w).
  set (fanout := catch _ _).
  assert (preserves same_sessions fanout) as Hsess.
  { apply preserves_fanout; [apply _|..].
    - intros c w0 r w' H. by apply external_rows in H as (_ & _ & ? & _).
    - apply preserves_modify.
    - done.
    - done. }
  assert (preserves same_orders fanout) as Hord.
  { apply preserves_fanout; [apply _|..].
    - intros c w0 r w' H. split.
      + by apply external_rows in H as (? & _).
      + intros Hc. apply external_faults in H as (_ & Hcalm).
        by destruct (Hcalm Hc).
    - apply preserves_modify.
    - done.
    - done. }
  assert (∃ w', fanout w1 = (Ok tt, w')) as [w' Hrun].
  { unfold fanout, catch.
    destruct (bind listConversations _ w1) as [[[]|e] w2]; by eexists. }
  exists w'. split; [done|]. split.
  - by rewrite (Hsess _ _ _ Hrun).
  - by apply (Hord _ _ _ Hrun).
Qed.

Lemma broadcastNewOrder_quiet : quiet broadcastNewOrder.
Proof.
  intros order w.
  destruct (broadcastNewOrder_sessions order w) as (w' & Hrun & _ & Ho).
  by exists w'.
Qed.

(** ** createOrder *)

Lemma maxNum_fold_spec rows acc :
  let m := foldl (fun maxNum (row : string * OrderEntity) =>
                    match match_ORD row.1 with
                    | Some ds => N.max maxNum (Js.parseInt10 ds)
                    | None => maxNum
                    end) acc rows in
  (acc ≤ m)%N
  ∧ (∀ row n, row ∈ rows → suffix row.1 = Some n → (n ≤ m)%N)
  ∧ (m = acc ∨ ∃ row, row ∈ rows ∧ suffix row.1 = Some m).
Proof.
  revert acc. induction rows as [|row rows IH]; intros acc; simpl.
  - split; [lia|]. split; [|by left]. intros ?? []%elem_of_nil.
  - set (acc' := match match_ORD row.1 with
                 | Some ds => N.max acc (Js.parseInt10 ds)
                 | None => acc
                 end).
    specialize (IH acc'). cbv zeta in IH.
    set (m := foldl _ acc' rows) in *. clearbody m.
    destruct IH as (Hge & Hub & Hwit).
    assert (acc ≤ acc')%N as Hacc
      by (unfold acc'; destruct (match_ORD row.1); lia).
    split; [lia|]. split.
    + intros row' n [->|Hin]%elem_of_cons Hs; [|by eapply Hub].
      unfold suffix in Hs. unfold acc' in Hge.
      destruct (match_ORD row.1); simplify_eq/=. lia.
    + destruct Hwit as [Hm|(row' & Hin & Hs)].
      * unfold acc' in Hm. unfold suffix.
        destruct (match_ORD row.1) as [ds|] eqn:Hds; [|by left].
        destruct (N.max_spec acc (Js.parseInt10 ds)) as [[_ Hmax]|[_ Hmax]].
        -- right. exists row. split; [by left|].
           rewrite Hds. simpl. f_equal. lia.
        -- left. lia.
      * right. exists row'. split; [by right|done].
Qed.

Lemma maxNum_of_spec rows : max_suffix_is rows (maxNum_of (map_to_list rows)).
Proof.
  destruct (maxNum_fold_spec (map_to_list rows) 0) as (_ & Hub & Hwit).
  fold (maxNum_of (map_to_list rows)) in Hub, Hwit. split.
  - intros k n [e He]%elem_of_dom Hs. apply (Hub (k, e)); [|done].
    by apply elem_of_map_to_list.
  - destruct Hwit as [?|([k e] & Hin & Hs)]; [by left|right].
    exists k. split; [|done]. apply elem_of_dom. exists e.
    by apply elem_of_map_to_list.
Qed.

(** A maximum suffix is unique. *)
Lemma max_suffix_is_unique rows m1 m2 :
  max_suffix_is rows m1 → max_suffix_is rows m2 → m1 = m2.
Proof.
  intros [Hub1 Hw1] [Hub2 Hw2].
  destruct Hw1 as [->|(k1 & Hk1 & Hs1)], Hw2 as [->|(k2 & Hk2 & Hs2)];
    [done|..].
  - specialize (Hub1 _ _ Hk2 Hs2). lia.
  - specialize (Hub2 _ _ Hk1 Hs1). lia.
  - specialize (Hub1 _ _ Hk2 Hs2). specialize (Hub2 _ _ Hk1 Hs1). lia.
Qed.

Lemma createEntity_inv k e w r w' :
  Orders.createEntity k e w = (r, w') →
  sseClients w' = sseClients w ∧ outbox w' = outbox w
  ∧ subs w' = subs w
  ∧ calls w' = CallCreate TABLE_NAME k :: calls w
  ∧ match r with
    | Ok _ => orders w' = <[k := e]> (orders w) ∧ orders w !! k = None
    | Throw _ => orders w' = orders w
    end.
Proof.
  unfold Orders.createEntity, bind. intros Hrun.
  destruct (external _ w) as [[[]|err] w1] eqn:Hext; run;
    apply external_rows in Hext as (Ho & Hs & Hc & Hb & Hl); simplify_eq;
    [|done].
  rewrite Ho in Hrun.
  destruct (orders w !! k) eqn:Hk; simplify_eq/=; [done|].
  by rewrite Ho.
Qed.

Lemma createEntity_calm k e w :
  calm w → orders w !! k = None →
  Orders.createEntity k e w
  = (Ok tt, set_orders <[k := e]> (push_call (CallCreate TABLE_NAME k) w)).
Proof.
  intros Hcalm Hk. unfold Orders.createEntity, bind.
  destruct (external_calm (CallCreate TABLE_NAME k) w Hcalm) as [-> Hc].
  run. by rewrite Hk.
Qed.

(** The id [createOrder] is about to assign is free. *)
Lemma next_id_free rows m :
  max_suffix_is rows m → rows !! orderId (m + 1) = None.
Proof.
  intros [Hub _]. apply eq_None_not_Some. intros Hin%elem_of_dom.
  specialize (Hub _ _ Hin (suffix_orderId _)). lia.
Qed.

Lemma createOrder_calm w data notify :
  calm w → (∀ f, notify = Some f → quiet f) →
  let m := maxNum_of (map_to_list (orders w)) in
  ∃ w', createOrder data notify w = (Ok (orderOf (m + 1) data), w')
        ∧ orders w' = <[orderId (m + 1) := newEntity (orderId (m + 1)) data]>
                        (orders w)
        ∧ calm w'.
Proof.
  intros Hcalm Hquiet m. unfold createOrder. unfold bind at 1.
  rewrite (listEntities_calm w Hcalm). fold m.
  unfold bind at 1. rewrite createEntity_calm.
  - destruct notify as [f|].
    + destruct (Hquiet f eq_refl (orderOf (m + 1) data)
                  (set_orders <[orderId (m + 1)
                                 := newEntity (orderId (m + 1)) data]>
                     (push_call (CallCreate TABLE_NAME (orderId (m + 1)))
                        (push_call (CallList TABLE_NAME) w))))
        as (w' & Hrun & Ho & Hc).
      unfold bind at 1. unfold orderOf in Hrun. rewrite Hrun.
      exists w'. split; [done|]. split; [by rewrite Ho|]. by apply Hc.
    + run. eexists. split; [done|]. split; done.
  - exact Hcalm.
  - simpl. apply next_id_free, maxNum_of_spec.
Qed.

Lemma elem_of_ids_upto n k :
  k ∈ ids_upto n ↔ ∃ i, k = orderId i ∧ (1 ≤ i ≤ N.of_nat n)%N.
Proof.
  unfold ids_upto. rewrite list_elem_of_fmap.
  by setoid_rewrite elem_of_upto.
Qed.

Lemma max_suffix_upto (rows : gmap string OrderEntity) n :
  dom rows = list_to_set (ids_upto n) → max_suffix_is rows (N.of_nat n).
Proof.
  intros Hdom. split.
  - intros k m Hk Hs. rewrite Hdom, elem_of_list_to_set in Hk.
    apply elem_of_ids_upto in Hk as (i & -> & Hi).
    rewrite suffix_orderId in Hs. simplify_eq. lia.
  - destruct n as [|n]; [by left|right]. exists (orderId (N.of_nat (S n))).
    split; [|apply suffix_orderId].
    rewrite Hdom, elem_of_list_to_set. apply elem_of_ids_upto.
    eexists. split; [done|lia].
Qed.

Lemma ids_upto_S n :
  list_to_set (C := gset string) (ids_upto (S n))
  = {[orderId (N.of_nat n + 1)]} ∪ list_to_set (ids_upto n).
Proof.
  unfold ids_upto. rewrite upto_S, fmap_app, list_to_set_app_L. simpl.
  replace (N.of_nat (S n)) with (N.of_nat n + 1)%N by lia.
  rewrite (right_id_L ∅ (∪)). apply (comm_L (∪)).
Qed.

Lemma createOrders_from cs : ∀ j w,
  calm w → dom (orders w) = list_to_set (ids_upto j) →
  (∀ c f, c ∈ cs → c.2 = Some f → quiet f) →
  ∃ w', createOrders cs w
        = (Ok (zip_with orderOf (N.of_nat <$> seq (S j) (length cs)) (cs.*1)),
           w')
        ∧ dom (orders w') = list_to_set (ids_upto (j + length cs))
        ∧ calm w'.
Proof.
  induction cs as [|[d notify] cs IH]; intros j w Hcalm Hdom Hquiet; simpl.
  - exists w. rewrite Nat.add_0_r. done.
  - destruct (createOrder_calm w d notify Hcalm)
      as (w1 & Hrun & Ho1 & Hc1).
    { intros f ->. apply (Hquiet (d, Some f)); [by left|done]. }
    simpl in Hrun, Ho1.
    rewrite (max_suffix_is_unique _ _ _ (maxNum_of_spec (orders w))
               (max_suffix_upto _ _ Hdom)) in Hrun, Ho1.
    destruct (IH (S j) w1 Hc1) as (w2 & Hrun2 & Hdom2 & Hc2).
    { rewrite Ho1, dom_insert_L, Hdom. by rewrite ids_upto_S. }
    { intros c f Hc. apply Hquiet. by right. }
    exists w2. unfold createOrders in *. simpl. unfold bind at 1.
    rewrite Hrun. unfold bind at 1. rewrite Hrun2. unfold ret.
    replace (j + S (length cs)) with (S j + length cs) by lia.
    split; [|done].
    by replace (N.of_nat j + 1)%N with (N.of_nat (S j)) by lia.
Qed.

Lemma ids_zip_with ds : ∀ l : list N,
  length l = length ds → id <$> zip_with orderOf l ds = orderId <$> l.
Proof.
  induction ds as [|d ds IH]; intros [|i l] Hlen; simplify_eq/=; [done|].
  f_equal. by apply IH.
Qed.

Lemma length_upto n : length (upto n) = n.
Proof. unfold upto. by rewrite length_fmap, length_seq. Qed.

(** C1: serialized calls of [createOrder] on an empty store that
    answers, fewer than 2^53 of them, each with or without a callback
    that leaves the orders alone, all complete.  With N the number of
    calls, the orders returned carry the ids ORD-001 to ORD-<N> in
    turn (the numbers 1 to N padded to 3 digits), these ids are
    pairwise distinct, and they are exactly the row keys of the store.
    N is then the maximum numeric suffix among the row keys, and a
    further call assigns the id of number N + 1. *)
Theorem createOrder_sequential_ids w cs :
  orders w = ∅ → calm w →
  (∀ c f, c ∈ cs → c.2 = Some f → quiet f) →
  (N.of_nat (length cs) < 2 ^ 53)%N →
  ∃ os w',
    createOrders cs w = (Ok os, w')
    ∧ os = zip_with orderOf (upto (length cs)) (cs.*1)
    ∧ id <$> os = ids_upto (length cs)
    ∧ NoDup (id <$> os)
    ∧ dom (orders w') = list_to_set (ids_upto (length cs))
    ∧ size (orders w') = length cs
    ∧ max_suffix_is (orders w') (N.of_nat (length cs))
    ∧ ∀ d notify, (∀ f, notify = Some f → quiet f) →
        ∃ w'', createOrder d notify w'
               = (Ok (orderOf (N.of_nat (length cs) + 1) d), w'').
Proof.
  intros Hempty Hcalm Hquiet _.
  destruct (createOrders_from cs 0 w Hcalm) as (w' & Hrun & Hdom & Hc');
    [|exact Hquiet|].
  { rewrite Hempty. by rewrite dom_empty_L. }
  simpl in Hdom. fold (upto (length cs)) in Hrun.
  assert (length (upto (length cs)) = length (cs.*1)) as Hlen
    by (by rewrite length_upto, length_fmap).
  pose proof (ids_zip_with (cs.*1) (upto (length cs)) Hlen) as Hids.
  fold (ids_upto (length cs)) in Hids.
  pose proof (max_suffix_upto _ _ Hdom) as Hmax.
  eexists _, w'. split; [exact Hrun|]. split; [done|].
  split; [exact Hids|]. split; [rewrite Hids; apply NoDup_ids_upto|].
  split; [exact Hdom|]. split.
  { rewrite <- size_dom, Hdom, size_list_to_set by apply NoDup_ids_upto.
    apply length_ids_upto. }
  split; [exact Hmax|]. intros d notify Hq.
  destruct (createOrder_calm w' d notify Hc' Hq) as (w'' & Hrun' & _).
  simpl in Hrun'.
  rewrite (max_suffix_is_unique _ _ _ (maxNum_of_spec (orders w')) Hmax)
    in Hrun'.
  by exists w''.
Qed.

Lemma createOrder_sequential_ids_witness :
  ∃ os w',
    createOrders three_calls (world_of ∅ ∅) = (Ok os, w')
    ∧ id <$> os = ["ORD-001"; "ORD-002"; "ORD-003"].
Proof.
  destruct (createOrder_sequential_ids (world_of ∅ ∅) three_calls)
    as (os & w' & Hrun & _ & Hids & _).
  - reflexivity.
  - reflexivity.
  - intros c f Hc Hf. unfold three_calls in Hc.
    repeat (apply elem_of_cons in Hc as [->|Hc]; simpl in Hf;
            [first [discriminate Hf
                   | injection Hf as <-; apply broadcastNewOrder_quiet]|]).
    by apply elem_of_nil in Hc.
  - vm_compute. reflexivity.
  - exists os, w'. split; [exact Hrun|]. rewrite Hids. vm_compute.
    reflexivity.
Defined.

(** ** seedIfEmpty *)

Lemma Math_random_spec w :
  ∃ q r, Math_random w = (Ok q, set_random r w).
Proof.
  unfold Math_random. destruct (random w) as [|k r] eqn:Hr.
  - exists (Js.unit_double 0), []. by destruct w; simplify_eq/=.
  - by exists (Js.unit_double k), r.
Qed.

(** A generated row has the key of its number; generating it only
    consumes random draws. *)
Lemma generateOrder_spec i w :
  ∃ e r, generateOrder i w = (Ok (orderId i, e), set_random r w).
Proof.
  unfold generateOrder, randomDate.
  destruct (Math_random_spec w) as (q1 & r1 & H1).
  destruct (Math_random_spec (set_random r1 w)) as (q2 & r2 & H2).
  destruct (Math_random_spec (set_random r2 (set_random r1 w)))
    as (q3 & r3 & H3).
  destruct (Math_random_spec
              (set_random r3 (set_random r2 (set_random r1 w))))
    as (q4 & r4 & H4).
  unfold bind at 1. rewrite H1. unfold bind at 1. rewrite H2.
  unfold bind at 1. rewrite H3.
  unfold bind at 1. unfold bind at 1. rewrite H4.
  by eexists _, r4.
Qed.

Lemma generateOrders_spec l : ∀ w,
  ∃ acts r, mapM generateOrder l w = (Ok acts, set_random r w)
            ∧ acts.*1 = orderId <$> l.
Proof.
  induction l as [|i l IH]; intros w; simpl.
  - exists [], (random w). by destruct w.
  - destruct (generateOrder_spec i w) as (e & r1 & H1).
    destruct (IH (set_random r1 w)) as (acts & r2 & H2 & Hkeys).
    unfold bind at 1. rewrite H1. unfold bind at 1. rewrite H2.
    exists ((orderId i, e) :: acts), r2. split; [done|].
    rewrite !fmap_cons. by rewrite Hkeys.
Qed.

Lemma dom_insert_all acts : ∀ rows,
  dom (Orders.insert_all acts rows) = list_to_set (acts.*1) ∪ dom rows.
Proof.
  unfold Orders.insert_all.
  induction acts as [|[k e] acts IH]; intros rows; simpl.
  - by rewrite (left_id_L ∅ (∪)).
  - rewrite IH, dom_insert_L. by rewrite (assoc_L (∪)), (comm_L (∪) _ {[k]}).
Qed.

Lemma submitTransaction_calm acts w :
  calm w → NoDup (acts.*1) → orders w = ∅ →
  Orders.submitTransaction acts w
  = (Ok tt, set_orders (Orders.insert_all acts)
              (push_call (CallSubmit TABLE_NAME (acts.*1)) w)).
Proof.
  intros Hcalm Hnd Hempty. unfold Orders.submitTransaction, bind.
  destruct (external_calm (CallSubmit TABLE_NAME (acts.*1)) w Hcalm)
    as [-> _].
  run. rewrite decide_True; [done|]. split; [done|].
  apply Forall_forall. intros k _. by rewrite Hempty, lookup_empty.
Qed.

Lemma createTable_swallowed w :
  ∃ fs, catch Orders.createTable (fun _ => ret tt) w
        = (Ok tt, push_call (CallCreateTable TABLE_NAME) (set_faults fs w))
        ∧ (calm w → fs = []).
Proof.
  unfold Orders.createTable. run. unfold calm.
  destruct (faults w) as [|[] fs] eqn:Hf.
  - exists []. split; [|done]. by destruct w; simplify_eq/=.
  - by exists fs.
  - by exists fs.
Qed.

Lemma set_faults_calm w : calm w → set_faults [] w = w.
Proof. unfold calm. by destruct w; simpl; intros ->. Qed.

Lemma seedIfEmpty_seeds w :
  orders w = ∅ → calm w →
  ∃ w', seedIfEmpty w = (Ok tt, w')
        ∧ dom (orders w') = list_to_set (ids_upto 100)
        ∧ calls w' = CallSubmit TABLE_NAME (ids_upto 100)
                       :: CallList TABLE_NAME
                       :: CallCreateTable TABLE_NAME :: calls w
        ∧ calm w'.
Proof.
  intros Hempty Hcalm. unfold seedIfEmpty. unfold bind at 1.
  destruct (createTable_swallowed w) as (fs & -> & Hfs).
  rewrite (Hfs Hcalm), (set_faults_calm w Hcalm).
  unfold bind at 1. rewrite listEntities_calm by exact Hcalm.
  simpl. rewrite Hempty, map_to_list_empty.
  unfold generateOrders. fold (upto 100).
  destruct (generateOrders_spec (upto 100)
              (push_call (CallList TABLE_NAME)
                 (push_call (CallCreateTable TABLE_NAME) w)))
    as (acts & r & Hgen & Hkeys).
  unfold bind at 1. rewrite Hgen.
  fold (ids_upto 100) in Hkeys.
  rewrite submitTransaction_calm; [|exact Hcalm|..].
  - eexists. split; [done|]. simpl.
    rewrite dom_insert_all, Hempty, dom_empty_L, (right_id_L ∅ (∪)), Hkeys.
    done.
  - rewrite Hkeys. apply NoDup_ids_upto.
  - exact Hempty.
Qed.

Lemma createTable_calls w r w' :
  catch Orders.createTable (fun _ => ret tt) w = (r, w') →
  r = Ok tt ∧ orders w' = orders w
  ∧ calls w' = CallCreateTable TABLE_NAME :: calls w
  ∧ (calm w → calm w').
Proof.
  destruct (createTable_swallowed w) as (fs & -> & Hfs).
  intros [= <- <-]. simpl. do 3 (split; [done|]).
  intros Hcalm. unfold calm. simpl. by apply Hfs.
Qed.

Lemma seedIfEmpty_nonempty w r w' :
  orders w ≠ ∅ → seedIfEmpty w = (r, w') →
  orders w' = orders w
  ∧ calls w' = CallList TABLE_NAME :: CallCreateTable TABLE_NAME :: calls w
  ∧ (calm w → r = Ok tt ∧ calm w').
Proof.
  intros Hne. unfold seedIfEmpty. unfold bind at 1.
  destruct (catch _ _ w) as [r0 w0] eqn:Hct.
  apply createTable_calls in Hct as (-> & Ho0 & Hc0 & Hcalm0).
  unfold bind at 1.
  destruct (Orders.listEntities w0) as [[rows|err] w1] eqn:Hl;
    apply listEntities_inv in Hl as (Ho & Hc & Hcalm1 & Hrows).
  - specialize (Hrows _ eq_refl). rewrite Ho0 in Hrows.
    destruct rows as [|row rows].
    { symmetry in Hrows. by apply map_to_list_empty_iff in Hrows. }
    unfold ret. intros [= <- <-]. rewrite Ho, Ho0, Hc, Hc0.
    do 2 (split; [done|]). intros Hcalm. split; [done|].
    by apply Hcalm1, Hcalm0.
  - intros [= <- <-]. rewrite Ho, Ho0, Hc, Hc0.
    do 2 (split; [done|]). intros Hcalm.
    by destruct (Hcalm1 (Hcalm0 Hcalm)).
Qed.

(** C6: on an empty store that answers, [seedIfEmpty] inserts exactly
    100 rows, with the keys ORD-001 to ORD-100, by one transaction; a
    second call then completes and leaves the 100 rows as they are.  On
    a store that holds at least one row, [seedIfEmpty] writes nothing,
    whatever the store does: the rows are as before and the only calls
    made are the creation of the table and the listing. *)
Theorem seedIfEmpty_idempotent :
  (∀ w, orders w = ∅ → calm w →
     ∃ w', seedIfEmpty w = (Ok tt, w')
           ∧ size (orders w') = 100
           ∧ dom (orders w') = list_to_set (ids_upto 100)
           ∧ calls w' = CallSubmit TABLE_NAME (ids_upto 100)
                          :: CallList TABLE_NAME
                          :: CallCreateTable TABLE_NAME :: calls w
           ∧ ∃ w'', seedIfEmpty w' = (Ok tt, w'')
                    ∧ orders w'' = orders w'
                    ∧ size (orders w'') = 100)
  ∧ (∀ w r w', orders w ≠ ∅ → seedIfEmpty w = (r, w') →
       orders w' = orders w
       ∧ calls w' = CallList TABLE_NAME
                      :: CallCreateTable TABLE_NAME :: calls w).
Proof.
  split.
  - intros w Hempty Hcalm.
    destruct (seedIfEmpty_seeds w Hempty Hcalm)
      as (w' & Hrun & Hdom & Hcalls & Hcalm').
    assert (size (orders w') = 100) as Hsize.
    { rewrite <- size_dom, Hdom, size_list_to_set by apply NoDup_ids_upto.
      apply length_ids_upto. }
    exists w'. do 4 (split; [done|]).
    destruct (seedIfEmpty w') as [r w''] eqn:Hrun2.
    destruct (seedIfEmpty_nonempty w' r w'') as (Ho & _ & Hr); [|done|].
    { intros Hnil. rewrite Hnil, map_size_empty in Hsize. done. }
    destruct (Hr Hcalm') as [-> _].
    exists w''. split; [done|]. split; [done|]. by rewrite Ho.
  - intros w r w' Hne Hrun.
    destruct (seedIfEmpty_nonempty w r w' Hne Hrun) as (Ho & Hc & _).
    done.
Qed.

Lemma seedIfEmpty_idempotent_witness :
  ∃ w', seedIfEmpty (world_of ∅ ∅) = (Ok tt, w')
        ∧ size (orders w') = 100
        ∧ (∀ r w'', seedIfEmpty two_orders = (r, w'') →
                    orders w'' = orders two_orders).
Proof.
  destruct seedIfEmpty_idempotent as [Hseed Hskip].
  destruct (Hseed (world_of ∅ ∅)) as (w' & Hrun & Hsize & _);
    [reflexivity | reflexivity |].
  exists w'. split; [exact Hrun|]. split; [exact Hsize|].
  intros r w'' Hrun2.
  destruct (Hskip two_orders r w'') as [Ho _]; [|exact Hrun2|exact Ho].
  intros Hnil. apply (f_equal (lookup "ORD-001")) in Hnil.
  vm_compute in Hnil. discriminate Hnil.
Defined.

(** ** createOrder and its notification callback *)

Lemma listEntities_sessions w r w' :
  Orders.listEntities w = (r, w') →
  sseClients w' = sseClients w ∧ outbox w' = outbox w.
Proof.
  unfold Orders.listEntities, bind. intros Hrun.
  destruct (external _ w) as [[[]|err] w1] eqn:Hext; run;
    apply external_rows in Hext as (_ & _ & Hs & Hb & _); by simplify_eq.
Qed.

Section CreateOrderNotify.

Context (data : OrderData) (notify : option (Order → M unit)).
Context (w w1 : World) (rows : list (string * OrderEntity)).
Hypothesis Hlist : Orders.listEntities w = (Ok rows, w1).

Let newId : string := orderId (maxNum_of rows + 1).

Lemma createOrder_insert_throws err w2 :
  Orders.createEntity newId (newEntity newId data) w1 = (Throw err, w2) →
  createOrder data notify w = (Throw err, w2)
  ∧ sseClients w2 = sseClients w ∧ outbox w2 = outbox w
  ∧ orders w2 = orders w
  ∧ calls w2 = CallCreate TABLE_NAME newId :: CallList TABLE_NAME :: calls w.
Proof.
  intros Hins. split.
  - unfold createOrder. unfold bind at 1. rewrite Hlist.
    unfold bind at 1. fold newId. by rewrite Hins.
  - apply createEntity_inv in Hins as (Hs & Hb & _ & Hc & Ho).
    destruct (listEntities_sessions _ _ _ Hlist) as [Hs1 Hb1].
    apply listEntities_inv in Hlist as (Ho1 & Hc1 & _).
    by rewrite Hs, Hb, Ho, Hc, Hs1, Hb1, Ho1, Hc1.
Qed.

Lemma createOrder_insert_ok w2 :
  Orders.createEntity newId (newEntity newId data) w1 = (Ok tt, w2) →
  createOrder data notify w
  = match notify with
    | None => (Ok (orderOf (maxNum_of rows + 1) data), w2)
    | Some f =>
        match f (orderOf (maxNum_of rows + 1) data) w2 with
        | (Ok _, w3) => (Ok (orderOf (maxNum_of rows + 1) data), w3)
        | (Throw e, w3) => (Throw e, w3)
        end
    end.
Proof.
  intros Hins. unfold createOrder. unfold bind at 1. rewrite Hlist.
  unfold bind at 1. fold newId. rewrite Hins. unfold bind.
  destruct notify as [f|]; [|done]. by destruct (f _ w2) as [[[]|e] w3].
Qed.

End CreateOrderNotify.

Lemma post_orders_unfold toNum customer raw w :
  post_orders toNum customer raw w
  = match createOrder
            (mkOrderData customer
               match raw with
               | RawNumber n => Js.Number n
               | RawString s => toNum s
               end Submitted (today w))
            (Some broadcastNewOrder) w with
    | (Ok created, w') => (Ok (mkHttpResponse 201 (JsonOrder created)), w')
    | (Throw err, w') => (Ok (mkHttpResponse 500 (JsonError err)), w')
    end.
Proof.
  unfold post_orders, catch, bind, gets, ret. simpl.
  by destruct (createOrder _ _ w) as [[o|e] w'].
Qed.

(** C7: when the listing of [createOrder] has answered and the insert
    fails, [createOrder] fails with the error of the insert and leaves
    the world as the failed insert left it, whatever the callback: the
    callback is not run, no live session is written to and nothing is
    sent; the POST handler then answers 500 with that error.  When the
    insert succeeds, the callback, if any, is run on the created order
    in the world the insert left, and the POST handler, whose callback
    is [broadcastNewOrder], answers 201 after the order was written to
    every session that has not ended. *)
Theorem createOrder_notifies_after_insert data notify w rows w1 :
  Orders.listEntities w = (Ok rows, w1) →
  let newId := orderId (maxNum_of rows + 1) in
  let order := orderOf (maxNum_of rows + 1) data in
  (∀ err w2,
     Orders.createEntity newId (newEntity newId data) w1 = (Throw err, w2) →
     createOrder data notify w = (Throw err, w2)
     ∧ sseClients w2 = sseClients w ∧ outbox w2 = outbox w
     ∧ orders w2 = orders w
     ∧ calls w2 = CallCreate TABLE_NAME newId
                    :: CallList TABLE_NAME :: calls w
     ∧ ∀ toNum customer raw,
         data = mkOrderData customer
                  match raw with
                  | RawNumber n => Js.Number n
                  | RawString s => toNum s
                  end Submitted (today w) →
         post_orders toNum customer raw w
         = (Ok (mkHttpResponse 500 (JsonError err)), w2))
  ∧ (∀ w2,
       Orders.createEntity newId (newEntity newId data) w1 = (Ok tt, w2) →
       createOrder data notify w
       = match notify with
         | None => (Ok order, w2)
         | Some f =>
             match f order w2 with
             | (Ok _, w3) => (Ok order, w3)
             | (Throw e, w3) => (Throw e, w3)
             end
         end
       ∧ ∀ toNum customer raw,
           data = mkOrderData customer
                    match raw with
                    | RawNumber n => Js.Number n
                    | RawString s => toNum s
                    end Submitted (today w) →
           ∃ w3, post_orders toNum customer raw w
                 = (Ok (mkHttpResponse 201 (JsonOrder order)), w3)
                 ∧ sseClients w3
                   = sseWrite (SseNewOrder order) <$> sseClients w).
Proof.
  intros Hlist newId order. split.
  - intros err w2 Hins.
    destruct (createOrder_insert_throws data notify w w1 rows Hlist err w2 Hins)
      as (Hrun & Hs & Hb & Ho & Hc).
    do 5 (split; [done|]). intros toNum customer raw Hdata.
    rewrite post_orders_unfold, <- Hdata.
    destruct (createOrder_insert_throws data (Some broadcastNewOrder)
                w w1 rows Hlist err w2 Hins) as [-> _].
    done.
  - intros w2 Hins. split.
    { exact (createOrder_insert_ok data notify w w1 rows Hlist w2 Hins). }
    intros toNum customer raw Hdata.
    rewrite post_orders_unfold, <- Hdata.
    rewrite (createOrder_insert_ok data (Some broadcastNewOrder)
               w w1 rows Hlist w2 Hins).
    destruct (broadcastNewOrder_sessions order w2) as (w3 & Hb & Hs & _).
    fold order. rewrite Hb. exists w3. split; [done|]. rewrite Hs.
    apply createEntity_inv in Hins as (-> & _).
    by destruct (listEntities_sessions _ _ _ Hlist) as [-> _].
Qed.

Lemma createOrder_notifies_after_insert_witness :
  ∃ w2, createOrder (mkOrderData "Bolt" (Js.Num 7) Submitted "2026-02-24")
                    (Some broadcastNewOrder) insert_outage
        = (Throw StoreUnavailable, w2)
        ∧ sseClients w2 = sseClients insert_outage.
Proof.
  eexists.
  refine (let H := proj1 (createOrder_notifies_after_insert
                     (mkOrderData "Bolt" (Js.Num 7) Submitted "2026-02-24")
                     (Some broadcastNewOrder) insert_outage _ _ _)
                     StoreUnavailable _ _ in
          conj (proj1 H) (proj1 (proj2 H))).
  - vm_compute. reflexivity.
  - vm_compute. reflexivity.
Defined.

(** ** The card-action handler *)

Lemma on_card_action_unfold activity w :
  on_card_action activity w
  = let orderId := match action_orderId activity with
                   | VString s => s
                   | _ => ""
                   end in
    let verb := action_verb activity in
    if bool_decide (orderId = "")
       || (bool_decide (verb ≠ "order.accept")
           && bool_decide (verb ≠ "order.cancel"))
    then (Ok (mkInvokeResponse 400 "application/vnd.microsoft.error"
                (BadRequest "Unknown action" 400)), w)
    else
      match updateOrder orderId (status_patch (status_of_verb verb)) w with
      | (Ok updated, w1) =>
          (Ok (mkInvokeResponse 200 "application/vnd.microsoft.card.adaptive"
                 (CardValue (buildConfirmedCard updated
                               (nullish (from_name activity) "Unknown")))),
           set_sseClients
             (sseWrite (SseOrderUpdated updated) <$> sseClients w1) w1)
      | (Throw err, w1) =>
          (Ok (mkInvokeResponse 500 "application/vnd.microsoft.error"
                 (InternalError err 500)), w1)
      end.
Proof.
  unfold on_card_action, action_orderId, action_verb, status_of_verb.
  destruct (action activity) as [a|]; simpl; [|done].
  destruct (bool_decide _ || _); [done|].
  unfold catch, bind, sseBroadcast, modify, ret.
  by destruct (updateOrder _ _ w) as [[o|e] w1].
Qed.

(** C8: a card-action event whose verb is neither [order.accept] nor
    [order.cancel], or whose payload has no non-empty string [orderId],
    is answered by the 400 error value and leaves the world as it is:
    no call is made to the store.  For a valid verb and the id of an
    order in a store that answers, the answer is 200 with the
    confirmation card of the order, its status set as the verb asks,
    and the order is stored with that status. *)
Theorem on_card_action_responses activity w :
  (((action_verb activity ≠ "order.accept"
     ∧ action_verb activity ≠ "order.cancel")
    ∨ (∀ s, action_orderId activity = VString s → s = "")) →
   on_card_action activity w
   = (Ok (mkInvokeResponse 400 "application/vnd.microsoft.error"
            (BadRequest "Unknown action" 400)), w))
  ∧ (∀ k e,
       (action_verb activity = "order.accept"
        ∨ action_verb activity = "order.cancel") →
       action_orderId activity = VString k → k ≠ "" →
       orders w !! k = Some e → calm w →
       let S := status_of_verb (action_verb activity) in
       let updated := mkOrder k (e_customer e) (e_amount e) S (e_date e) in
       ∃ w', on_card_action activity w
             = (Ok (mkInvokeResponse 200
                      "application/vnd.microsoft.card.adaptive"
                      (CardValue
                         (buildConfirmedCard updated
                            (nullish (from_name activity) "Unknown")))), w')
             ∧ orders w' !! k
               = Some (mkOrderEntity k (e_customer e) (e_amount e) S
                                     (e_date e))).
Proof.
  split.
  - intros Hbad. rewrite on_card_action_unfold. cbv zeta.
    destruct Hbad as [[Hacc Hcan]|Hid].
    + rewrite (bool_decide_eq_true_2 _ Hacc), (bool_decide_eq_true_2 _ Hcan).
      by rewrite orb_true_r.
    + destruct (action_orderId activity) as [| | | |s| |]; try done.
      by rewrite (Hid s eq_refl).
  - intros k e Hverb Hid Hk Hrow Hcalm S updated.
    rewrite on_card_action_unfold. cbv zeta. rewrite Hid.
    rewrite (bool_decide_eq_false_2 _ Hk). simpl.
    assert (bool_decide (action_verb activity ≠ "order.accept")
            && bool_decide (action_verb activity ≠ "order.cancel") = false)
      as -> by (destruct Hverb as [-> | ->]; done).
    destruct (updateOrder_calm w k e (status_patch S) Hrow Hcalm)
      as (o & w1 & Hrun).
    pose proof (updateOrder_frame _ _ _ _ _ _ Hrow Hrun) as [-> Ho].
    fold S. rewrite Hrun. eexists. split; [done|]. simpl.
    rewrite Ho. by rewrite lookup_insert_eq.
Qed.

Lemma on_card_action_responses_witness :
  (on_card_action malformed_tap two_orders
   = (Ok (mkInvokeResponse 400 "application/vnd.microsoft.error"
            (BadRequest "Unknown action" 400)), two_orders))
  ∧ ∃ w', on_card_action accept_tap two_orders
          = (Ok (mkInvokeResponse 200
                   "application/vnd.microsoft.card.adaptive"
                   (CardValue
                      (buildConfirmedCard
                         (mkOrder "ORD-001" "Acme" (Js.Num (85 # 2)) Pending
                                  "2026-02-24") "Dana"))), w')
          ∧ orders w' !! "ORD-001"
            = Some (mkOrderEntity "ORD-001" "Acme" (Js.Num (85 # 2)) Pending
                                  "2026-02-24").
Proof.
  split.
  - apply (on_card_action_responses malformed_tap two_orders).
    right. intros s Hs. vm_compute in Hs. discriminate Hs.
  - apply (proj2 (on_card_action_responses accept_tap two_orders)
             "ORD-001" acme); try reflexivity; [by left | discriminate].
Defined.

Example accept_card_header :
  card_body (buildConfirmedCard
               (mkOrder "ORD-001" "Acme" (Js.Num (85 # 2)) Pending
                        "2026-02-24") "Dana") !! 0
  = Some (ElTextBlock (mkTextBlock "✅ Order Accepted" "Large"
                                   (Some "Bolder") (Some "Warning") false)).
Proof. reflexivity. Qed.

(** ** The conversation registry *)

Lemma deleteEntity_inv k w r w' :
  Subs.deleteEntity k w = (r, w') →
  orders w' = orders w
  ∧ match r with
    | Ok _ => subs w' = delete k (subs w)
    | Throw _ => subs w' = subs w
    end.
Proof.
  unfold Subs.deleteEntity, bind. intros Hrun.
  destruct (external _ w) as [[[]|err] w1] eqn:Hext; run;
    apply external_rows in Hext as (Ho & Hs & _); simplify_eq; [|done].
  rewrite Hs in Hrun.
  destruct (subs w !! k) eqn:Hk; simplify_eq/=; split; try done.
  by rewrite Hs.
Qed.

(** C10: [removeConversation] resolves for every conversation id and
    whatever the store does.  When the delete fails, for any reason,
    the failure is swallowed and both tables are as before; in every
    case the orders and every registration under another row key are
    as before. *)
Theorem removeConversation_never_throws conv w :
  ∃ w', removeConversation conv w = (Ok tt, w')
        ∧ orders w' = orders w
        ∧ (∀ k, k ≠ rowKeyOf conv → subs w' !! k = subs w !! k)
        ∧ (∀ err w1,
             Subs.deleteEntity (rowKeyOf conv) w = (Throw err, w1) →
             w' = w1 ∧ subs w' = subs w).
Proof.
  unfold removeConversation, catch, ret.
  destruct (Subs.deleteEntity (rowKeyOf conv) w) as [[[]|err] w1] eqn:Hdel;
    pose proof (deleteEntity_inv _ _ _ _ Hdel) as [Ho Hs];
    exists w1; (split; [done|]); (split; [done|]); split.
  - intros k Hk. rewrite Hs. by apply lookup_delete_ne.
  - intros err w2 [=].
  - intros k _. by rewrite Hs.
  - by intros err' w2 [= <- <-].
Qed.

(** C9 fails on the code: [/], [+] and [=] all become [_], so the row
    key does not determine the conversation id.  The ids [19:ab>] and
    [19:ab?] (base64 [MTk6YWI+] and [MTk6YWI/]) share the row key
    [MTk6YWI_], as does any id of base64 [....=] with its extension by
    [>] or [?].  Registering the second overwrites the registration
    of the first, and removing the second removes what was stored for
    the first. *)
Theorem rowKeyOf_collision :
  "19:ab>" ≠ "19:ab?"
  ∧ rowKeyOf "19:ab>" = "MTk6YWI_"
  ∧ rowKeyOf "19:ab?" = "MTk6YWI_"
  ∧ rowKeyOf "ab" = rowKeyOf "ab>"
  ∧ (∃ w1 w2 w3,
       saveConversation "19:ab>" "https://one" (world_of ∅ ∅) = (Ok tt, w1)
       ∧ saveConversation "19:ab?" "https://two" w1 = (Ok tt, w2)
       ∧ listConversations w2 = (Ok ["19:ab?"], w3))
  ∧ (∃ w1 w2 w3,
       saveConversation "19:ab>" "https://one" (world_of ∅ ∅) = (Ok tt, w1)
       ∧ removeConversation "19:ab?" w1 = (Ok tt, w2)
       ∧ listConversations w2 = (Ok [], w3)).
Proof.
  split; [discriminate|].
  split; [reflexivity|]. split; [reflexivity|]. split; [reflexivity|].
  split; do 3 eexists; (split; [vm_compute; reflexivity|]);
    (split; [vm_compute; reflexivity|]); vm_compute; reflexivity.
Qed.

(** ** Runs of the handlers on sample worlds *)

Example createOrder_scans_suffixes :
  (createOrder (mkOrderData "Cato" (Js.Num 3) Submitted "2026-03-01") None
     (world_of (<["ORD-0041" := acme]>
                  (<["ORD-7" := bolt]>
                     (<["ORD-9x" := bolt]> (<["misc" := bolt]> ∅)))) ∅)).1
  = Ok (mkOrder "ORD-042" "Cato" (Js.Num 3) Submitted "2026-03-01").
Proof. vm_compute. reflexivity. Qed.

Example post_orders_created :
  let '(r, w') := post_orders (fun _ => Js.NaN) "Cato" (RawNumber (Js.Num 3))
                              live_world in
  r = Ok (mkHttpResponse 201
            (JsonOrder (mkOrder "ORD-002" "Cato" (Js.Num 3) Submitted
                                "2026-02-24")))
  ∧ written <$> sseClients w'
    = [[SseNewOrder (mkOrder "ORD-002" "Cato" (Js.Num 3) Submitted
                             "2026-02-24")]; []]
  ∧ calls w' = [CallList SUB_TABLE; CallCreate TABLE_NAME "ORD-002";
                CallList TABLE_NAME].
Proof. vm_compute. done. Qed.

Example post_orders_insert_outage :
  post_orders (fun _ => Js.NaN) "Cato" (RawNumber (Js.Num 3)) insert_outage
  = (Ok (mkHttpResponse 500 (JsonError StoreUnavailable)),
     push_call (CallCreate TABLE_NAME "ORD-002")
       (push_call (CallList TABLE_NAME) (set_faults [] insert_outage))).
Proof. vm_compute. reflexivity. Qed.

Example seedIfEmpty_first_row :
  let '(r, w') :=
    seedIfEmpty
      (mkWorld ∅ ∅ []
               [0; 4503599627370496; 9007199254740991; 4503599627370496]%N
               "2026-02-24" [] [] [] []) in
  r = Ok tt
  ∧ orders w' !! "ORD-001"
    = Some (mkOrderEntity "ORD-001" "Contoso Ltd."
              (Js.Num 5050) Cancelled "2025-08-25").
Proof. vm_compute. done. Qed.
(** * Further properties *)

(** ** createOrder on any store *)

Lemma suffixes_exact_maxNum rows :
  (maxNum_of (map_to_list rows) < 2 ^ 53)%N → suffixes_exact rows.
Proof.
  intros Hm k n Hk Hn.
  destruct (maxNum_of_spec rows) as [Hub _].
  specialize (Hub k n Hk Hn). lia.
Qed.

(** X1: on a store that answers and whose row keys have numeric
    suffixes below 2^53, whatever else its row keys are, [createOrder]
    of a finite amount completes; the id it assigns is one more than
    the maximum numeric suffix of the keys matching ORD-<digits>, it
    was the key of no row, and the store afterwards is the store before
    with the one new row under that id: no order is overwritten. *)
Theorem createOrder_fresh_key w data notify :
  calm w → harmless notify →
  suffixes_exact (orders w) → Js.isFinite (d_amount data) = true →
  ∃ m w',
    max_suffix_is (orders w) m
    ∧ createOrder data notify w = (Ok (orderOf (m + 1) data), w')
    ∧ orders w !! orderId (m + 1) = None
    ∧ orders w' = <[orderId (m + 1) := newEntity (orderId (m + 1)) data]>
                    (orders w)
    ∧ size (orders w') = S (size (orders w))
    ∧ (rows_wf (orders w) → rows_wf (orders w')).
Proof.
  intros Hcalm Hq _ _.
  destruct (createOrder_calm w data notify Hcalm Hq) as (w' & Hrun & Ho & _).
  pose proof (maxNum_of_spec (orders w)) as Hmax.
  pose proof (next_id_free _ _ Hmax) as Hfree.
  exists (maxNum_of (map_to_list (orders w))), w'.
  do 4 (split; [done|]). split.
  - rewrite Ho. by apply map_size_insert_None.
  - intros Hwf k e. rewrite Ho. intros [[<- <-]|[_ Hk]]%lookup_insert_Some.
    + done.
    + by apply Hwf.
Qed.

Lemma createOrder_fresh_key_witness :
  ∃ m w', max_suffix_is (orders mixed_keys) m
          ∧ createOrder cato None mixed_keys = (Ok (orderOf (m + 1) cato), w').
Proof.
  destruct (createOrder_fresh_key mixed_keys cato None)
    as (m & w' & Hmax & Hrun & _).
  - reflexivity.
  - intros f Hf. discriminate Hf.
  - apply suffixes_exact_maxNum. vm_compute. reflexivity.
  - reflexivity.
  - exists m, w'. split; [exact Hmax | exact Hrun].
Defined.

Lemma createOrder_rows_inv w data notify r w' :
  harmless notify →
  createOrder data notify w = (r, w') →
  (∀ k e, orders w !! k = Some e → orders w' !! k = Some e)
  ∧ match r with
    | Ok o =>
        orders w !! id o = None
        ∧ orders w' = <[id o := newEntity (id o) data]> (orders w)
        ∧ (∃ m, max_suffix_is (orders w) m ∧ o = orderOf (m + 1) data)
    | Throw _ => orders w' = orders w
    end.
Proof.
  intros Hq. unfold createOrder. unfold bind at 1.
  destruct (Orders.listEntities w) as [[rows|err] w1] eqn:Hl;
    pose proof (listEntities_inv _ _ _ Hl) as (Ho1 & _ & _ & Hrows).
  2:{ intros [= <- <-]. by rewrite Ho1. }
  specialize (Hrows _ eq_refl). subst rows.
  set (m := maxNum_of (map_to_list (orders w))).
  unfold bind at 1.
  destruct (Orders.createEntity _ _ w1) as [[[]|err] w2] eqn:Hc;
    pose proof (createEntity_inv _ _ _ _ _ Hc) as (_ & _ & _ & _ & Ho2).
  2:{ intros [= <- <-]. by rewrite Ho2, Ho1. }
  destruct Ho2 as [Ho2 Hfree]. rewrite Ho1 in Ho2, Hfree.
  assert (∃ w3, (match notify with
                 | Some f => f (orderOf (m + 1) data)
                 | None => ret tt
                 end) w2 = (Ok tt, w3) ∧ orders w3 = orders w2)
    as (w3 & Hn & Ho3).
  { destruct notify as [f|]; [|by eexists].
    destruct (Hq f eq_refl (orderOf (m + 1) data) w2) as (w3 & ? & ? & _).
    by exists w3. }
  unfold bind. unfold orderOf in Hn. rewrite Hn. unfold ret.
  intros [= <- <-]. simpl. rewrite Ho3, Ho2. split.
  - intros k e Hk. rewrite lookup_insert_ne; [done|]. intros <-. congruence.
  - do 2 (split; [done|]). exists m. split; [apply maxNum_of_spec|done].
Qed.

(** X2: whatever the store does, [createOrder] never changes or removes
    an existing row, and when it fails the table is as before.  When it
    completes on a store whose row keys have numeric suffixes below
    2^53, the id of the order returned was free, its number is one
    above every numeric suffix in the store, exactly one row was added,
    under that id, and for a finite amount that row holds the data of
    the call. *)
Theorem createOrder_keeps_rows w data notify r w' :
  harmless notify →
  createOrder data notify w = (r, w') →
  (∀ k e, orders w !! k = Some e → orders w' !! k = Some e)
  ∧ (∀ err, r = Throw err → orders w' = orders w)
  ∧ (suffixes_exact (orders w) →
     ∀ o, r = Ok o →
       orders w !! id o = None
       ∧ dom (orders w') = {[id o]} ∪ dom (orders w)
       ∧ (∃ m, max_suffix_is (orders w) m ∧ o = orderOf (m + 1) data)
       ∧ (Js.isFinite (d_amount data) = true →
          orders w' = <[id o := newEntity (id o) data]> (orders w))).
Proof.
  intros Hq Hrun.
  destruct (createOrder_rows_inv w data notify r w' Hq Hrun) as [Hkeep Hr].
  split; [exact Hkeep|]. split.
  - intros err ->. exact Hr.
  - intros _ o ->. destruct Hr as (Hfree & Ho & Hm).
    split; [exact Hfree|]. split; [by rewrite Ho, dom_insert_L|].
    split; [exact Hm|]. intros _. exact Ho.
Qed.

Lemma createOrder_keeps_rows_witness :
  orders (createOrder cato (Some broadcastNewOrder) insert_outage).2
  !! "ORD-001" = Some acme.
Proof.
  refine (proj1 (createOrder_keeps_rows insert_outage cato
                   (Some broadcastNewOrder) _ _ _ _) "ORD-001" acme _).
  - intros f [= <-]. apply broadcastNewOrder_quiet.
  - apply surjective_pairing.
  - reflexivity.
Defined.

(** ** updateOrder: missing ids, merging and reading back *)

(** X3: [updateOrder] on an id that is the key of no row fails, with
    [ResourceNotFound] when the store answers; it writes nothing (the
    only call made is the read) and the table is as before: it never
    creates an order.  The PUT handler answers 500 with that error. *)
Theorem updateOrder_missing w k patch r w' :
  orders w !! k = None →
  updateOrder k patch w = (r, w') →
  ∃ err, r = Throw err
         ∧ (calm w → err = ResourceNotFound)
         ∧ orders w' = orders w
         ∧ calls w' = CallGet TABLE_NAME k :: calls w
         ∧ put_order k patch w
           = (Ok (mkApiResponse 500 (JsonFailure err)), w').
Proof.
  intros Hk Hrun. unfold put_order, catch, bind at 1. rewrite Hrun.
  revert Hrun.
  unfold updateOrder, Orders.getEntity, Orders.updateEntity, calm. run.
  destruct w as [os ss fs rn td cl ob lg cs]; simpl in *.
  destruct fs as [|[] fs]; simpl; rewrite ?Hk; simpl;
    intros [= <- <-]; eexists; (split; [done|]); simpl; by repeat split.
Qed.

Lemma updateOrder_missing_witness :
  ∃ err, (updateOrder "ORD-404" (status_patch Shipped) two_orders).1
         = Throw err
         ∧ err = ResourceNotFound.
Proof.
  destruct (updateOrder_missing two_orders "ORD-404" (status_patch Shipped)
              _ _ eq_refl (surjective_pairing _))
    as (err & Hr & Hcalm & _).
  exists err. split; [exact Hr|]. apply Hcalm. reflexivity.
Defined.

Lemma updateOrder_calm_run w k e patch :
  orders w !! k = Some e → calm w →
  ∃ w1, updateOrder k patch w = (Ok (toOrder (k, merged k patch e)), w1)
        ∧ calm w1
        ∧ orders w1 = <[k := merged k patch e]> (orders w).
Proof.
  intros Hrow.
  unfold calm, updateOrder, Orders.getEntity, Orders.updateEntity. run.
  destruct w as [os ss fs rn td cl ob lg cs]; simpl in *.
  intros ->. simpl. rewrite Hrow. simpl. rewrite Hrow. simpl.
  eexists. split; [done|]. split; done.
Qed.

Lemma merged_idem k patch e :
  merged k patch (merged k patch e) = merged k patch e.
Proof. unfold merged. destruct patch as [[] [] [] []]; done. Qed.

(** X4: on a store that answers, [updateOrder] of an order in the
    store returns the stored fields overridden by the fields the patch
    holds and, when the amount that results is finite, what it returns
    is what the store then holds: the row read back is that order,
    [listOrders] lists it, and applying the same patch again returns
    the same order and leaves the table as it is. *)
Theorem updateOrder_read_back w k e patch :
  orders w !! k = Some e → calm w →
  Js.isFinite (nullish (p_amount patch) (e_amount e)) = true →
  let o := mkOrder k (nullish (p_customer patch) (e_customer e))
                     (nullish (p_amount patch) (e_amount e))
                     (nullish (p_status patch) (e_status e))
                     (nullish (p_date patch) (e_date e)) in
  ∃ w1, updateOrder k patch w = (Ok o, w1)
        ∧ (∃ e1 w2, Orders.getEntity k w1 = (Ok e1, w2)
                    ∧ toOrder (k, e1) = o)
        ∧ (∀ localeCompare l w2,
             listOrders localeCompare w1 = (Ok l, w2) → o ∈ l)
        ∧ (∃ w2, updateOrder k patch w1 = (Ok o, w2)
                 ∧ orders w2 = orders w1).
Proof.
  intros Hrow Hcalm _ o.
  destruct (updateOrder_calm_run w k e patch Hrow Hcalm)
    as (w1 & Hrun & Hc1 & Ho1).
  assert (orders w1 !! k = Some (merged k patch e)) as Hrow1
    by (by rewrite Ho1, lookup_insert_eq).
  exists w1. split; [exact Hrun|]. split; [|split].
  - unfold Orders.getEntity, bind.
    destruct (external_calm (CallGet TABLE_NAME k) w1 Hc1) as [-> _].
    run. rewrite Hrow1. by eexists _, _.
  - intros lc l w2. unfold listOrders, bind.
    destruct (Orders.listEntities w1) as [[rows|err] w3] eqn:Hl; [|done].
    apply listEntities_inv in Hl as (_ & _ & _ & Hrows).
    rewrite (Hrows _ eq_refl). intros [= <- <-].
    rewrite Array_sort_Permutation.
    apply list_elem_of_fmap. exists (k, merged k patch e). split; [done|].
    by apply elem_of_map_to_list.
  - destruct (updateOrder_calm_run w1 k _ patch Hrow1 Hc1)
      as (w2 & Hrun2 & _ & Ho2).
    rewrite merged_idem in Hrun2, Ho2.
    exists w2. split; [exact Hrun2|]. rewrite Ho2. by apply insert_id.
Qed.

Lemma updateOrder_read_back_witness :
  ∃ w1, updateOrder "ORD-002"
          (mkOrderPatch (Some "Bolt AG") None (Some Delivered) None)
          two_orders
        = (Ok (mkOrder "ORD-002" "Bolt AG" (Js.Num 7) Delivered
                       "2026-01-05"), w1).
Proof.
  destruct (updateOrder_read_back two_orders "ORD-002" bolt
              (mkOrderPatch (Some "Bolt AG") None (Some Delivered) None))
    as (w1 & Hrun & _); [reflexivity | reflexivity | reflexivity |].
  exists w1. exact Hrun.
Defined.

(** ** renameCustomer row by row *)

Section RenameRows.

Context (newName : string).

Let val (order : Order) : OrderEntity :=
  mkOrderEntity (id order) newName (amount order) (status order)
                (date order).

Let write (order : Order) : M unit := Orders.updateEntity (id order) (val order).

(** Whatever the outcome of the loop, a row is as it was or was written
    for one of the collected orders. *)
Lemma rename_writes_touch l : ∀ w r w',
  forEach write l w = (r, w') →
  ∀ k, orders w' !! k = orders w !! k
       ∨ ∃ o, o ∈ l ∧ id o = k ∧ orders w' !! k = Some (val o).
Proof.
  induction l as [|o l IH]; intros w r w'; simpl.
  - intros [= <- <-] k. by left.
  - unfold bind at 1. destruct (write o w) as [[[]|err] w1] eqn:Hw;
      apply updateEntity_inv in Hw.
    + destruct Hw as [Ho1 _]. intros Hrun k.
      destruct (IH _ _ _ Hrun k) as [Hsame|(o' & Hin & Hid & Hk)].
      * rewrite Hsame, Ho1. destruct (decide (id o = k)) as [<-|Hne].
        -- right. exists o. split; [by left|]. by rewrite lookup_insert_eq.
        -- left. by rewrite lookup_insert_ne.
      * right. exists o'. split; [by right|done].
    + intros [= <- <-] k. left. by rewrite Hw.
Qed.

(** When the loop completes, the row of every collected order was
    written. *)
Lemma rename_writes_all l : ∀ w w',
  forEach write l w = (Ok tt, w') →
  ∀ o, o ∈ l → ∃ o', o' ∈ l ∧ id o' = id o
                     ∧ orders w' !! id o = Some (val o').
Proof.
  induction l as [|o l IH]; intros w w'; simpl.
  - by intros _ o ?%elem_of_nil.
  - unfold bind at 1. destruct (write o w) as [[[]|err] w1] eqn:Hw; [|done].
    apply updateEntity_inv in Hw as [Ho1 _]. intros Hrun o1 Hin.
    apply elem_of_cons in Hin as [->|Hin].
    + destruct (rename_writes_touch _ _ _ _ Hrun (id o))
        as [Hsame|(o' & Hin' & Hid & Hk)].
      * exists o. split; [by left|]. split; [done|].
        by rewrite Hsame, Ho1, lookup_insert_eq.
      * exists o'. split; [by right|done].
    + destruct (IH _ _ Hrun o1 Hin) as (o' & Hin' & Hid & Hk).
      exists o'. split; [by right|done].
Qed.

End RenameRows.

Lemma renameCustomer_collected oldName (rows : gmap string OrderEntity) o :
  o ∈ toOrder <$> filter (λ row, e_customer row.2 = oldName)
                         (map_to_list rows) ↔
  ∃ e, rows !! id o = Some e ∧ e_customer e = oldName
       ∧ o = toOrder (id o, e).
Proof.
  rewrite list_elem_of_fmap. split.
  - intros ([k e] & -> & Hin). apply list_elem_of_filter in Hin as [Hc Hin].
    apply elem_of_map_to_list in Hin. by exists e.
  - intros (e & He & Hc & Ho). exists (id o, e). split; [done|].
    apply list_elem_of_filter. split; [done|]. by apply elem_of_map_to_list.
Qed.

Lemma renameCustomer_rows_inv w oldName newName r w' :
  renameCustomer oldName newName w = (r, w') →
  ∀ k, orders w' !! k = orders w !! k
       ∨ ∃ e, orders w !! k = Some e ∧ e_customer e = oldName
              ∧ orders w' !! k = Some (renamed newName k e).
Proof.
  unfold renameCustomer. unfold bind at 1.
  destruct (Orders.listEntities w) as [[rows|err] w1] eqn:Hl;
    apply listEntities_inv in Hl as (Ho1 & _ & _ & Hrows).
  2:{ intros [= <- <-] k. left. by rewrite Ho1. }
  specialize (Hrows _ eq_refl). subst rows. unfold bind.
  destruct (forEach _ _ w1) as [r1 w2] eqn:Hf. intros Hrun k.
  assert (orders w' = orders w2) as ->
    by (destruct r1 as [[]|?]; unfold ret in Hrun; by simplify_eq).
  destruct (rename_writes_touch newName _ _ _ _ Hf k)
    as [Hsame|(o & Hin & <- & Hk)].
  - left. by rewrite Hsame, Ho1.
  - right. apply renameCustomer_collected in Hin as (e & He & Hc & Heq).
    exists e. do 2 (split; [done|]). rewrite Hk. rewrite Heq. done.
Qed.

(** X5: whatever the store does, also when a write fails part way,
    [renameCustomer] leaves every row either as it was or renamed: a
    row it changed had the old customer and keeps its key, amount,
    status and date; no row is added or removed, and the orders of
    other customers are untouched. *)
Theorem renameCustomer_rows w oldName newName r w' :
  renameCustomer oldName newName w = (r, w') →
  ∀ k, orders w' !! k = orders w !! k
       ∨ ∃ e, orders w !! k = Some e ∧ e_customer e = oldName
              ∧ orders w' !! k = Some (renamed newName k e).
Proof. apply renameCustomer_rows_inv. Qed.

Lemma renameCustomer_rows_witness :
  orders (renameCustomer "Acme" "Apex" insert_outage).2 !! "ORD-001"
  = orders insert_outage !! "ORD-001"
  ∨ ∃ e, orders insert_outage !! "ORD-001" = Some e
         ∧ e_customer e = "Acme"
         ∧ orders (renameCustomer "Acme" "Apex" insert_outage).2 !! "ORD-001"
           = Some (renamed "Apex" "ORD-001" e).
Proof.
  apply (renameCustomer_rows insert_outage "Acme" "Apex"
           (renameCustomer "Acme" "Apex" insert_outage).1).
  apply surjective_pairing.
Defined.

Lemma renameCustomer_ok_rows w oldName newName n w' :
  renameCustomer oldName newName w = (Ok n, w') →
  ∀ k, orders w' !! k
       = (λ e, if decide (e_customer e = oldName)
               then renamed newName k e else e) <$> orders w !! k.
Proof.
  intros Hrun k.
  pose proof (renameCustomer_rows_inv _ _ _ _ _ Hrun k) as Hk.
  revert Hrun. unfold renameCustomer. unfold bind at 1.
  destruct (Orders.listEntities w) as [[rows|err] w1] eqn:Hl; [|done].
  apply listEntities_inv in Hl as (Ho1 & _ & _ & Hrows).
  specialize (Hrows _ eq_refl). subst rows. unfold bind.
  destruct (forEach _ _ w1) as [[[]|err] w2] eqn:Hf; [|done].
  intros [= _ <-].
  destruct (orders w !! k) as [e|] eqn:He; simpl.
  - destruct (decide (e_customer e = oldName)) as [Hc|Hc].
    + destruct (rename_writes_all newName _ _ _ Hf (toOrder (k, e)))
        as (o' & Hin' & Hid & Hk').
      { apply renameCustomer_collected. by exists e. }
      apply renameCustomer_collected in Hin' as (e' & He' & _ & Heq).
      simpl in Hid, Hk'. rewrite Hid, He in He'. injection He' as <-.
      rewrite Hk'. f_equal. rewrite Heq. simpl. by rewrite Hid.
    + destruct Hk as [->|(e' & ? & ? & _)]; [done|congruence].
  - destruct Hk as [->|(e' & ? & _)]; done.
Qed.

(** X6: when [renameCustomer] completes, every row is the renamed
    version of what it was if it had the old customer, and is as it was
    otherwise; so the store holds the same keys, and an order listed
    before under the old customer is listed after under the new one
    with the same id, amount, status and date. *)
Theorem renameCustomer_renames_all w oldName newName n w' :
  renameCustomer oldName newName w = (Ok n, w') →
  (∀ k, orders w' !! k
        = (λ e, if decide (e_customer e = oldName)
                then renamed newName k e else e) <$> orders w !! k)
  ∧ dom (orders w') = dom (orders w)
  ∧ (rows_wf (orders w) → rows_wf (orders w')).
Proof.
  intros Hrun.
  pose proof (renameCustomer_ok_rows _ _ _ _ _ Hrun) as Hrows.
  split; [exact Hrows|]. split.
  - apply set_eq. intros k. rewrite !elem_of_dom, Hrows.
    by rewrite fmap_is_Some.
  - intros Hwf k e. rewrite Hrows.
    destruct (orders w !! k) as [e0|] eqn:He0; [|done]. simpl.
    intros [= <-]. destruct (decide _); [done|]. by apply Hwf.
Qed.

Lemma renameCustomer_renames_all_witness :
  ∃ w', renameCustomer "Acme" "Apex" two_orders = (Ok 1, w')
        ∧ orders w' !! "ORD-001"
          = Some (mkOrderEntity "ORD-001" "Apex" (Js.Num (85 # 2)) Submitted
                                "2026-02-24")
        ∧ orders w' !! "ORD-002" = Some bolt.
Proof.
  assert (∃ w', renameCustomer "Acme" "Apex" two_orders = (Ok 1, w'))
    as [w' Hrun] by (eexists; vm_compute; reflexivity).
  exists w'. split; [exact Hrun|].
  destruct (renameCustomer_renames_all _ _ _ _ _ Hrun) as [Hrows _].
  split; rewrite Hrows; reflexivity.
Defined.

(** ** listOrders: completeness and the order of the ids *)

Lemma listOrders_inv localeCompare w l w' :
  listOrders localeCompare w = (Ok l, w') →
  l ≡ₚ toOrder <$> map_to_list (orders w)
  ∧ NoDup (id <$> l)
  ∧ length l = size (orders w)
  ∧ (∀ o, o ∈ l ↔ ∃ e, orders w !! id o = Some e ∧ o = toOrder (id o, e))
  ∧ orders w' = orders w.
Proof.
  unfold listOrders, bind.
  destruct (Orders.listEntities w) as [[rows|err] w1] eqn:Hl; [|done].
  apply listEntities_inv in Hl as (Ho & _ & _ & Hrows).
  rewrite (Hrows _ eq_refl). intros [= <- <-].
  pose proof (Array_sort_Permutation
                (λ a b, localeCompare (id b) (id a))
                (toOrder <$> map_to_list (orders w))) as Hperm.
  split; [exact Hperm|]. split; [|split; [|split; [|exact Ho]]].
  - rewrite Hperm, <- list_fmap_compose.
    apply (NoDup_fst_map_to_list (orders w)).
  - by rewrite Hperm, length_fmap, length_map_to_list.
  - intros o. rewrite Hperm, list_elem_of_fmap. split.
    + intros ([k e] & -> & Hin). apply elem_of_map_to_list in Hin.
      by exists e.
    + intros (e & He & Heq). exists (id o, e). split; [done|].
      by apply elem_of_map_to_list.
Qed.

(** X7: a list [listOrders] returns holds every order of the store
    exactly once, each with the fields of its row and the row key as
    id, and no other; listing changes no row, whatever the collation. *)
Theorem listOrders_complete localeCompare w l w' :
  listOrders localeCompare w = (Ok l, w') →
  l ≡ₚ toOrder <$> map_to_list (orders w)
  ∧ NoDup (id <$> l)
  ∧ length l = size (orders w)
  ∧ (∀ o, o ∈ l ↔ ∃ e, orders w !! id o = Some e ∧ o = toOrder (id o, e))
  ∧ orders w' = orders w.
Proof. apply listOrders_inv. Qed.

Lemma listOrders_complete_witness :
  ∃ l w', listOrders Js.code_unit_compare two_orders = (Ok l, w')
          ∧ length l = 2 ∧ NoDup (id <$> l).
Proof.
  assert (∃ l w', listOrders Js.code_unit_compare two_orders = (Ok l, w'))
    as (l & w' & Hrun) by (do 2 eexists; vm_compute; reflexivity).
  destruct (listOrders_complete _ _ _ _ Hrun) as (_ & Hnd & Hlen & _).
  exists l, w'. split; [exact Hrun|]. split; [|exact Hnd].
  rewrite Hlen. reflexivity.
Defined.

Lemma lex_le_refl a : Js.lex_le a a = true.
Proof.
  induction a as [|x a IH]; simpl; [done|].
  by rewrite N.ltb_irrefl, N.eqb_refl, IH.
Qed.

Lemma lex_le_trans a b c :
  Js.lex_le a b = true → Js.lex_le b c = true → Js.lex_le a c = true.
Proof.
  revert b c. induction a as [|x a IH]; intros [|y b] [|z c]; simpl;
    try done.
  intros [Hxy|[Hxy Hab]%andb_prop]%orb_prop
         [Hyz|[Hyz Hbc]%andb_prop]%orb_prop;
    rewrite ?N.ltb_lt, ?N.eqb_eq in *.
  - assert ((N_of_ascii x <? N_of_ascii z)%N = true) as ->
      by (apply N.ltb_lt; lia). done.
  - assert ((N_of_ascii x <? N_of_ascii z)%N = true) as ->
      by (apply N.ltb_lt; lia). done.
  - assert ((N_of_ascii x <? N_of_ascii z)%N = true) as ->
      by (apply N.ltb_lt; lia). done.
  - rewrite Hxy, Hyz, N.eqb_refl, (IH _ _ Hab Hbc). by rewrite orb_true_r.
Qed.

Lemma lex_le_antisym a b :
  Js.lex_le a b = true → Js.lex_le b a = true → a = b.
Proof.
  rewrite !lex_le_compare. intros Hab Hba.
  apply String.leb_antisym; unfold String.leb.
  - by destruct (String.compare a b).
  - by destruct (String.compare b a).
Qed.

#[global] Instance id_desc_trans : Transitive id_desc.
Proof. intros a b c Hab Hbc. exact (lex_le_trans _ _ _ Hbc Hab). Qed.

#[global] Instance id_desc_antisym : AntiSymm (=) id_desc.
Proof. intros a b Hab Hba. exact (lex_le_antisym _ _ Hba Hab). Qed.

Lemma ids_ascend_998 : ids_ascend_upto 998 = true.
Proof. vm_compute. reflexivity. Qed.

Lemma orderId_step i :
  (1 ≤ i ≤ 998)%N → Js.lex_le (orderId i) (orderId (i + 1)) = true.
Proof.
  intros Hi. pose proof ids_ascend_998 as Hall.
  unfold ids_ascend_upto in Hall. rewrite forallb_forall in Hall.
  apply Hall, list_elem_of_In, elem_of_upto. lia.
Qed.

Lemma orderId_mono i j :
  (1 ≤ i)%N → (i ≤ j)%N → (j ≤ 999)%N →
  Js.lex_le (orderId i) (orderId j) = true.
Proof.
  intros Hi Hij Hj.
  replace j with (i + N.of_nat (N.to_nat (j - i)))%N by lia.
  assert (i + N.of_nat (N.to_nat (j - i)) ≤ 999)%N as Hb by lia.
  revert Hb. generalize (N.to_nat (j - i)) as d. clear Hij Hj j.
  induction d as [|d IH]; intros Hb.
  - replace (i + N.of_nat 0)%N with i by lia. apply lex_le_refl.
  - eapply lex_le_trans; [apply IH; lia|].
    replace (i + N.of_nat (S d))%N with (i + N.of_nat d + 1)%N by lia.
    apply orderId_step. lia.
Qed.

(** X8: the ids of the numbers 1 to 999 are ordered lexicographically
    as their numbers are, so that sorting by id sorts by number; with
    the fourth digit this stops: ORD-1000 sorts below the ids of 101
    to 999. *)
Theorem orderId_order i j :
  (1 ≤ i ≤ 999)%N → (1 ≤ j ≤ 999)%N →
  (Js.lex_le (orderId i) (orderId j) = true ↔ (i ≤ j)%N)
  ∧ ((101 ≤ i)%N →
     Js.lex_le (orderId 1000) (orderId i) = true
     ∧ Js.lex_le (orderId i) (orderId 1000) = false).
Proof.
  intros Hi Hj. split.
  - split.
    + intros Hle. destruct (decide (i ≤ j)%N) as [|Hgt]; [done|].
      assert (orderId i = orderId j) as Heq%(inj orderId).
      { apply lex_le_antisym; [done|]. apply orderId_mono; lia. }
      lia.
    + intros Hij. apply orderId_mono; lia.
  - intros Hi'.
    assert (Js.lex_le (orderId 1000) (orderId 101) = true) as H101
      by reflexivity.
    assert (Js.lex_le (orderId 1000) (orderId i) = true) as Hle.
    { eapply lex_le_trans; [exact H101|]. apply orderId_mono; lia. }
    split; [exact Hle|]. apply not_true_is_false. intros Hge.
    assert (orderId i = orderId 1000) as Heq%(inj orderId)
      by (by apply lex_le_antisym).
    lia.
Qed.

Lemma orderId_order_witness :
  Js.lex_le (orderId 99) (orderId 100) = true
  ∧ Js.lex_le (orderId 1000) (orderId 999) = true.
Proof.
  destruct (orderId_order 99 100) as (Hle & _); [lia | lia |].
  destruct (orderId_order 999 999) as (_ & Hbig); [lia | lia |].
  split; [apply Hle; lia | apply Hbig; lia].
Defined.

Lemma ids_upto_desc_Sorted n :
  (n ≤ 999)%nat → Sorted id_desc (reverse (ids_upto n)).
Proof.
  induction n as [|n IH]; intros Hn; [constructor|].
  unfold ids_upto. rewrite upto_S, fmap_app, reverse_app. simpl.
  constructor; [apply IH; lia|].
  destruct n as [|n]; [constructor|].
  unfold ids_upto. rewrite upto_S, fmap_app, reverse_app. simpl.
  constructor. unfold id_desc.
  replace (N.of_nat (S (S n))) with (N.of_nat (S n) + 1)%N by lia.
  apply orderId_step. lia.
Qed.

Lemma listOrders_ids_desc w n l w' :
  dom (orders w) = list_to_set (ids_upto n) → (n ≤ 999)%nat →
  listOrders Js.code_unit_compare w = (Ok l, w') →
  id <$> l = reverse (ids_upto n).
Proof.
  intros Hdom Hn Hrun.
  destruct (listOrders_inv _ _ _ _ Hrun) as (Hperm & Hnd & _).
  apply (Sorted_unique id_desc).
  - revert Hrun. unfold listOrders, bind.
    destruct (Orders.listEntities w) as [[rows|err] w1]; [|done].
    intros [= <- _].
    apply (Sorted_fmap id (Js.in_order
             (λ a b, Js.code_unit_compare (id b) (id a)))).
    + intros a b Hab. unfold id_desc. by apply lex_le_compare.
    + apply Array_sort_Sorted. intros a b. apply code_unit_consistent.
  - by apply ids_upto_desc_Sorted.
  - rewrite reverse_Permutation. apply NoDup_Permutation; [done|..].
    + apply NoDup_ids_upto.
    + intros k. rewrite Hperm, <- list_fmap_compose.
      change (id ∘ toOrder) with (@fst string OrderEntity).
      rewrite <- (elem_of_list_to_set (C := gset string) k (ids_upto n)).
      rewrite <- Hdom, elem_of_dom. split.
      * intros ([k' e] & -> & Hin)%list_elem_of_fmap.
        apply elem_of_map_to_list in Hin. by exists e.
      * intros [e He]. apply list_elem_of_fmap. exists (k, e).
        split; [done|]. by apply elem_of_map_to_list.
Qed.

(** X9: while the row keys of the store are the ids ORD-001 to
    ORD-<n> with [n] at most 999, the list [listOrders] returns (under
    the code-unit collation) carries them from ORD-<n> down to ORD-001:
    the newest order comes first. *)
Theorem listOrders_newest_first w n l w' :
  dom (orders w) = list_to_set (ids_upto n) → (n ≤ 999)%nat →
  listOrders Js.code_unit_compare w = (Ok l, w') →
  id <$> l = reverse (ids_upto n).
Proof. apply listOrders_ids_desc. Qed.

Lemma listOrders_newest_first_witness :
  ∃ l w', listOrders Js.code_unit_compare two_orders = (Ok l, w')
          ∧ id <$> l = ["ORD-002"; "ORD-001"].
Proof.
  assert (∃ l w', listOrders Js.code_unit_compare two_orders = (Ok l, w'))
    as (l & w' & Hrun) by (do 2 eexists; vm_compute; reflexivity).
  exists l, w'. split; [exact Hrun|].
  rewrite (listOrders_newest_first two_orders 2 l w'); [reflexivity| |lia|exact Hrun].
  unfold two_orders, world_of. simpl. rewrite !dom_insert_L, dom_empty_L.
  reflexivity.
Defined.

(** ** generateOrders and seedIfEmpty *)

(** *** Rounding to a double is monotone *)

Lemma two_pow_pos (z : Z) : (0 < 2 ^ z)%Q.
Proof. by apply Qpower_0_lt. Qed.

Lemma two_pow_succ (z : Z) : (2 ^ (z + 1) == 2 * 2 ^ z)%Q.
Proof. rewrite Qpower_plus by done. change (2 ^ 1)%Q with 2%Q. ring. Qed.

Lemma two_pow_Z (a : Z) : (0 ≤ a)%Z → (inject_Z (2 ^ a) == 2 ^ a)%Q.
Proof. intros Ha. by rewrite Zpower_Qpower. Qed.

Lemma ilog2_spec q :
  (0 < q)%Q →
  (2 ^ Js.ilog2 q <= q)%Q ∧ (q < 2 ^ (Js.ilog2 q + 1))%Q.
Proof.
  intros Hq. destruct q as [n d]. unfold Js.ilog2. cbn [Qnum Qden].
  assert (0 < n)%Z as Hn by (unfold Qlt in Hq; simpl in Hq; lia).
  set (a := Z.log2 n). set (b := Z.log2 (Z.pos d)).
  pose proof (Z.log2_spec n Hn) as [Ha1 Ha2]. fold a in Ha1, Ha2.
  pose proof (Z.log2_spec (Z.pos d) eq_refl) as [Hb1 Hb2]. fold b in Hb1, Hb2.
  pose proof (Z.log2_nonneg n) as Ha0. fold a in Ha0.
  pose proof (Z.log2_nonneg (Z.pos d)) as Hb0. fold b in Hb0.
  set (q := (n # d)%Q) in *.
  assert (q * inject_Z (Z.pos d) == inject_Z n)%Q as Hqd.
  { unfold q. rewrite (Qmake_Qdiv n d). field. done. }
  rewrite Zle_Qle in Ha1, Hb1. rewrite Zlt_Qlt in Ha2, Hb2.
  rewrite two_pow_Z in Ha1, Hb1 by done.
  rewrite two_pow_Z in Ha2, Hb2 by lia.
  change (Z.succ a) with (a + 1)%Z in Ha2.
  change (Z.succ b) with (b + 1)%Z in Hb2.
  rewrite two_pow_succ in Ha2, Hb2.
  assert (2 ^ (a - b) * 2 ^ b == 2 ^ a)%Q as Hk
    by (rewrite <- Qpower_plus by done; by replace (a - b + b)%Z with a by lia).
  pose proof (two_pow_pos a) as HA. pose proof (two_pow_pos b) as HB.
  pose proof (two_pow_pos (a - b)) as HK.
  set (N := inject_Z n) in *. set (D := inject_Z (Z.pos d)) in *.
  set (A := (2 ^ a)%Q) in *. set (B := (2 ^ b)%Q) in *.
  destruct (Qle_bool (2 ^ (a - b)) q) eqn:Hle.
  - apply Qle_bool_imp_le in Hle. split; [done|].
    rewrite two_pow_succ. set (K := (2 ^ (a - b))%Q) in *.
    clearbody N D A B K q. nra.
  - assert (q < 2 ^ (a - b))%Q as Hlt.
    { apply Qnot_le_lt. intros H. apply Qle_bool_iff in H. congruence. }
    replace (a - b - 1 + 1)%Z with (a - b)%Z by lia. split; [|done].
    assert (2 * 2 ^ (a - b - 1) == 2 ^ (a - b))%Q as Hk1
      by (rewrite <- two_pow_succ; by replace (a - b - 1 + 1)%Z with (a - b)%Z by lia).
    set (K := (2 ^ (a - b))%Q) in *. set (K1 := (2 ^ (a - b - 1))%Q) in *.
    clearbody N D A B K K1 q. nra.
Qed.

Lemma round_even_floor x :
  (Qfloor x ≤ Js.round_even x ≤ Qfloor x + 1)%Z.
Proof.
  unfold Js.round_even. destruct (_ ?= _)%Q; [destruct (Z.even _)|..]; lia.
Qed.

Lemma round_even_Z (n : Z) : Js.round_even (inject_Z n) = n.
Proof.
  unfold Js.round_even. rewrite Qfloor_Z.
  assert ((inject_Z n - inject_Z n ?= 1 # 2)%Q = Lt) as ->; [|done].
  apply Qlt_alt. assert (inject_Z n - inject_Z n == 0)%Q as -> by ring.
  reflexivity.
Qed.

Lemma round_even_mono x y :
  (x <= y)%Q → (Js.round_even x ≤ Js.round_even y)%Z.
Proof.
  intros Hxy. pose proof (Qfloor_resp_le _ _ Hxy) as Hf.
  pose proof (round_even_floor x) as Hx. pose proof (round_even_floor y) as Hy.
  destruct (decide (Qfloor x = Qfloor y)) as [Heq|Hne]; [|lia].
  clear Hx Hy Hf. unfold Js.round_even. rewrite <- Heq.
  set (f := Qfloor x) in *.
  destruct (Qcompare_spec (x - inject_Z f) (1 # 2)) as [Hx|Hx|Hx];
    destruct (Qcompare_spec (y - inject_Z f) (1 # 2)) as [Hy|Hy|Hy];
    try (destruct (Z.even f)); try lia; exfalso; lra.
Qed.

Lemma round_even_ge (a : Z) x :
  (inject_Z a <= x)%Q → (a ≤ Js.round_even x)%Z.
Proof. intros H. rewrite <- (round_even_Z a). by apply round_even_mono. Qed.

Lemma round_even_le (b : Z) x :
  (x <= inject_Z b)%Q → (Js.round_even x ≤ b)%Z.
Proof. intros H. rewrite <- (round_even_Z b). by apply round_even_mono. Qed.

(** The scaled value lies between 2^52 and 2^53. *)
Lemma scaled_range q :
  (0 < q)%Q →
  (2 ^ 52 <= q * 2 ^ (52 - Js.ilog2 q))%Q
  ∧ (q * 2 ^ (52 - Js.ilog2 q) < 2 ^ 53)%Q.
Proof.
  intros Hq. destruct (ilog2_spec q Hq) as [Hlo Hhi].
  set (e := Js.ilog2 q) in *.
  pose proof (two_pow_pos (52 - e)) as HS.
  assert (2 ^ e * 2 ^ (52 - e) == 2 ^ 52)%Q as H52
    by (rewrite <- Qpower_plus by done; by replace (e + (52 - e))%Z with 52%Z by lia).
  assert (2 ^ (e + 1) * 2 ^ (52 - e) == 2 ^ 53)%Q as H53
    by (rewrite <- Qpower_plus by done; by replace (e + 1 + (52 - e))%Z with 53%Z by lia).
  set (P52 := (2 ^ 52)%Q) in *. set (P53 := (2 ^ 53)%Q) in *.
  set (E := (2 ^ e)%Q) in *. set (E1 := (2 ^ (e + 1))%Q) in *.
  set (S := (2 ^ (52 - e))%Q) in *.
  clearbody P52 P53 E E1 S. split; nra.
Qed.

Lemma binary64_pos_range q :
  (0 < q)%Q →
  (2 ^ Js.ilog2 q <= Js.binary64_pos q)%Q
  ∧ (Js.binary64_pos q <= 2 ^ (Js.ilog2 q + 1))%Q.
Proof.
  intros Hq. destruct (scaled_range q Hq) as [Hlo Hhi].
  unfold Js.binary64_pos. cbv zeta. rewrite Qred_correct.
  set (e := Js.ilog2 q) in *. set (s := (q * 2 ^ (52 - e))%Q) in *.
  assert (2 ^ 52 ≤ Js.round_even s)%Z as Hr1.
  { apply round_even_ge. rewrite two_pow_Z by done. exact Hlo. }
  assert (Js.round_even s ≤ 2 ^ 53)%Z as Hr2.
  { apply round_even_le. rewrite two_pow_Z by done. by apply Qlt_le_weak. }
  rewrite Zle_Qle in Hr1, Hr2. rewrite two_pow_Z in Hr1, Hr2 by done.
  set (R := inject_Z (Js.round_even s)) in *.
  pose proof (two_pow_pos (e - 52)) as HS.
  assert (2 ^ 52 * 2 ^ (e - 52) == 2 ^ e)%Q as H52
    by (rewrite <- Qpower_plus by done; by replace (52 + (e - 52))%Z with e by lia).
  assert (2 ^ 53 * 2 ^ (e - 52) == 2 ^ (e + 1))%Q as H53
    by (rewrite <- Qpower_plus by done; by replace (53 + (e - 52))%Z with (e + 1)%Z by lia).
  set (P52 := (2 ^ 52)%Q) in *. set (P53 := (2 ^ 53)%Q) in *.
  set (E := (2 ^ e)%Q) in *. set (E1 := (2 ^ (e + 1))%Q) in *.
  set (S := (2 ^ (e - 52))%Q) in *.
  clearbody P52 P53 E E1 S R. split; nra.
Qed.

Lemma ilog2_mono a b :
  (0 < a)%Q → (a <= b)%Q → (Js.ilog2 a ≤ Js.ilog2 b)%Z.
Proof.
  intros Ha Hab. assert (0 < b)%Q as Hb by lra.
  destruct (ilog2_spec a Ha) as [Ha1 _]. destruct (ilog2_spec b Hb) as [_ Hb2].
  assert (2 ^ Js.ilog2 a < 2 ^ (Js.ilog2 b + 1))%Q as Hlt by lra.
  apply Qpower_lt_compat_l_inv in Hlt; [lia|done].
Qed.

Lemma binary64_pos_mono a b :
  (0 < a)%Q → (a <= b)%Q → (Js.binary64_pos a <= Js.binary64_pos b)%Q.
Proof.
  intros Ha Hab. assert (0 < b)%Q as Hb by lra.
  pose proof (ilog2_mono a b Ha Hab) as He.
  destruct (decide (Js.ilog2 a = Js.ilog2 b)) as [Heq|Hne].
  - unfold Js.binary64_pos. cbv zeta. rewrite !Qred_correct, <- Heq.
    set (e := Js.ilog2 a).
    pose proof (two_pow_pos (52 - e)) as HS1.
    pose proof (two_pow_pos (e - 52)) as HS2.
    assert (Js.round_even (a * 2 ^ (52 - e)) ≤ Js.round_even (b * 2 ^ (52 - e)))%Z
      as Hr.
    { apply round_even_mono. set (S := (2 ^ (52 - e))%Q) in *. clearbody S. nra. }
    rewrite Zle_Qle in Hr.
    set (Ra := inject_Z _) in *. set (Rb := inject_Z _) in *.
    set (S := (2 ^ (e - 52))%Q) in *. clearbody Ra Rb S. nra.
  - destruct (binary64_pos_range a Ha) as [_ Ha2].
    destruct (binary64_pos_range b Hb) as [Hb1 _].
    assert (2 ^ (Js.ilog2 a + 1) <= 2 ^ Js.ilog2 b)%Q as Hp
      by (apply Qpower_le_compat_l; [lia|done]).
    lra.
Qed.

Lemma binary64_nonneg q : (0 <= q)%Q → (0 <= Js.binary64 q)%Q.
Proof.
  intros Hq. unfold Js.binary64.
  destruct (Qcompare_spec q 0) as [H|H|H]; [done|lra|].
  destruct (binary64_pos_range q H) as [Hlo _].
  pose proof (two_pow_pos (Js.ilog2 q)). lra.
Qed.

(** Rounding is monotone (stated for non-negative values). *)
Lemma binary64_mono a b :
  (0 <= a)%Q → (a <= b)%Q → (Js.binary64 a <= Js.binary64 b)%Q.
Proof.
  intros Ha Hab. unfold Js.binary64 at 1.
  destruct (Qcompare_spec a 0) as [H|H|H]; [|lra|].
  - apply binary64_nonneg. lra.
  - unfold Js.binary64. destruct (Qcompare_spec b 0) as [H'|H'|H']; [lra|lra|].
    by apply binary64_pos_mono.
Qed.

Example binary64_tenth :
  Js.binary64 (1 # 10) = (3602879701896397 # 36028797018963968)%Q.
Proof. vm_compute. reflexivity. Qed.

(** [0.1 + 0.2] is [0.30000000000000004]. *)
Example binary64_sum :
  Js.fadd (Js.binary64 (1 # 10)) (Js.binary64 (2 # 10))
  = (1351079888211149 # 4503599627370496)%Q.
Proof. vm_compute. reflexivity. Qed.

Lemma fmul_bounds a k c :
  (0 <= a)%Q → (a <= c)%Q → (0 <= k)%Q →
  (0 <= Js.fmul a k)%Q ∧ (Js.fmul a k <= Js.binary64 (c * k))%Q.
Proof.
  intros Ha Hc Hk. unfold Js.fmul.
  assert (0 <= a * k)%Q as H0 by nra.
  assert (a * k <= c * k)%Q as H1 by nra.
  split; [by apply binary64_nonneg | by apply binary64_mono].
Qed.

(** *** The rows generated *)

Lemma unit_double_range k :
  (0 <= Js.unit_double k)%Q
  ∧ (Js.unit_double k <= 9007199254740991 # 9007199254740992)%Q.
Proof.
  unfold Js.unit_double, Qle. simpl.
  pose proof (N.mod_upper_bound k (2 ^ 53)) as Hlt.
  assert ((k mod 2 ^ 53 < 2 ^ 53)%N) as Hlt' by (by apply Hlt).
  assert (Z.of_N (k mod 2 ^ 53) < Z.pos (2 ^ 53))%Z as Hz
    by (change (Z.pos (2 ^ 53)) with (Z.of_N (2 ^ 53)); by apply N2Z.inj_lt).
  pose proof (N2Z.is_nonneg (k mod 2 ^ 53)) as Hnn.
  change (Z.pos (2 ^ 53)) with 9007199254740992%Z in *.
  set (a := Z.of_N _) in *. clearbody a. lia.
Qed.

Lemma Math_random_range w :
  ∃ q r, Math_random w = (Ok q, set_random r w)
         ∧ (0 <= q)%Q ∧ (q <= 9007199254740991 # 9007199254740992)%Q.
Proof.
  unfold Math_random. destruct (random w) as [|k r] eqn:Hr.
  - exists (Js.unit_double 0), []. split; [by destruct w; simplify_eq/=|].
    apply unit_double_range.
  - exists (Js.unit_double k), r. split; [done|]. apply unit_double_range.
Qed.

Lemma floor_bounds (x : Q) (lo hi : Z) :
  (inject_Z lo <= x)%Q → (x < inject_Z hi)%Q →
  (lo ≤ Js.Math_floor x < hi)%Z.
Proof.
  intros Hlo Hhi. unfold Js.Math_floor. split.
  - rewrite <- (Qfloor_Z lo). by apply Qfloor_resp_le.
  - apply Z.lt_nge. intros Hge. apply Qlt_not_le in Hhi. apply Hhi.
    eapply Qle_trans; [|apply Qfloor_le]. by rewrite <- Zle_Qle.
Qed.

Lemma nth_elem_of {A} (l : list A) (d : A) (i : Z) :
  (0 ≤ i < Z.of_nat (length l))%Z → nth (Z.to_nat i) l d ∈ l.
Proof. intros Hi. apply list_elem_of_In, nth_In. lia. Qed.

Lemma isoDate_day ms :
  Js.isoDate ms = Js.isoDate (ms / Js.ms_per_day * Js.ms_per_day).
Proof.
  unfold Js.isoDate. by rewrite Z.div_mul by done.
Qed.

(** [Math.floor(Math.random() * n)] is an index below [n], for the
    lengths of the two lists. *)
Lemma random_index q (n : Z) :
  (0 <= q)%Q → (q <= 9007199254740991 # 9007199254740992)%Q →
  (0 < n)%Z →
  (Js.binary64 ((9007199254740991 # 9007199254740992) * inject_Z n)
   < inject_Z n)%Q →
  (0 ≤ Js.Math_floor (Js.fmul q (inject_Z n)) < n)%Z.
Proof.
  intros Hq0 Hq1 Hn Hlt.
  assert (0 <= inject_Z n)%Q as Hn0
    by (change 0%Q with (inject_Z 0); rewrite <- Zle_Qle; lia).
  destruct (fmul_bounds q (inject_Z n) _ Hq0 Hq1 Hn0) as [Hlo Hhi].
  apply floor_bounds; [exact Hlo|].
  eapply Qle_lt_trans; [exact Hhi|exact Hlt].
Qed.

Lemma binary64_ge c x :
  Js.binary64 c = c → (0 <= c)%Q → (c <= x)%Q → (c <= Js.binary64 x)%Q.
Proof. intros E H0 H. rewrite <- E at 1. by apply binary64_mono. Qed.

Lemma binary64_le c x :
  Js.binary64 c = c → (0 <= x)%Q → (x <= c)%Q → (Js.binary64 x <= c)%Q.
Proof. intros E H0 H. rewrite <- E. by apply binary64_mono. Qed.

(** The amount drawn lies between 100 and 10000. *)
Lemma random_amount q :
  (0 <= q)%Q → (q <= 9007199254740991 # 9007199254740992)%Q →
  let a := Js.fdiv
             (inject_Z (Js.Math_round
                (Js.fmul (Js.fadd (Js.fmul q 9900) 100) 100))) 100 in
  (100 <= a)%Q ∧ (a <= 10000)%Q.
Proof.
  intros Hq0 Hq1 a.
  assert (q <= 1)%Q as Hq by lra.
  assert (0 <= Js.fmul q 9900)%Q as H1 by (apply binary64_nonneg; nra).
  assert (Js.fmul q 9900 <= 9900)%Q as H1'
    by (apply binary64_le; [vm_compute; reflexivity|nra|nra]).
  set (t1 := Js.fmul q 9900) in *. clearbody t1.
  assert (100 <= Js.fadd t1 100)%Q as H2
    by (apply binary64_ge; [vm_compute; reflexivity|done|lra]).
  assert (Js.fadd t1 100 <= 10000)%Q as H2'
    by (apply binary64_le; [vm_compute; reflexivity|lra|lra]).
  set (t2 := Js.fadd t1 100) in *. clearbody t2.
  assert (10000 <= Js.fmul t2 100)%Q as H3
    by (apply binary64_ge; [vm_compute; reflexivity|done|lra]).
  assert (Js.fmul t2 100 <= 1000000)%Q as H3'
    by (apply binary64_le; [vm_compute; reflexivity|lra|lra]).
  set (t3 := Js.fmul t2 100) in *. clearbody t3.
  pose proof (floor_bounds (t3 + (1 # 2)) 10000 1000001) as Hr.
  unfold Js.Math_floor in Hr. unfold a, Js.Math_round.
  destruct Hr as [Hlo Hhi]; [unfold inject_Z; lra | unfold inject_Z; lra |].
  set (R := Qfloor _) in *. clearbody R.
  assert (inject_Z 10000 <= inject_Z R)%Q as Hlo' by (by rewrite <- Zle_Qle).
  assert (inject_Z R <= inject_Z 1000000)%Q as Hhi'
    by (rewrite <- Zle_Qle; lia).
  change (inject_Z 10000) with 10000%Q in Hlo'.
  change (inject_Z 1000000) with 1000000%Q in Hhi'.
  set (r := inject_Z R) in *. clearbody r.
  assert (100 <= r / 100)%Q as Hd by (apply Qle_shift_div_l; [done|lra]).
  assert (r / 100 <= 10000)%Q as Hd' by (apply Qle_shift_div_r; [done|lra]).
  unfold Js.fdiv. split.
  - apply binary64_ge; [vm_compute; reflexivity|done|exact Hd].
  - apply binary64_le; [vm_compute; reflexivity|lra|exact Hd'].
Qed.

(** The offset drawn lies between no day and 365 days. *)
Lemma random_offset q :
  (0 <= q)%Q → (q <= 9007199254740991 # 9007199254740992)%Q →
  (0 ≤ Js.Math_floor
         (Js.fmul (Js.fmul (Js.fmul (Js.fmul (Js.fmul q (inject_Z 365))
                                             24) 60) 60) 1000)
     ≤ 365 * Js.ms_per_day)%Z.
Proof.
  intros Hq0 Hq1. assert (q <= 1)%Q as Hq by lra.
  change (inject_Z 365) with 365%Q.
  destruct (fmul_bounds q 365 1 Hq0 Hq ltac:(done)) as [H1 H1'].
  assert (Js.binary64 (1 * 365) = 365%Q) as E1 by (vm_compute; reflexivity).
  rewrite E1 in H1'. set (t1 := Js.fmul q 365) in *.
  destruct (fmul_bounds t1 24 365 H1 H1' ltac:(done)) as [H2 H2'].
  assert (Js.binary64 (365 * 24) = 8760%Q) as E2 by (vm_compute; reflexivity).
  rewrite E2 in H2'. set (t2 := Js.fmul t1 24) in *.
  destruct (fmul_bounds t2 60 8760 H2 H2' ltac:(done)) as [H3 H3'].
  assert (Js.binary64 (8760 * 60) = 525600%Q) as E3
    by (vm_compute; reflexivity).
  rewrite E3 in H3'. set (t3 := Js.fmul t2 60) in *.
  destruct (fmul_bounds t3 60 525600 H3 H3' ltac:(done)) as [H4 H4'].
  assert (Js.binary64 (525600 * 60) = 31536000%Q) as E4
    by (vm_compute; reflexivity).
  rewrite E4 in H4'. set (t4 := Js.fmul t3 60) in *.
  destruct (fmul_bounds t4 1000 31536000 H4 H4' ltac:(done)) as [H5 H5'].
  assert (Js.binary64 (31536000 * 1000) = 31536000000%Q) as E5
    by (vm_compute; reflexivity).
  rewrite E5 in H5'. set (t5 := Js.fmul t4 1000) in *.
  clearbody t5.
  pose proof (floor_bounds t5 0 31536000001) as Hf.
  destruct Hf as [Hlo Hhi]; [exact H5 | unfold inject_Z; lra |].
  unfold Js.ms_per_day. lia.
Qed.

Lemma generateOrder_range i w :
  ∃ e r, generateOrder i w = (Ok (orderId i, e), set_random r w)
         ∧ seeded_row (orderId i) e.
Proof.
  unfold generateOrder, randomDate.
  destruct (Math_random_range w) as (q1 & r1 & H1 & Hq1 & Hq1').
  destruct (Math_random_range (set_random r1 w))
    as (q2 & r2 & H2 & Hq2 & Hq2').
  destruct (Math_random_range (set_random r2 (set_random r1 w)))
    as (q3 & r3 & H3 & Hq3 & Hq3').
  destruct (Math_random_range
              (set_random r3 (set_random r2 (set_random r1 w))))
    as (q4 & r4 & H4 & Hq4 & Hq4').
  unfold bind at 1. rewrite H1. unfold bind at 1. rewrite H2.
  unfold bind at 1. rewrite H3.
  unfold bind at 1. unfold bind at 1. rewrite H4.
  eexists _, r4. split; [done|]. unfold seeded_row.
  cbn [e_id e_customer e_amount e_date]. split; [done|]. split; [|split].
  - apply (nth_elem_of CUSTOMERS).
    change (Z.of_nat (length CUSTOMERS)) with 15%Z.
    apply random_index; [done|done|done|]. vm_compute. reflexivity.
  - eexists. split; [done|]. by apply random_amount.
  - pose proof (random_offset q4 Hq4 Hq4') as Hoff.
    set (offset := Js.Math_floor _) in *.
    clearbody offset. rewrite isoDate_day.
    set (day := ((1771891200000 - offset) / Js.ms_per_day)%Z).
    assert (20508 - 365 ≤ day ≤ 20508)%Z as Hday.
    { unfold day, Js.ms_per_day in *. split.
      - apply Z.div_le_lower_bound; lia.
      - apply Z.div_le_upper_bound; lia. }
    clearbody day. unfold seed_dates. apply list_elem_of_fmap.
    exists (Z.to_nat (20508 - day)). split.
    + f_equal. unfold Js.ms_per_day. lia.
    + apply elem_of_seq. lia.
Qed.

Lemma generateOrders_range l : ∀ w,
  ∃ acts r, mapM generateOrder l w = (Ok acts, set_random r w)
            ∧ acts.*1 = orderId <$> l
            ∧ Forall (λ a, seeded_row a.1 a.2) acts.
Proof.
  induction l as [|i l IH]; intros w; simpl.
  - exists [], (random w). by destruct w.
  - destruct (generateOrder_range i w) as (e & r1 & H1 & He).
    destruct (IH (set_random r1 w)) as (acts & r2 & H2 & Hkeys & Hall).
    unfold bind at 1. rewrite H1. unfold bind at 1. rewrite H2.
    exists ((orderId i, e) :: acts), r2. split; [done|]. split.
    + rewrite !fmap_cons. by rewrite Hkeys.
    + by constructor.
Qed.

Lemma seed_dates_iso d :
  d ∈ seed_dates →
  String.length d = 10
  ∧ Js.lex_le "2025-02-24" d = true ∧ Js.lex_le d "2026-02-24" = true.
Proof.
  assert (forallb (λ d, Nat.eqb (String.length d) 10
                        && Js.lex_le "2025-02-24" d
                        && Js.lex_le d "2026-02-24") seed_dates = true)
    as Hall by (vm_compute; reflexivity).
  rewrite forallb_forall in Hall. intros Hd%list_elem_of_In.
  apply Hall in Hd. apply andb_prop in Hd as [[H1 H2]%andb_prop H3].
  apply Nat.eqb_eq in H1. done.
Qed.

(** Draws at which the rounding of the doubles shows: the amount is the
    double nearest to 231.86 (the exact sum and products would round
    to 231.85), and the offset is sixteen days and one millisecond
    (the exact product would floor to sixteen days, and give
    2026-02-08). *)
Example generateOrder_rounds :
  (generateOrder 1
     (mkWorld ∅ ∅ [] [0; 119964066437765; 0; 394836132000290]%N
              "2026-02-24" [] [] [] [])).1
  = Ok ("ORD-001",
        mkOrderEntity "ORD-001" "Contoso Ltd."
          (Js.Num (Js.binary64 (23186 # 100))) Submitted "2026-02-07").
Proof. vm_compute. reflexivity. Qed.

(** X10: whatever [Math.random] yields, [generateOrders(count)] makes
    [count] rows with the keys ORD-001 to ORD-<count>, calls the store
    not at all, and each row carries its key as id, a customer of the
    list [CUSTOMERS], an amount from 100 to 10000 and a date of ten
    characters from 2025-02-24 to 2026-02-24. *)
Theorem generateOrders_rows count w :
  ∃ acts w',
    generateOrders count w = (Ok acts, w')
    ∧ acts.*1 = ids_upto count
    ∧ orders w' = orders w ∧ calls w' = calls w ∧ faults w' = faults w
    ∧ ∀ k e, (k, e) ∈ acts →
        e_id e = k
        ∧ e_customer e ∈ CUSTOMERS
        ∧ (∃ q, e_amount e = Js.Num q ∧ (100 <= q)%Q ∧ (q <= 10000)%Q)
        ∧ String.length (e_date e) = 10
        ∧ Js.lex_le "2025-02-24" (e_date e) = true
        ∧ Js.lex_le (e_date e) "2026-02-24" = true.
Proof.
  unfold generateOrders. fold (upto count).
  destruct (generateOrders_range (upto count) w)
    as (acts & r & Hrun & Hkeys & Hall).
  exists acts, (set_random r w). split; [exact Hrun|].
  split; [exact Hkeys|]. do 3 (split; [done|]).
  intros k e Hin. rewrite Forall_forall in Hall.
  destruct (Hall _ Hin) as (Hid & Hc & Ha & Hd).
  do 3 (split; [done|]). by apply seed_dates_iso.
Qed.

Lemma external_error c w e w' :
  external c w = (Throw e, w') → e = StoreUnavailable.
Proof.
  unfold external. destruct (faults w) as [|[] fs]; by intros [= <- <-].
Qed.

Lemma listEntities_error w e w' :
  Orders.listEntities w = (Throw e, w') → e = StoreUnavailable.
Proof.
  unfold Orders.listEntities, bind.
  destruct (external _ w) as [[[]|err] w1] eqn:Hext; [done|].
  intros [= <- <-]. by eapply external_error.
Qed.

Lemma submitTransaction_inv acts w r w' :
  Orders.submitTransaction acts w = (r, w') →
  match r with
  | Ok _ => orders w' = Orders.insert_all acts (orders w)
  | Throw e =>
      orders w' = orders w
      ∧ (NoDup (acts.*1) → orders w = ∅ → e = StoreUnavailable)
  end.
Proof.
  unfold Orders.submitTransaction, bind.
  destruct (external _ w) as [[[]|err] w1] eqn:Hext.
  - apply external_rows in Hext as (Ho & _). run.
    destruct (decide _) as [Hok|Hbad]; intros [= <- <-]; simpl.
    + by rewrite Ho.
    + split; [done|]. intros Hnd Hempty. destruct Hbad. split; [done|].
      apply Forall_forall. intros k _. by rewrite Ho, Hempty, lookup_empty.
  - intros [= <- <-]. split.
    + by apply external_rows in Hext as (Ho & _).
    + intros _ _. by eapply external_error.
Qed.

Lemma insert_all_lookup acts : ∀ rows k e,
  Orders.insert_all acts rows !! k = Some e →
  (k, e) ∈ acts ∨ rows !! k = Some e.
Proof.
  unfold Orders.insert_all.
  induction acts as [|[k0 e0] acts IH]; intros rows k e; simpl; [by right|].
  intros [Hin|Hk]%IH; [left; by right|].
  apply lookup_insert_Some in Hk as [[<- <-]|[_ Hk]]; [left; by left|].
  by right.
Qed.

Lemma seedIfEmpty_inv w r w' :
  orders w = ∅ → seedIfEmpty w = (r, w') →
  (r = Ok tt
   ∧ dom (orders w') = list_to_set (ids_upto 100)
   ∧ ∀ k e, orders w' !! k = Some e → seeded_row k e)
  ∨ (r = Throw StoreUnavailable ∧ orders w' = ∅).
Proof.
  intros Hempty. unfold seedIfEmpty. unfold bind at 1.
  destruct (catch _ _ w) as [r0 w0] eqn:Hct.
  apply createTable_calls in Hct as (-> & Ho0 & _).
  unfold bind at 1.
  destruct (Orders.listEntities w0) as [[rows|err] w1] eqn:Hl;
    pose proof (listEntities_inv _ _ _ Hl) as (Ho1 & _ & _ & Hrows).
  2:{ intros [= <- <-]. right. apply listEntities_error in Hl as ->.
      by rewrite Ho1, Ho0. }
  rewrite (Hrows _ eq_refl), Ho0, Hempty, map_to_list_empty.
  unfold generateOrders. fold (upto 100).
  destruct (generateOrders_range (upto 100) w1)
    as (acts & rn & Hgen & Hkeys & Hall).
  fold (ids_upto 100) in Hkeys.
  unfold bind at 1. rewrite Hgen. intros Hsub.
  apply submitTransaction_inv in Hsub. simpl in Hsub.
  rewrite Ho1, Ho0, Hempty in Hsub. destruct r as [[]|err].
  - left. split; [done|]. rewrite Hsub. split.
    + by rewrite dom_insert_all, dom_empty_L, (right_id_L ∅ (∪)), Hkeys.
    + intros k e [Hin|Hk]%insert_all_lookup; [|by rewrite lookup_empty in Hk].
      rewrite Forall_forall in Hall. apply (Hall _ Hin).
  - right. destruct Hsub as [-> Herr]. split; [|done]. f_equal.
    apply Herr; [|done]. rewrite Hkeys. apply NoDup_ids_upto.
Qed.

(** X11: on an empty store [seedIfEmpty] is all or nothing, whatever
    the store does: either it completes and the store holds exactly
    the rows ORD-001 to ORD-100, each carrying its key as id, a
    customer of [CUSTOMERS], an amount from 100 to 10000 and a date of
    the last 365 days; or it fails with the outage and the store is
    still empty. *)
Theorem seedIfEmpty_all_or_nothing w r w' :
  orders w = ∅ → seedIfEmpty w = (r, w') →
  (r = Ok tt
   ∧ dom (orders w') = list_to_set (ids_upto 100)
   ∧ ∀ k e, orders w' !! k = Some e →
       e_id e = k ∧ e_customer e ∈ CUSTOMERS
       ∧ (∃ q, e_amount e = Js.Num q ∧ (100 <= q)%Q ∧ (q <= 10000)%Q)
       ∧ e_date e ∈ seed_dates)
  ∨ (r = Throw StoreUnavailable ∧ orders w' = ∅).
Proof. apply seedIfEmpty_inv. Qed.

Lemma seedIfEmpty_all_or_nothing_witness :
  (seedIfEmpty (mkWorld ∅ ∅ [false; false; true] [] "2026-02-24" [] [] [] [])).1
  = Throw StoreUnavailable
  ∧ orders (seedIfEmpty
              (mkWorld ∅ ∅ [false; false; true] [] "2026-02-24" [] [] [] [])).2
    = ∅.
Proof.
  destruct (seedIfEmpty_all_or_nothing
              (mkWorld ∅ ∅ [false; false; true] [] "2026-02-24" [] [] [] [])
              _ _ eq_refl (surjective_pairing _))
    as [(Hr & _)|(Hr & Ho)].
  - vm_compute in Hr. discriminate Hr.
  - split; [exact Hr | exact Ho].
Defined.

(** X12: after [seedIfEmpty] on an empty store that answers,
    [listOrders] (under the code-unit collation) lists the hundred
    orders from ORD-100 down to ORD-001, and the first [createOrder]
    assigns ORD-101. *)
Theorem seedIfEmpty_then_orders w :
  orders w = ∅ → calm w →
  ∃ w1, seedIfEmpty w = (Ok tt, w1)
        ∧ (∃ l w2, listOrders Js.code_unit_compare w1 = (Ok l, w2)
                   ∧ id <$> l = reverse (ids_upto 100))
        ∧ ∀ data notify, harmless notify →
            ∃ w2, createOrder data notify w1
                  = (Ok (orderOf 101 data), w2)
                  ∧ id (orderOf 101 data) = "ORD-101".
Proof.
  intros Hempty Hcalm.
  destruct (seedIfEmpty_seeds w Hempty Hcalm) as (w1 & Hrun & Hdom & _ & Hc1).
  exists w1. split; [exact Hrun|]. split.
  - destruct (listOrders Js.code_unit_compare w1) as [r w2] eqn:Hl.
    assert (∃ l, r = Ok l) as [l ->].
    { revert Hl. unfold listOrders, bind.
      rewrite (listEntities_calm w1 Hc1). intros [= <- _]. by eexists. }
    exists l, w2. split; [done|].
    apply (listOrders_ids_desc w1 100 l w2 Hdom); [lia|exact Hl].
  - intros data notify Hq.
    destruct (createOrder_calm w1 data notify Hc1 Hq) as (w2 & Hrun2 & _).
    simpl in Hrun2.
    rewrite (max_suffix_is_unique _ _ _ (maxNum_of_spec (orders w1))
               (max_suffix_upto _ _ Hdom)) in Hrun2.
    exists w2. split; [exact Hrun2|reflexivity].
Qed.

Lemma seedIfEmpty_then_orders_witness :
  ∃ w1, seedIfEmpty (world_of ∅ ∅) = (Ok tt, w1)
        ∧ ∃ w2, createOrder cato None w1 = (Ok (orderOf 101 cato), w2).
Proof.
  destruct (seedIfEmpty_then_orders (world_of ∅ ∅))
    as (w1 & Hrun & _ & Hnext); [reflexivity | reflexivity |].
  exists w1. split; [exact Hrun|].
  destruct (Hnext cato None) as (w2 & Hrun2 & _).
  - intros f Hf. discriminate Hf.
  - exists w2. exact Hrun2.
Defined.

(** ** The row keys of the conversation registry *)

Lemma list_ind3 {A} (P : list A → Prop) :
  P [] → (∀ a, P [a]) → (∀ a b, P [a; b]) →
  (∀ a b c l, P l → P (a :: b :: c :: l)) →
  ∀ l, P l.
Proof.
  intros H0 H1 H2 H3 l.
  assert (∀ n l, (length l ≤ n)%nat → P l) as Hn.
  { clear l. induction n as [|n IH]; intros [|a [|b [|c l]]] Hlen;
      simpl in *; try done; try lia.
    apply H3, IH. lia. }
  by apply (Hn (length l)).
Qed.

Lemma base64_char_safe i :
  key_char (if bool_decide (base64_char i = "/"%char
                            ∨ base64_char i = "+"%char
                            ∨ base64_char i = "="%char)
            then "_"%char else base64_char i) = true.
Proof.
  unfold base64_char. generalize (N.to_nat i) as n. intros n.
  do 64 (destruct n as [|n]; [reflexivity|]). reflexivity.
Qed.

Lemma length_replace_unsafe s :
  String.length (replace_unsafe s) = String.length s.
Proof. induction s as [|c s IH]; simpl; [done|]. by rewrite IH. Qed.

Lemma length_base64 bytes :
  String.length (base64 bytes) = (4 * ((length bytes + 2) / 3))%nat.
Proof.
  induction bytes as [| | |a b c l IH] using list_ind3; try reflexivity.
  cbn [base64 String.length length]. rewrite IH.
  replace (S (S (S (length l))) + 2)%nat with (length l + 2 + 1 * 3)%nat by lia.
  rewrite Nat.div_add by done. lia.
Qed.

Lemma base64_safe bytes :
  all_chars key_char (replace_unsafe (base64 bytes)) = true.
Proof.
  induction bytes as [|a|a b|a b c l IH] using list_ind3;
    cbn [base64 replace_unsafe all_chars];
    rewrite ?base64_char_safe, ?IH; reflexivity.
Qed.

(** X13: the row key computed for a conversation id is made of
    letters, digits and [_] only, whatever the id (so of none of the
    characters a row key may not hold), and has four characters for
    every three bytes of the id, the last group rounded up. *)
Theorem rowKeyOf_key_safe conv :
  all_chars key_char (rowKeyOf conv) = true
  ∧ String.length (rowKeyOf conv)
    = (4 * ((String.length conv + 2) / 3))%nat.
Proof.
  unfold rowKeyOf. split; [apply base64_safe|].
  rewrite length_replace_unsafe, length_base64. unfold Buffer_from.
  rewrite length_fmap. do 3 f_equal.
  induction conv as [|c s IH]; simpl; [done|]. by rewrite IH.
Qed.

(** ** The conversation registry: saving, listing, removing *)

Lemma upsertEntity_inv k e w r w' :
  Subs.upsertEntity k e w = (r, w') →
  orders w' = orders w
  ∧ logs w' = logs w
  ∧ match r with
    | Ok _ => subs w' = <[k := e]> (subs w)
    | Throw err => subs w' = subs w ∧ err = StoreUnavailable
    end
  ∧ (calm w → r = Ok tt ∧ calm w').
Proof.
  unfold Subs.upsertEntity, bind, external, calm.
  destruct w as [os ss fs rn td cl ob lg cs]; simpl.
  destruct fs as [|[] fs]; intros [= <- <-]; simpl; repeat split; done.
Qed.

Lemma subs_listEntities_inv w r w' :
  Subs.listEntities w = (r, w') →
  subs w' = subs w ∧ orders w' = orders w
  ∧ (calm w → calm w' ∧ r = Ok (map_to_list (subs w)))
  ∧ ∀ rows, r = Ok rows → rows = map_to_list (subs w).
Proof.
  unfold Subs.listEntities, bind, external, calm.
  destruct w as [os ss fs rn td cl ob lg cs]; simpl.
  destruct fs as [|[] fs]; intros [= <- <-]; simpl; repeat split;
    try done; by intros rows [= <-].
Qed.

Lemma listConversations_inv w l w' :
  listConversations w = (Ok l, w') →
  subs w' = subs w
  ∧ l = filter (λ c, c ≠ "") (conversationId <$> (map_to_list (subs w)).*2).
Proof.
  unfold listConversations, bind.
  destruct (Subs.listEntities w) as [[rows|err] w1] eqn:Hl; [|done].
  apply subs_listEntities_inv in Hl as (Hs & _ & _ & Hrows).
  rewrite (Hrows _ eq_refl). by intros [= <- <-].
Qed.

Lemma listConversations_calm w :
  calm w → ∃ l w', listConversations w = (Ok l, w') ∧ calm w'.
Proof.
  intros Hcalm. unfold listConversations, bind.
  destruct (Subs.listEntities w) as [r w1] eqn:Hl.
  apply subs_listEntities_inv in Hl as (_ & _ & Hc & _).
  destruct (Hc Hcalm) as [Hc1 ->]. by eexists _, _.
Qed.

Lemma elem_of_listed (regs : gmap string SubEntity) c :
  c ∈ filter (λ c, c ≠ "") (conversationId <$> (map_to_list regs).*2) ↔
  c ≠ "" ∧ ∃ k e, regs !! k = Some e ∧ conversationId e = c.
Proof.
  rewrite list_elem_of_filter, <- list_fmap_compose, list_elem_of_fmap.
  split.
  - intros [Hne ([k e] & -> & Hin)]. split; [done|].
    apply elem_of_map_to_list in Hin. by exists k, e.
  - intros [Hne (k & e & He & <-)]. split; [done|]. exists (k, e).
    split; [done|]. by apply elem_of_map_to_list.
Qed.

Lemma registry_wf_insert regs conv url :
  registry_wf regs →
  registry_wf (<[rowKeyOf conv := mkSubEntity conv url]> regs).
Proof.
  intros Hwf k e [[<- <-]|[_ Hk]]%lookup_insert_Some; [done|].
  by apply Hwf.
Qed.

Lemma registry_wf_delete regs k : registry_wf regs → registry_wf (delete k regs).
Proof. intros Hwf k' e [_ Hk]%lookup_delete_Some. by apply Hwf. Qed.

(** X14: on a store that answers, a conversation saved is a
    conversation listed: [saveConversation] stores the registration
    under the row key of the id, [listConversations] then returns the
    id (if it is not the empty string), and saving the same
    registration again changes nothing.  Whatever the store does, a
    save that fails leaves the registry as it was, and a save keeps
    every registration under the row key of its own id. *)
Theorem saveConversation_listed w conv url :
  (calm w →
   ∃ w1, saveConversation conv url w = (Ok tt, w1)
         ∧ subs w1 !! rowKeyOf conv = Some (mkSubEntity conv url)
         ∧ (conv ≠ "" → ∃ l w2, listConversations w1 = (Ok l, w2) ∧ conv ∈ l)
         ∧ (∃ w2, saveConversation conv url w1 = (Ok tt, w2)
                  ∧ subs w2 = subs w1))
  ∧ ∀ r w', saveConversation conv url w = (r, w') →
      (∀ err, r = Throw err → subs w' = subs w)
      ∧ (registry_wf (subs w) → registry_wf (subs w')).
Proof.
  split.
  - intros Hcalm. unfold saveConversation.
    destruct (Subs.upsertEntity (rowKeyOf conv) (mkSubEntity conv url) w)
      as [r w1] eqn:Hup.
    pose proof (upsertEntity_inv _ _ _ _ _ Hup) as (_ & _ & Hs & Hc).
    destruct (Hc Hcalm) as [-> Hc1]. exists w1. split; [done|].
    assert (subs w1 !! rowKeyOf conv = Some (mkSubEntity conv url)) as Hrow
      by (by rewrite Hs, lookup_insert_eq).
    split; [exact Hrow|]. split.
    + intros Hne. destruct (listConversations_calm w1 Hc1) as (l & w2 & Hl & _).
      exists l, w2. split; [done|].
      apply listConversations_inv in Hl as [_ ->].
      apply elem_of_listed. split; [done|]. by eexists _, _.
    + destruct (Subs.upsertEntity (rowKeyOf conv) (mkSubEntity conv url) w1)
        as [r2 w2] eqn:Hup2.
      pose proof (upsertEntity_inv _ _ _ _ _ Hup2) as (_ & _ & Hs2 & Hc2).
      destruct (Hc2 Hc1) as [-> _]. exists w2. split; [done|].
      rewrite Hs2. by apply insert_id.
  - intros r w' Hrun. unfold saveConversation in Hrun.
    apply upsertEntity_inv in Hrun as (_ & _ & Hs & _). split.
    + intros err ->. by destruct Hs.
    + intros Hwf. destruct r as [[]|err].
      * rewrite Hs. by apply registry_wf_insert.
      * destruct Hs as [-> _]. done.
Qed.

Lemma saveConversation_listed_witness :
  ∃ w1, saveConversation "19:meeting@thread.v2" "https://smba.example"
                         (world_of ∅ ∅) = (Ok tt, w1)
        ∧ ∃ l w2, listConversations w1 = (Ok l, w2)
                  ∧ "19:meeting@thread.v2" ∈ l.
Proof.
  destruct (proj1 (saveConversation_listed (world_of ∅ ∅)
                     "19:meeting@thread.v2" "https://smba.example"))
    as (w1 & Hrun & _ & Hl & _); [reflexivity|].
  exists w1. split; [exact Hrun|]. apply Hl. discriminate.
Defined.

(** X15: in a registry that keeps every registration under the row key
    of its own id, and on a store that answers, removing a conversation
    deletes the row of its key and nothing else, and the conversation
    is no longer listed.  When no row is stored under the row key of
    the conversation, a save followed by the removal of the same
    conversation leaves the registry as it was; a row under that key,
    be it of a conversation with another id, would be lost (C9). *)
Theorem removeConversation_unlisted w conv :
  calm w → registry_wf (subs w) →
  ∃ w1, removeConversation conv w = (Ok tt, w1)
        ∧ subs w1 = delete (rowKeyOf conv) (subs w)
        ∧ registry_wf (subs w1)
        ∧ (∀ l w2, listConversations w1 = (Ok l, w2) → conv ∉ l)
        ∧ ∀ url, subs w !! rowKeyOf conv = None →
            ∃ wa wb, saveConversation conv url w = (Ok tt, wa)
                     ∧ removeConversation conv wa = (Ok tt, wb)
                     ∧ subs wb = subs w.
Proof.
  assert (∀ w, calm w →
            ∃ w1, removeConversation conv w = (Ok tt, w1)
                  ∧ subs w1 = delete (rowKeyOf conv) (subs w)) as Hrm.
  { clear. intros w. unfold removeConversation, catch, Subs.deleteEntity,
      bind, external, calm, gets, modify, throw, ret.
    destruct w as [os ss fs rn td cl ob lg cs]; simpl. intros ->. simpl.
    destruct (ss !! rowKeyOf conv) eqn:Hk; simpl; eexists; (split; [done|]);
      simpl; [done|]. symmetry. by apply delete_id. }
  intros Hcalm Hwf. destruct (Hrm w Hcalm) as (w1 & Hrun & Hs).
  exists w1. split; [exact Hrun|]. split; [exact Hs|]. split; [|split].
  - rewrite Hs. by apply registry_wf_delete.
  - intros l w2 Hl. apply listConversations_inv in Hl as [_ ->].
    rewrite elem_of_listed. intros [_ (k & e & He & Hc)].
    rewrite Hs in He. apply lookup_delete_Some in He as [Hne He].
    apply Hwf in He. congruence.
  - intros url Hfree. unfold saveConversation.
    destruct (Subs.upsertEntity (rowKeyOf conv) (mkSubEntity conv url) w)
      as [r wa] eqn:Hup.
    apply upsertEntity_inv in Hup as (_ & _ & Hsa & Hc).
    destruct (Hc Hcalm) as [-> Hca].
    destruct (Hrm wa Hca) as (wb & Hrunb & Hsb).
    exists wa, wb. split; [done|]. split; [done|].
    rewrite Hsb, Hsa, delete_insert_eq. by apply delete_id.
Qed.

Lemma removeConversation_unlisted_witness :
  ∃ w1, removeConversation "19:meeting@thread.v2" one_conversation
        = (Ok tt, w1)
        ∧ subs w1 = ∅.
Proof.
  destruct (removeConversation_unlisted one_conversation
              "19:meeting@thread.v2") as (w1 & Hrun & Hs & _).
  - reflexivity.
  - intros k e Hk. unfold one_conversation, world_of in Hk. simpl in Hk.
    apply lookup_insert_Some in Hk as [[<- <-]|[_ Hk]]; [reflexivity|].
    by rewrite lookup_empty in Hk.
  - exists w1. split; [exact Hrun|]. rewrite Hs.
    unfold one_conversation, world_of. simpl.
    by rewrite delete_insert_eq, delete_empty.
Defined.

(** X16: [listConversations] returns exactly the conversation ids of
    the registrations that are not the empty string, and changes no
    registration; in a registry that keeps every registration under
    the row key of its own id no conversation is returned twice. *)
Theorem listConversations_exact w l w' :
  listConversations w = (Ok l, w') →
  (∀ c, c ∈ l ↔ c ≠ "" ∧ ∃ k e, subs w !! k = Some e ∧ conversationId e = c)
  ∧ subs w' = subs w
  ∧ (registry_wf (subs w) → NoDup l).
Proof.
  intros Hl. apply listConversations_inv in Hl as [Hs ->].
  split; [apply elem_of_listed|]. split; [exact Hs|].
  intros Hwf. apply NoDup_filter. rewrite <- list_fmap_compose.
  apply NoDup_fmap_2_strong; [|apply NoDup_map_to_list].
  intros [k1 e1] [k2 e2] H1%elem_of_map_to_list H2%elem_of_map_to_list Heq.
  simpl in Heq. pose proof (Hwf _ _ H1) as ->. pose proof (Hwf _ _ H2) as ->.
  rewrite Heq in H1. rewrite H1 in H2. by simplify_eq.
Qed.

Lemma listConversations_exact_witness :
  ∃ l w', listConversations one_conversation = (Ok l, w')
          ∧ (∀ c, c ∈ l ↔
                  c ≠ "" ∧ ∃ k e, subs one_conversation !! k = Some e
                                  ∧ conversationId e = c).
Proof.
  assert (∃ l w', listConversations one_conversation = (Ok l, w'))
    as (l & w' & Hrun) by (do 2 eexists; vm_compute; reflexivity).
  exists l, w'. split; [exact Hrun|].
  apply (listConversations_exact one_conversation l w' Hrun).
Defined.

(** ** Cards and the card-action handler *)

Lemma updateOrder_inv w k patch r w' :
  updateOrder k patch w = (r, w') →
  sseClients w' = sseClients w
  ∧ match r with
    | Ok o => ∃ e, orders w !! k = Some e
                   ∧ o = toOrder (k, merged k patch e)
                   ∧ orders w' = <[k := merged k patch e]> (orders w)
    | Throw err =>
        orders w' = orders w
        ∧ (calm w → orders w !! k = None ∧ err = ResourceNotFound)
    end.
Proof.
  unfold updateOrder, Orders.getEntity, Orders.updateEntity, calm. run.
  destruct w as [os ss fs rn td cl ob lg cs]; simpl in *.
  destruct (os !! k) as [e|] eqn:Hk;
    destruct fs as [|[] [|[] fs]]; simpl; rewrite ?Hk; simpl; rewrite ?Hk;
    simpl; intros [= <- <-]; simpl; (split; [done|]);
    try (by eexists); by split.
Qed.

Lemma updateOrder_calm_sessions w k e patch :
  orders w !! k = Some e → calm w →
  ∃ w1, updateOrder k patch w = (Ok (toOrder (k, merged k patch e)), w1)
        ∧ sseClients w1 = sseClients w
        ∧ orders w1 = <[k := merged k patch e]> (orders w).
Proof.
  intros Hrow Hcalm.
  destruct (updateOrder_calm_run w k e patch Hrow Hcalm) as (w1 & Hrun & _ & Ho).
  exists w1. split; [exact Hrun|]. split; [|exact Ho].
  by apply updateOrder_inv in Hrun as [Hs _].
Qed.

Lemma card_actions_answered w order e who a :
  orders w !! id order = Some e → id order ≠ "" → calm w →
  a ∈ card_actions (buildNewOrderCard order) →
  ∃ S label w',
    (act_verb a = "order.accept" ∧ S = Pending
       ∧ label = "✅ Order Accepted"
     ∨ act_verb a = "order.cancel" ∧ S = Cancelled
       ∧ label = "❌ Order Cancelled")
    ∧ let updated :=
        mkOrder (id order) (e_customer e) (e_amount e) S (e_date e) in
      let card := buildConfirmedCard updated (nullish who "Unknown") in
      on_card_action (tap a who) w
      = (Ok (mkInvokeResponse 200 "application/vnd.microsoft.card.adaptive"
               (CardValue card)), w')
      ∧ card_header card = Some label
      ∧ orders w' !! id order
        = Some (mkOrderEntity (id order) (e_customer e) (e_amount e) S
                              (e_date e))
      ∧ sseClients w' = sseWrite (SseOrderUpdated updated) <$> sseClients w.
Proof.
  intros Hrow Hid Hcalm Ha.
  assert (∀ S, (S = Pending ∧ act_verb a = "order.accept")
               ∨ (S = Cancelled ∧ act_verb a = "order.cancel") →
               act_orderId a = id order →
    ∃ w', on_card_action (tap a who) w
          = (Ok (mkInvokeResponse 200
                   "application/vnd.microsoft.card.adaptive"
                   (CardValue
                      (buildConfirmedCard
                         (mkOrder (id order) (e_customer e) (e_amount e) S
                                  (e_date e)) (nullish who "Unknown")))), w')
          ∧ orders w' !! id order
            = Some (mkOrderEntity (id order) (e_customer e) (e_amount e) S
                                  (e_date e))
          ∧ sseClients w'
            = sseWrite (SseOrderUpdated
                          (mkOrder (id order) (e_customer e) (e_amount e) S
                                   (e_date e))) <$> sseClients w) as Hrun.
  { intros S HS Hoid. rewrite on_card_action_unfold.
    change (action_verb (tap a who)) with (act_verb a).
    change (action_orderId (tap a who)) with (VString (act_orderId a)).
    change (from_name (tap a who)) with who.
    cbv zeta. rewrite Hoid.
    rewrite (bool_decide_eq_false_2 _ Hid).
    assert (status_of_verb (act_verb a) = S ∧
            bool_decide (act_verb a ≠ "order.accept")
            && bool_decide (act_verb a ≠ "order.cancel") = false)
      as [-> ->] by (destruct HS as [[-> ->]|[-> ->]]; done).
    simpl orb.
    destruct (updateOrder_calm_sessions w (id order) e (status_patch S)
                Hrow Hcalm) as (w1 & -> & Hs & Ho).
    eexists. split; [done|]. simpl. rewrite Ho, Hs, lookup_insert_eq. done. }
  unfold card_actions, buildNewOrderCard in Ha. simpl in Ha.
  apply elem_of_cons in Ha as [->|Ha];
    [|apply elem_of_cons in Ha as [->|Ha]; [|by apply elem_of_nil in Ha]].
  - destruct (Hrun Pending) as (w' & H1 & H2 & H3); [by left|done|].
    exists Pending, "✅ Order Accepted", w'. split; [by left|]. done.
  - destruct (Hrun Cancelled) as (w' & H1 & H2 & H3); [by right|done|].
    exists Cancelled, "❌ Order Cancelled", w'. split; [by right|]. done.
Qed.

(** X17: the two actions of the card built for a new order are
    answered by the card-action handler.  For an order of the store
    with a non-empty id, on a store that answers, tapping Accept sets
    the stored status to Pending and is answered 200 with a card headed
    Order Accepted, tapping Cancel sets it to Cancelled and is answered
    with a card headed Order Cancelled; the card shows the customer,
    amount and date as stored, and the updated order is written to
    every live session that has not ended. *)
Theorem new_order_card_actions w order e who a :
  orders w !! id order = Some e → id order ≠ "" → calm w →
  a ∈ card_actions (buildNewOrderCard order) →
  ∃ S label w',
    (act_verb a = "order.accept" ∧ S = Pending
       ∧ label = "✅ Order Accepted"
     ∨ act_verb a = "order.cancel" ∧ S = Cancelled
       ∧ label = "❌ Order Cancelled")
    ∧ let updated :=
        mkOrder (id order) (e_customer e) (e_amount e) S (e_date e) in
      let card := buildConfirmedCard updated (nullish who "Unknown") in
      on_card_action (tap a who) w
      = (Ok (mkInvokeResponse 200 "application/vnd.microsoft.card.adaptive"
               (CardValue card)), w')
      ∧ card_header card = Some label
      ∧ orders w' !! id order
        = Some (mkOrderEntity (id order) (e_customer e) (e_amount e) S
                              (e_date e))
      ∧ sseClients w' = sseWrite (SseOrderUpdated updated) <$> sseClients w.
Proof. apply card_actions_answered. Qed.

Lemma new_order_card_actions_witness :
  ∃ w', on_card_action
          (tap (mkExecuteAction "✅ Accept" "order.accept" "ORD-001"
                                "positive") (Some "Dana")) two_orders
        = (Ok (mkInvokeResponse 200 "application/vnd.microsoft.card.adaptive"
                 (CardValue
                    (buildConfirmedCard
                       (mkOrder "ORD-001" "Acme" (Js.Num (85 # 2)) Pending
                                "2026-02-24") "Dana"))), w').
Proof.
  destruct (new_order_card_actions two_orders (toOrder ("ORD-001", acme))
              acme (Some "Dana")
              (mkExecuteAction "✅ Accept" "order.accept" "ORD-001" "positive"))
    as (S & label & w' & HS & Hrun & _).
  - reflexivity.
  - discriminate.
  - reflexivity.
  - unfold card_actions. simpl. by left.
  - exists w'. destruct HS as [(_ & -> & _)|(Hv & _)].
    + exact Hrun.
    + discriminate Hv.
Defined.

(** X18: the card-action handler always answers, with 200, 400 or 500,
    and never throws.  Unless it answers 200 it changes no order and
    writes to no live session; when it answers 200 the order named by
    the event was in the store and its status is the one the verb asks
    for.  For a valid event naming an id that is the key of no row, on
    a store that answers, the answer is 500 with [ResourceNotFound]. *)
Theorem on_card_action_outcomes activity w :
  ∃ resp w',
    on_card_action activity w = (Ok resp, w')
    ∧ (statusCode resp = 200 ∨ statusCode resp = 400 ∨ statusCode resp = 500)
    ∧ (statusCode resp ≠ 200 →
       orders w' = orders w ∧ sseClients w' = sseClients w)
    ∧ (statusCode resp = 200 →
       ∃ k e, action_orderId activity = VString k
              ∧ orders w !! k = Some e
              ∧ orders w' = <[k := merged k
                                (status_patch
                                   (status_of_verb (action_verb activity))) e]>
                              (orders w))
    ∧ (∀ k, action_orderId activity = VString k → k ≠ "" →
            (action_verb activity = "order.accept"
             ∨ action_verb activity = "order.cancel") →
            orders w !! k = None → calm w →
            resp = mkInvokeResponse 500 "application/vnd.microsoft.error"
                     (InternalError ResourceNotFound 500)).
Proof.
  rewrite on_card_action_unfold. cbv zeta.
  set (oid := match action_orderId activity with
              | VString s => s
              | _ => ""
              end).
  destruct (bool_decide (oid = "") || _) eqn:Hguard.
  - eexists _, w. split; [done|]. simpl. split; [by right; left|].
    split; [done|]. split; [done|].
    intros k Hk Hne Hverb _ _. exfalso.
    unfold oid in Hguard. rewrite Hk in Hguard.
    rewrite (bool_decide_eq_false_2 _ Hne) in Hguard. simpl in Hguard.
    destruct Hverb as [Hv|Hv]; rewrite Hv in Hguard; done.
  - destruct (updateOrder oid _ w) as [[o|err] w1] eqn:Hup;
      pose proof (updateOrder_inv _ _ _ _ _ Hup) as [Hs Hr].
    + eexists _, _. split; [done|]. simpl. split; [by left|].
      split; [done|]. split.
      * intros _. destruct Hr as (e & He & _ & Ho).
        apply orb_false_iff in Hguard as [Hne _].
        apply bool_decide_eq_false in Hne.
        assert (action_orderId activity = VString oid) as Hoid.
        { unfold oid in *. by destruct (action_orderId activity). }
        by exists oid, e.
      * intros k Hk _ _ Hnone _. destruct Hr as (e & He & _).
        unfold oid in He. rewrite Hk in He. congruence.
    + eexists _, _. split; [done|]. simpl. split; [by right; right|].
      destruct Hr as [Ho Hcalm]. split; [done|]. split; [done|].
      intros k Hk _ _ Hnone Hc. destruct (Hcalm Hc) as [_ ->]. done.
Qed.

(** ** The fan-out of a new order to the registered conversations *)

Lemma deliver_inv card c w :
  ∃ w', catch (app_send c card)
              (fun err => app_log (LogError
                            ("[bot] failed to deliver to " +:+ c) err)) w
        = (Ok tt, w')
        ∧ calls w' = CallSend c :: calls w
        ∧ subs w' = subs w
        ∧ (outbox w' = (c, card) :: outbox w ∧ logs w' = logs w
           ∨ outbox w' = outbox w
             ∧ logs w' = LogError ("[bot] failed to deliver to " +:+ c)
                                  StoreUnavailable :: logs w)
        ∧ (calm w → calm w' ∧ outbox w' = (c, card) :: outbox w
                    ∧ logs w' = logs w).
Proof.
  unfold app_send, app_log, calm. run.
  destruct w as [os ss fs rn td cl ob lg cs]; simpl.
  destruct fs as [|[] fs]; simpl; eexists; (split; [done|]); simpl;
    repeat split; try done; first [by left | by right].
Qed.

Lemma fanout_inv card ids : ∀ w,
  ∃ w', forEach (fun c => catch (app_send c card)
                   (fun err => app_log (LogError
                      ("[bot] failed to deliver to " +:+ c) err))) ids w
        = (Ok tt, w')
        ∧ calls w' = (reverse (CallSend <$> ids) ++ calls w)%list
        ∧ subs w' = subs w
        ∧ (length (outbox w') + length (logs w')
           = length (outbox w) + length (logs w) + length ids)%nat
        ∧ (∀ m, m ∈ outbox w' → m ∈ outbox w ∨ m.2 = card ∧ m.1 ∈ ids)
        ∧ (calm w → outbox w' = (reverse ((fun c => (c, card)) <$> ids)
                                 ++ outbox w)%list
                    ∧ logs w' = logs w).
Proof.
  induction ids as [|c ids IH]; intros w.
  - exists w. simpl. repeat split; try done; try lia; by left.
  - destruct (deliver_inv card c w) as (w1 & Hrun & Hc & Hs & Hol & Hcalm).
    destruct (IH w1) as (w' & Hrest & Hc' & Hs' & Hlen & Hin & Hcalm').
    exists w'. split.
    { cbn [forEach]. unfold bind at 1. by rewrite Hrun. }
    split.
    { rewrite Hc', Hc, fmap_cons, reverse_cons, <- (assoc_L (++)). done. }
    split; [congruence|]. split.
    { rewrite Hlen. cbn [length].
      destruct Hol as [[-> ->]|[-> ->]]; cbn [length]; lia. }
    split.
    { intros m Hm. destruct (Hin m Hm) as [Hm1|[Hm1 Hm2]].
      - destruct Hol as [[Ho _]|[Ho _]]; rewrite Ho in Hm1.
        + apply elem_of_cons in Hm1 as [->|Hm1]; [|by left].
          right. split; [done|]. simpl. by left.
        + by left.
      - right. split; [done|]. by right. }
    intros Hw. destruct (Hcalm Hw) as (Hw1 & Ho1 & Hl1).
    destruct (Hcalm' Hw1) as [Ho' Hl']. split; [|congruence].
    rewrite Ho', Ho1, fmap_cons, reverse_cons, <- (assoc_L (++)). done.
Qed.

Lemma broadcastNewOrder_accounting order w :
  let card := buildNewOrderCard order in
  ∃ w',
    broadcastNewOrder order w = (Ok tt, w')
    ∧ match listConversations (after_sse order w) with
      | (Ok ids, w1) =>
          calls w' = (reverse (CallSend <$> ids) ++ calls w1)%list
          ∧ (length (outbox w') + length (logs w')
             = length (outbox w) + length (logs w) + 1 + length ids)%nat
          ∧ (∀ m, m ∈ outbox w' →
                  m ∈ outbox w ∨ m.2 = card ∧ m.1 ∈ ids)
          ∧ (calm w →
             outbox w'
             = (reverse ((fun c => (c, card)) <$> ids) ++ outbox w)%list
             ∧ logs w'
               = LogInfo ("[bot] broadcasting new order " +:+ id order
                            +:+ " to "
                            +:+ Js.String_of_N (N.of_nat (length ids))
                            +:+ " conversation(s)") :: logs w)
      | (Throw err, w1) =>
          calls w' = calls w1
          ∧ outbox w' = outbox w
          ∧ logs w' = LogError "[bot] failed to list conversations" err
                      :: logs w
      end.
Proof.
  intros card. unfold broadcastNewOrder. unfold bind at 1.
  unfold sseBroadcast at 1. unfold modify at 1. fold (after_sse order w).
  set (w0 := after_sse order w).
  assert (outbox w0 = outbox w ∧ logs w0 = logs w
          ∧ faults w0 = faults w) as (Ho0 & Hl0 & Hf0) by done.
  clearbody w0.
  unfold catch at 1. unfold bind at 1.
  destruct (listConversations w0) as [[ids|err] w1] eqn:Hl.
  - assert (outbox w1 = outbox w ∧ logs w1 = logs w
            ∧ (calm w → calm w1)) as (Ho1 & Hl1 & Hc1).
    { revert Hl. unfold listConversations, Subs.listEntities, calm. run.
      rewrite <- Ho0, <- Hl0, <- Hf0.
      destruct w0 as [os ss fs rn td cl ob lg cs]; simpl.
      destruct fs as [|[] fs]; simpl; intros [= <- <-]; done. }
    unfold bind at 1, app_log at 1, modify at 1.
    set (line := LogInfo _).
    destruct (fanout_inv (buildNewOrderCard order) ids (push_log line w1))
      as (w' & Hrun & Hc & _ & Hlen & Hin & Hcalm).
    exists w'. split; [by rewrite Hrun|]. split; [done|]. split.
    { rewrite Hlen. simpl. rewrite Ho1, Hl1. lia. }
    split.
    { intros m Hm. destruct (Hin m Hm) as [Hm1|Hm1]; [left|by right].
      simpl in Hm1. by rewrite Ho1 in Hm1. }
    intros Hw. destruct Hcalm as [Ho' Hl']; [by apply Hc1|].
    simpl in Ho', Hl'. by rewrite Ho', Hl', Ho1, Hl1.
  - exists (push_log (LogError "[bot] failed to list conversations" err) w1).
    split; [done|]. simpl.
    revert Hl. unfold listConversations, Subs.listEntities. run.
    rewrite <- Ho0, <- Hl0.
    destruct w0 as [os ss fs rn td cl ob lg cs]; simpl.
    destruct fs as [|[] fs]; simpl; intros [= <- <-]; done.
Qed.

(** X19: the fan-out of [broadcastNewOrder].  It never throws.  When the
    registry could be listed, one send is attempted for every listed
    conversation, in the order of the list, also after a send has
    failed; every attempt leaves either a message in the outbox or an
    error line in the log, and whatever is added to the outbox is the
    card of the order addressed to a listed conversation.  When the
    listing fails nothing is sent and one error line is logged.  With
    no outage every listed conversation receives the card and only the
    announcement is logged. *)
Theorem broadcastNewOrder_fanout order w :
  let card := buildNewOrderCard order in
  ∃ w',
    broadcastNewOrder order w = (Ok tt, w')
    ∧ match listConversations (after_sse order w) with
      | (Ok ids, w1) =>
          calls w' = (reverse (CallSend <$> ids) ++ calls w1)%list
          ∧ (length (outbox w') + length (logs w')
             = length (outbox w) + length (logs w) + 1 + length ids)%nat
          ∧ (∀ m, m ∈ outbox w' →
                  m ∈ outbox w ∨ m.2 = card ∧ m.1 ∈ ids)
          ∧ (calm w →
             outbox w'
             = (reverse ((fun c => (c, card)) <$> ids) ++ outbox w)%list
             ∧ logs w'
               = LogInfo ("[bot] broadcasting new order " +:+ id order
                            +:+ " to "
                            +:+ Js.String_of_N (N.of_nat (length ids))
                            +:+ " conversation(s)") :: logs w)
      | (Throw err, w1) =>
          calls w' = calls w1
          ∧ outbox w' = outbox w
          ∧ logs w' = LogError "[bot] failed to list conversations" err
                      :: logs w
      end.
Proof. apply broadcastNewOrder_accounting. Qed.

(** With two conversations registered and the transport failing for the
    first delivery, the second is still attempted: one card is in the
    outbox, one failure in the log next to the announcement. *)
Example broadcastNewOrder_partial :
  let w' := (broadcastNewOrder (toOrder ("ORD-001", acme))
               two_conversations).2 in
  length (outbox w') = 1%nat ∧ length (logs w') = 2%nat
  ∧ length (calls w') = 3%nat.
Proof. vm_compute. done. Qed.

(** ** The HTTP handlers of the customer views *)

Lemma Array_filter_decode decode name (l : list Order) w :
  Array_filter
    (fun o => let* decoded := decodeURIComponent decode name in
              ret (bool_decide (customer o = decoded))) l w
  = match decode name with
    | Some c => (Ok (filter (λ o, customer o = c) l), w)
    | None => match l with
              | [] => (Ok [], w)
              | _ :: _ => (Throw URIError, w)
              end
    end.
Proof.
  unfold decodeURIComponent. destruct (decode name) as [c|].
  - induction l as [|o l IH]; [done|].
    cbn [Array_filter]. run. rewrite IH.
    rewrite filter_cons. by destruct (decide (customer o = c));
      [rewrite bool_decide_eq_true_2|rewrite bool_decide_eq_false_2].
  - by destruct l.
Qed.

Lemma renameCustomer_returns oldName newName w n w' :
  renameCustomer oldName newName w = (Ok n, w') →
  n = count_customer oldName (orders w).
Proof.
  unfold renameCustomer. unfold bind at 1.
  destruct (Orders.listEntities w) as [[rows|err] w1] eqn:Hl; [|done].
  apply listEntities_inv in Hl as (_ & _ & _ & Hrows).
  rewrite (Hrows _ eq_refl). unfold bind.
  destruct (forEach _ _ w1) as [[[]|err] w2]; [|done].
  intros [= <- _]. unfold count_customer. by rewrite length_fmap.
Qed.

Lemma get_customer_orders_body localeCompare decode name w l w1 :
  listOrders localeCompare w = (Ok l, w1) →
  (∀ c, decode name = Some c →
        (get_customer_orders localeCompare decode name w).1
        = Ok (mkApiResponse 200
                (JsonOrders (filter (λ o, customer o = c) l))))
  ∧ (decode name = None →
     (get_customer_orders localeCompare decode name w).1
     = Ok (match l with
           | [] => mkApiResponse 200 (JsonOrders [])
           | _ :: _ => mkApiResponse 500 (JsonFailure URIError)
           end)).
Proof.
  intros Hl.
  assert (get_customer_orders localeCompare decode name w
          = match decode name with
            | Some c =>
                (Ok (mkApiResponse 200
                       (JsonOrders (filter (λ o, customer o = c) l))), w1)
            | None =>
                (Ok (match l with
                     | [] => mkApiResponse 200 (JsonOrders [])
                     | _ :: _ => mkApiResponse 500 (JsonFailure URIError)
                     end), w1)
            end) as ->.
  { unfold get_customer_orders, catch. unfold bind at 1.
    rewrite Hl. unfold bind at 1. rewrite Array_filter_decode.
    destruct (decode name); [done|]. by destruct l. }
  split.
  - by intros c ->.
  - by intros ->.
Qed.

(** X20: GET /api/customers/:name/orders always answers.  When the
    listing fails the answer is 500 with that error.  When the name
    decodes to [c], the answer is 200 with the orders of [listOrders]
    whose customer is [c], in the order of the listing: exactly the
    rows of the store with that customer.  The name is decoded inside
    the filter, once per order: a name that cannot be decoded is
    answered 500 on a store with orders, and 200 with the empty list on
    an empty store.  The rows are left as they are. *)
Theorem get_customer_orders_answer localeCompare decode name w :
  ∃ resp w',
    get_customer_orders localeCompare decode name w = (Ok resp, w')
    ∧ orders w' = orders w
    ∧ match listOrders localeCompare w with
      | (Ok l, _) =>
          match decode name with
          | Some c =>
              resp = mkApiResponse 200
                       (JsonOrders (filter (λ o, customer o = c) l))
              ∧ ∀ o, o ∈ filter (λ o, customer o = c) l ↔
                     ∃ e, orders w !! id o = Some e ∧ e_customer e = c
                          ∧ o = toOrder (id o, e)
          | None =>
              resp = if bool_decide (orders w = ∅)
                     then mkApiResponse 200 (JsonOrders [])
                     else mkApiResponse 500 (JsonFailure URIError)
          end
      | (Throw err, _) => resp = mkApiResponse 500 (JsonFailure err)
      end.
Proof.
  unfold get_customer_orders, catch. unfold bind at 1.
  destruct (listOrders localeCompare w) as [[l|err] w1] eqn:Hl.
  - destruct (listOrders_inv _ _ _ _ Hl) as (_ & _ & Hlen & Hin & Ho).
    unfold bind at 1. rewrite Array_filter_decode.
    destruct (decode name) as [c|].
    + eexists _, _. split; [done|]. split; [done|]. split; [done|].
      intros o. rewrite list_elem_of_filter, Hin. split.
      * intros [Hc (e & He & Heq)]. exists e. split; [done|].
        split; [|done]. rewrite Heq in Hc. done.
      * intros (e & He & Hc & Heq). split; [by rewrite Heq|by exists e].
    + destruct l as [|o l].
      * eexists _, _. split; [done|]. split; [done|].
        rewrite bool_decide_eq_true_2; [done|].
        by apply map_size_empty_iff.
      * eexists _, _. split; [done|]. split; [done|].
        rewrite bool_decide_eq_false_2; [done|].
        intros Hempty. rewrite Hempty, map_size_empty in Hlen. done.
  - eexists _, _. split; [done|]. split; [|done].
    revert Hl. unfold listOrders, bind.
    destruct (Orders.listEntities w) as [[rows|e] w2] eqn:Hls; [done|].
    apply listEntities_inv in Hls as (Ho & _). by intros [= _ <-].
Qed.

(** A name that cannot be decoded, on the empty store and on a store
    with orders. *)
Example get_customer_orders_malformed :
  (get_customer_orders Js.code_unit_compare (λ _, None) "%E0%A4%A"
     (world_of ∅ ∅)).1
  = Ok (mkApiResponse 200 (JsonOrders []))
  ∧ (get_customer_orders Js.code_unit_compare (λ _, None) "%E0%A4%A"
       two_orders).1
    = Ok (mkApiResponse 500 (JsonFailure URIError)).
Proof. split; vm_compute; reflexivity. Qed.

(** X21: PUT /api/customers/:name followed by the customer's listing.
    When the rename is answered 200, the [updated] count is the number
    of orders the decoded name had; if the new name differs, then on a
    store that answers the listing for the old name is answered 200
    with no order, and the listing for the new name holds exactly the
    orders that had the old or the new name before, each with the new
    name and its own id, amount, status and date. *)
Theorem put_customer_then_listing localeCompare decode name name' old newName
    n w w1 :
  decode name = Some old → decode name' = Some newName → old ≠ newName →
  put_customer decode name newName w
  = (Ok (mkApiResponse 200 (JsonUpdated n)), w1) →
  calm w1 →
  n = count_customer old (orders w)
  ∧ (get_customer_orders localeCompare decode name w1).1
    = Ok (mkApiResponse 200 (JsonOrders []))
  ∧ ∃ l, (get_customer_orders localeCompare decode name' w1).1
         = Ok (mkApiResponse 200 (JsonOrders l))
         ∧ ∀ o, o ∈ l ↔
                ∃ e, orders w !! id o = Some e
                     ∧ (e_customer e = old ∨ e_customer e = newName)
                     ∧ o = mkOrder (id o) newName (Js.Number (e_amount e))
                                   (e_status e) (e_date e).
Proof.
  intros Hold Hnew Hne Hput Hcalm.
  assert (renameCustomer old newName w = (Ok n, w1)) as Hren.
  { revert Hput. unfold put_customer, catch, decodeURIComponent.
    rewrite Hold. unfold bind at 1. unfold ret at 1. unfold bind at 1.
    destruct (renameCustomer old newName w) as [[m|err] w2]; [|done].
    by intros [= -> ->]. }
  pose proof (renameCustomer_ok_rows _ _ _ _ _ Hren) as Hrows.
  split; [by apply renameCustomer_returns in Hren|].
  assert (∃ l w2, listOrders localeCompare w1 = (Ok l, w2)) as (l & w2 & Hl).
  { unfold listOrders, bind. rewrite (listEntities_calm w1 Hcalm).
    by eexists _, _. }
  assert (∀ c, decode name = Some c ∨ decode name' = Some c →
               ∀ nm, decode nm = Some c →
               (get_customer_orders localeCompare decode nm w1).1
               = Ok (mkApiResponse 200
                       (JsonOrders (filter (λ o, customer o = c) l)))) as Hget.
  { intros c _ nm Hnm.
    destruct (get_customer_orders_body localeCompare decode nm w1 l w2 Hl)
      as [Hsome _]. by apply Hsome. }
  destruct (listOrders_inv _ _ _ _ Hl) as (_ & _ & _ & Hin & _).
  split.
  - rewrite (Hget old (or_introl Hold) name Hold). do 3 f_equal.
    destruct (filter _ l) as [|o rest] eqn:Hfl; [done|exfalso].
    assert (o ∈ filter (λ o, customer o = old) l) as Ho
      by (rewrite Hfl; left).
    apply list_elem_of_filter in Ho as [Hc Ho].
    apply Hin in Ho as (e' & He' & Heq). rewrite Hrows in He'.
    destruct (orders w !! id o) as [e|]; [|done]. simpl in He'.
    injection He' as <-. rewrite Heq in Hc. simpl in Hc.
    destruct (decide (e_customer e = old)); simpl in Hc; congruence.
  - exists (filter (λ o, customer o = newName) l).
    split; [exact (Hget newName (or_intror Hnew) name' Hnew)|].
    intros o. rewrite list_elem_of_filter, Hin, Hrows. split.
    + intros [Hc (e' & He' & Heq)].
      destruct (orders w !! id o) as [e|]; [|done]. simpl in He'.
      injection He' as He'. exists e. split; [done|].
      pose proof (f_equal customer Heq) as Hcust. simpl in Hcust.
      destruct (decide (e_customer e = old)) as [Hd|Hd]; subst e'.
      * split; [by left|]. etrans; [exact Heq|]. done.
      * assert (e_customer e = newName) as Hn by congruence.
        split; [by right|]. etrans; [exact Heq|].
        unfold toOrder. simpl. by rewrite Hn.
    + intros (e & He & Hc & Heq). rewrite He. simpl.
      pose proof (f_equal customer Heq) as Hcust. simpl in Hcust.
      split; [done|]. eexists. split; [done|]. etrans; [exact Heq|].
      destruct (decide (e_customer e = old)) as [Hd|Hd]; [done|].
      destruct Hc as [Hc|Hc]; [done|]. unfold toOrder. simpl.
      by rewrite Hc.
Qed.

Lemma put_customer_then_listing_witness :
  (get_customer_orders Js.code_unit_compare Some "Acme"
     (put_customer Some "Acme" "Apex" two_orders).2).1
  = Ok (mkApiResponse 200 (JsonOrders [])).
Proof.
  refine (proj1 (proj2 (put_customer_then_listing Js.code_unit_compare Some
                          "Acme" "Apex" "Acme" "Apex" 1 two_orders
                          (put_customer Some "Acme" "Apex" two_orders).2
                          eq_refl eq_refl _ _ _))).
  - discriminate.
  - vm_compute. reflexivity.
  - vm_compute. reflexivity.
Defined.

(** ** The install handlers *)

Lemma removeConversation_inv conv w :
  ∃ w', removeConversation conv w = (Ok tt, w')
        ∧ logs w' = logs w
        ∧ orders w' = orders w
        ∧ calls w' = CallDelete SUB_TABLE (rowKeyOf conv) :: calls w
        ∧ (subs w' = delete (rowKeyOf conv) (subs w)
           ∨ subs w' = subs w ∧ faults w ≠ [])
        ∧ (calm w → subs w' = delete (rowKeyOf conv) (subs w)).
Proof.
  unfold removeConversation, catch, Subs.deleteEntity, bind, external, calm,
    gets, modify, throw, ret.
  destruct w as [os ss fs rn td cl ob lg cs]; simpl.
  destruct fs as [|[] fs]; simpl;
    try (destruct (ss !! rowKeyOf conv) eqn:Hk; simpl);
    eexists; (split; [done|]); simpl; repeat split; try done;
    try (by left); try (by right);
    try (left; symmetry; by apply delete_id);
    try (intros _; symmetry; by apply delete_id).
Qed.

(** X22: what the install handlers log.  [install.add] logs that the
    conversation was stored only after the registry took the row; when
    the store fails the handler rejects, and neither the registry nor
    the log has changed.  [install.remove] never rejects and always
    logs that the conversation was removed: with the store answering
    the row of the conversation is gone, but after an outage the row is
    still there and the line was logged all the same. *)
Theorem install_handlers_log conv url w :
  (∃ r w', on_install_add conv url w = (r, w')
           ∧ match r with
             | Ok _ =>
                 subs w' = <[rowKeyOf conv
                             := mkSubEntity conv (nullish url "")]> (subs w)
                 ∧ logs w' = LogInfo ("[bot] conversation stored: " +:+ conv)
                             :: logs w
             | Throw err =>
                 err = StoreUnavailable ∧ subs w' = subs w
                 ∧ logs w' = logs w
             end)
  ∧ ∃ w', on_install_remove conv w = (Ok tt, w')
          ∧ logs w' = LogInfo ("[bot] conversation removed: " +:+ conv)
                      :: logs w
          ∧ (subs w' = delete (rowKeyOf conv) (subs w)
             ∨ subs w' = subs w ∧ faults w ≠ [])
          ∧ (calm w → subs w' = delete (rowKeyOf conv) (subs w)).
Proof.
  split.
  - unfold on_install_add, saveConversation. unfold bind at 1.
    destruct (Subs.upsertEntity _ _ w) as [[[]|err] w1] eqn:Hup;
      apply upsertEntity_inv in Hup as (_ & Hl & Hs & _).
    + eexists _, _. split; [done|]. simpl. by rewrite Hs, Hl.
    + eexists _, _. split; [done|]. by destruct Hs as [-> ->].
  - unfold on_install_remove. unfold bind at 1.
    destruct (removeConversation_inv conv w) as (w1 & -> & Hl & _ & _ & Hs & Hc).
    eexists. split; [done|]. simpl. by rewrite Hl.
Qed.

(** During an outage the removal is logged although the row remains. *)
Example on_install_remove_outage :
  let w := set_faults [true] one_conversation in
  let w' := (on_install_remove "19:meeting@thread.v2" w).2 in
  subs w' = subs w
  ∧ logs w' = [LogInfo "[bot] conversation removed: 19:meeting@thread.v2"].
Proof. cbv zeta. split; vm_compute; reflexivity. Qed.

(** ** From the POST of an order to the tap on its card *)

Lemma orderId_nonempty n : orderId n ≠ "".
Proof. unfold orderId. discriminate. Qed.

(** X23: the path of a new order with a finite amount, on a store and
    a transport that answer, the row keys having numeric suffixes below
    2^53.  POST /api/orders answers 201 with the created order, and the
    fan-out it starts sends the card of that order to every registered
    conversation (the fan-out is run in place, see
    [broadcastNewOrder]); after it, a tap on either action of that
    card is answered 200 and leaves the order in the store with the
    customer, amount and date it was created with and the status the
    action asks for. *)
Theorem new_order_round_trip toNum name raw conv w :
  calm w → conv ≠ "" →
  (∃ k reg, subs w !! k = Some reg ∧ conversationId reg = conv) →
  suffixes_exact (orders w) →
  Js.isFinite (amount_of toNum raw) = true →
  ∃ order w1,
    post_orders toNum name raw w
    = (Ok (mkHttpResponse 201 (JsonOrder order)), w1)
    ∧ customer order = name
    ∧ (conv, buildNewOrderCard order) ∈ outbox w1
    ∧ ∀ a who, a ∈ card_actions (buildNewOrderCard order) →
        ∃ card w2,
          on_card_action (tap a who) w1
          = (Ok (mkInvokeResponse 200
                   "application/vnd.microsoft.card.adaptive"
                   (CardValue card)), w2)
          ∧ orders w2 !! id order
            = Some (mkOrderEntity (id order) name
                      match raw with
                      | RawNumber n => Js.Number n
                      | RawString s => toNum s
                      end
                      (status_of_verb (act_verb a)) (today w)).
Proof.
  intros Hcalm Hne Hreg _ _.
  set (data := mkOrderData name
                 match raw with
                 | RawNumber n => Js.Number n
                 | RawString s => toNum s
                 end Submitted (today w)).
  set (m := maxNum_of (map_to_list (orders w))).
  set (order := orderOf (m + 1) data).
  pose proof (listEntities_calm w Hcalm) as Hlist.
  set (w1 := push_call (CallList TABLE_NAME) w) in Hlist.
  assert (calm w1) as Hc1 by exact Hcalm.
  assert (orders w1 !! orderId (m + 1) = None) as Hfree
    by apply next_id_free, maxNum_of_spec.
  pose proof (createEntity_calm (orderId (m + 1))
                (newEntity (orderId (m + 1)) data) w1 Hc1 Hfree) as Hins.
  set (w2 := set_orders _ _) in Hins.
  assert (calm w2) as Hc2 by exact Hcalm.
  destruct (broadcastNewOrder_accounting order w2) as (w3 & Hb & Hacc).
  destruct (broadcastNewOrder_sessions order w2) as (w3' & Hb' & _ & Ho3 & Hc3).
  rewrite Hb in Hb'. injection Hb' as <-.
  destruct (listConversations_calm (after_sse order w2) Hc2)
    as (ids & wl & Hl & _).
  rewrite Hl in Hacc. destruct Hacc as (_ & _ & _ & Hout).
  destruct (Hout Hc2) as [Hout3 _].
  apply listConversations_inv in Hl as [_ Hids].
  exists order, w3. split.
  { rewrite post_orders_unfold. fold data.
    rewrite (createOrder_insert_ok data (Some broadcastNewOrder) w w1
               _ Hlist w2 Hins).
    fold m order. by rewrite Hb. }
  split; [done|]. split.
  { rewrite Hout3. apply elem_of_app. left. rewrite elem_of_reverse.
    apply list_elem_of_fmap. exists conv. split; [done|].
    rewrite Hids. apply elem_of_listed. split; [done|]. exact Hreg. }
  intros a who Ha.
  assert (orders w3 !! id order = Some (newEntity (orderId (m + 1)) data))
    as Hrow by (rewrite Ho3; apply lookup_insert_eq).
  destruct (card_actions_answered w3 order _ who a Hrow
              (orderId_nonempty _) (Hc3 Hc2) Ha)
    as (S & label & w4 & HS & Hrun & _ & Hrow4 & _).
  eexists _, w4. split; [exact Hrun|]. rewrite Hrow4. simpl.
  do 2 f_equal. unfold status_of_verb.
  by destruct HS as [(-> & -> & _)|(-> & -> & _)].
Qed.

Lemma new_order_round_trip_witness :
  ∃ order w1,
    post_orders (λ _, Js.NaN) "Acme" (RawNumber (Js.Num 7)) one_conversation
    = (Ok (mkHttpResponse 201 (JsonOrder order)), w1)
    ∧ ("19:meeting@thread.v2", buildNewOrderCard order) ∈ outbox w1.
Proof.
  destruct (new_order_round_trip (λ _, Js.NaN) "Acme" (RawNumber (Js.Num 7))
              "19:meeting@thread.v2" one_conversation)
    as (order & w1 & Hrun & _ & Hout & _).
  - reflexivity.
  - discriminate.
  - exists (rowKeyOf "19:meeting@thread.v2"),
      (mkSubEntity "19:meeting@thread.v2" "https://smba.example").
    split; [vm_compute; reflexivity | reflexivity].
  - apply suffixes_exact_maxNum. vm_compute. reflexivity.
  - reflexivity.
  - exists order, w1. split; [exact Hrun | exact Hout].
Defined.

(** * The views

    ** Customers view: aggregateOrders *)

Lemma units_le_refl a : Js.units_le a a = true.
Proof.
  induction a as [|x a IH]; simpl; [done|].
  by rewrite N.ltb_irrefl, N.eqb_refl, IH.
Qed.

Lemma units_le_trans a b c :
  Js.units_le a b = true → Js.units_le b c = true → Js.units_le a c = true.
Proof.
  revert b c. induction a as [|x a IH]; intros [|y b] [|z c]; simpl;
    try done.
  intros [Hxy|[Hxy Hab]%andb_prop]%orb_prop
         [Hyz|[Hyz Hbc]%andb_prop]%orb_prop;
    rewrite ?N.ltb_lt, ?N.eqb_eq in *.
  - assert ((x <? z)%N = true) as -> by (apply N.ltb_lt; lia). done.
  - assert ((x <? z)%N = true) as -> by (apply N.ltb_lt; lia). done.
  - assert ((x <? z)%N = true) as -> by (apply N.ltb_lt; lia). done.
  - rewrite Hxy, Hyz, N.eqb_refl, (IH _ _ Hab Hbc). by rewrite orb_true_r.
Qed.

Lemma units_le_total a b :
  Js.units_le a b = false → Js.units_le b a = true.
Proof.
  revert b. induction a as [|x a IH]; intros [|y b]; simpl; try done.
  intros [Hlt Heq]%orb_false_elim.
  apply N.ltb_ge in Hlt.
  destruct (N.eqb_spec x y) as [Hxy|Hxy].
  - simpl in Heq. rewrite Hxy, N.ltb_irrefl, N.eqb_refl. simpl. by apply IH.
  - assert ((y <? x)%N = true) as -> by (apply N.ltb_lt; lia). done.
Qed.

(** [>] on strings is irreflexive, and its complement is transitive. *)
Lemma string_gt_irrefl a : string_gt a a = false.
Proof. unfold string_gt, Js.string_gt. by rewrite units_le_refl. Qed.

Lemma string_gt_asym a b : string_gt a b = true → string_gt b a = false.
Proof.
  unfold string_gt, Js.string_gt. intros H%negb_true_iff.
  by rewrite (units_le_total _ _ H).
Qed.

Lemma string_not_gt_trans a b c :
  string_gt a b = false → string_gt b c = false → string_gt a c = false.
Proof.
  unfold string_gt, Js.string_gt. rewrite !negb_false_iff.
  apply units_le_trans.
Qed.

Lemma later_max d x :
  string_gt d (later d x) = false ∧ string_gt x (later d x) = false
  ∧ (later d x = d ∨ later d x = x).
Proof.
  unfold later. destruct (string_gt x d) eqn:Hxd.
  - split; [by apply string_gt_asym|].
    split; [apply string_gt_irrefl|by right].
  - split; [apply string_gt_irrefl|]. split; [done|by left].
Qed.

Lemma foldl_later_max xs : ∀ d,
  let r := foldl later d xs in
  r ∈ d :: xs ∧ ∀ x, x ∈ d :: xs → string_gt x r = false.
Proof.
  induction xs as [|y xs IH]; intros d; simpl.
  - split; [by left|].
    intros x ->%list_elem_of_singleton. apply string_gt_irrefl.
  - destruct (IH (later d y)) as [Hin Hmax].
    destruct (later_max d y) as (Hd & Hy & Hcase). split.
    + apply elem_of_cons in Hin as [->|Hin]; [|by do 2 right].
      destruct Hcase as [->| ->]; [by left|right; by left].
    + intros x [->|[->|Hx]%elem_of_cons]%elem_of_cons.
      * eapply string_not_gt_trans; [exact Hd|]. apply Hmax. by left.
      * eapply string_not_gt_trans; [exact Hy|]. apply Hmax. by left.
      * apply Hmax. by right.
Qed.

(** The order of [>] is that of the code units, which is not that of
    the bytes: a character beyond U+FFFF, of four bytes, is below one
    of U+E000 to U+FFFF, of three. *)
Example string_gt_surrogates :
  string_gt "～" "😀" = true ∧ Js.lex_le "～" "😀" = true.
Proof. split; vm_compute; reflexivity. Qed.

Section AggregateFacts.

Context (plus : JsValue → JsValue → JsValue).

Lemma aggregateOrders_snoc orders o :
  aggregateOrders plus (orders ++ [o])%list
  = aggregate_step plus o (aggregateOrders plus orders).
Proof. unfold aggregateOrders. by rewrite foldl_app. Qed.

(** The keys after one turn. *)
Lemma aggregate_step_keys o map :
  s_customer <$> aggregate_step plus o map
  = if decide (v_customer o ∈ s_customer <$> map)
    then s_customer <$> map
    else ((s_customer <$> map) ++ [v_customer o])%list.
Proof.
  induction map as [|s map IH].
  - cbn [aggregate_step fmap list_fmap]. case_decide as Hin; [|done].
    by apply elem_of_nil in Hin.
  - cbn [aggregate_step]. case_bool_decide as Heq.
    + clear IH. rewrite !fmap_cons. cbn [s_customer].
      case_decide as Hin; [done|]. exfalso. apply Hin. rewrite Heq. left.
    + rewrite !fmap_cons, IH. clear IH.
      destruct (decide (v_customer o ∈ s_customer <$> map)) as [Hin|Hnin];
        case_decide as Hin'; try done.
      * exfalso. apply Hin'. by right.
      * apply elem_of_cons in Hin' as [?|?]; [congruence|done].
Qed.

Lemma aggregateOrders_keys orders :
  s_customer <$> aggregateOrders plus orders
  = reverse (remove_dups (reverse (v_customer <$> orders))).
Proof.
  induction orders as [|o orders IH] using rev_ind; [done|].
  rewrite aggregateOrders_snoc, aggregate_step_keys, IH. clear IH.
  rewrite fmap_app, reverse_app.
  change (reverse (v_customer <$> [o])) with [v_customer o].
  set (r := reverse (v_customer <$> orders)).
  change ([v_customer o] ++ r)%list with (v_customer o :: r).
  assert (remove_dups (v_customer o :: r)
          = if decide (v_customer o ∈ r) then remove_dups r
            else v_customer o :: remove_dups r) as -> by done.
  assert (v_customer o ∈ reverse (remove_dups r) ↔ v_customer o ∈ r) as Hiff
    by (by rewrite elem_of_reverse, elem_of_remove_dups).
  destruct (decide (v_customer o ∈ r)) as [Hin|Hnin];
    case_decide as Hin'; try done.
  - by apply Hiff in Hin.
  - by apply Hiff in Hin'.
  - by rewrite reverse_cons.
Qed.

(** The summary of a customer, from the orders of that customer in the
    order of the list. *)
Lemma aggregateOrders_summary orders : ∀ s,
  s ∈ aggregateOrders plus orders →
  ∃ o0 rest,
    filter (λ o, v_customer o = s_customer s) orders = o0 :: rest
    ∧ orderCount s = S (length rest)
    ∧ totalAmount s = foldl plus (v_amount o0) (v_amount <$> rest)
    ∧ latestOrderDate s = foldl later (v_date o0) (v_date <$> rest).
Proof.
  induction orders as [|o orders IH] using rev_ind;
    [by intros s ?%elem_of_nil|].
  rewrite aggregateOrders_snoc.
  pose proof (aggregateOrders_keys orders) as Hkeys.
  assert (NoDup (s_customer <$> aggregateOrders plus orders)) as Hnd
    by (rewrite Hkeys, reverse_Permutation; apply NoDup_remove_dups).
  assert (∀ c, c ∈ s_customer <$> aggregateOrders plus orders →
               ∃ o', o' ∈ orders ∧ v_customer o' = c) as Hsome.
  { intros c. rewrite Hkeys, elem_of_reverse, elem_of_remove_dups,
      elem_of_reverse, list_elem_of_fmap. intros (o' & -> & Hin). by exists o'. }
  assert (∀ c, filter (λ o', v_customer o' = c) (orders ++ [o])%list
               = (filter (λ o', v_customer o' = c) orders
                  ++ if decide (v_customer o = c) then [o] else [])%list)
    as Hfilt.
  { intros c. rewrite filter_app, filter_cons, filter_nil.
    by destruct (decide (v_customer o = c)). }
  assert (filter (λ o', v_customer o' = v_customer o) orders ≠ [] →
          v_customer o ∈ s_customer <$> aggregateOrders plus orders) as Hseen.
  { intros Hf. rewrite Hkeys, elem_of_reverse, elem_of_remove_dups,
      elem_of_reverse, list_elem_of_fmap.
    destruct (filter _ orders) as [|o' l'] eqn:Hfl; [done|].
    assert (o' ∈ filter (λ o', v_customer o' = v_customer o) orders) as Hin
      by (rewrite Hfl; left).
    apply list_elem_of_filter in Hin as [Hc Hin]. by exists o'. }
  revert IH Hnd Hsome Hseen. clear Hkeys.
  generalize (aggregateOrders plus orders).
  intros map IH Hnd Hsome Hseen s.
  induction map as [|e map IHm]; cbn [aggregate_step].
  - intros ->%list_elem_of_singleton. cbn [s_customer]. rewrite Hfilt.
    rewrite decide_True by done.
    destruct (filter (λ o', v_customer o' = v_customer o) orders)
      as [|o' l'] eqn:Hf.
    + by exists o, [].
    + exfalso. assert (o' :: l' ≠ []) as Hne by done.
      by apply Hseen, elem_of_nil in Hne.
  - case_bool_decide as Heq.
    + intros [->|Hin]%elem_of_cons.
      * cbn [s_customer orderCount totalAmount latestOrderDate].
        rewrite Hfilt, decide_True by done.
        destruct (IH e) as (o0 & rest & Hf & Hcnt & Htot & Hlat); [by left|].
        exists o0, (rest ++ [o])%list. rewrite Hf. split; [done|].
        rewrite length_app, !fmap_app, !foldl_app. simpl.
        rewrite Hcnt, Htot, Hlat. split; [lia|]. done.
      * apply NoDup_cons in Hnd as [Hnotin _].
        assert (s_customer s ≠ v_customer o) as Hso.
        { intros Hso. apply Hnotin. rewrite Heq, <- Hso.
          apply list_elem_of_fmap. by exists s. }
        rewrite Hfilt, decide_False by done. rewrite (right_id_L [] (++)).
        apply IH. by right.
    + intros [->|Hin]%elem_of_cons.
      * rewrite Hfilt, decide_False by done. rewrite (right_id_L [] (++)).
        apply IH. by left.
      * apply IHm; [| | | |exact Hin].
        -- intros s' Hs'. apply IH. by right.
        -- by apply NoDup_cons in Hnd as [_ ?].
        -- intros c Hc. apply Hsome. by right.
        -- intros Hf. apply Hseen in Hf.
           apply elem_of_cons in Hf as [Hf|Hf]; [congruence|done].
Qed.

Lemma aggregate_step_count o map :
  sum_list (orderCount <$> aggregate_step plus o map)
  = S (sum_list (orderCount <$> map)).
Proof.
  induction map as [|e map IH]; cbn [aggregate_step]; [done|].
  case_bool_decide; rewrite !fmap_cons.
  - simpl. lia.
  - change (sum_list (orderCount e :: (orderCount <$> aggregate_step plus o map)))
      with (orderCount e + sum_list (orderCount <$> aggregate_step plus o map)).
    rewrite IH. simpl. lia.
Qed.

Lemma aggregateOrders_keys_elem orders c :
  c ∈ s_customer <$> aggregateOrders plus orders ↔ c ∈ v_customer <$> orders.
Proof.
  by rewrite aggregateOrders_keys, elem_of_reverse, elem_of_remove_dups,
    elem_of_reverse.
Qed.

Lemma aggregate_step_renamed old newName o map :
  newName ∉ s_customer <$> map → v_customer o ≠ newName →
  aggregate_step plus
    (if bool_decide (v_customer o = old)
     then mkViewOrder (v_id o) newName (v_amount o) (v_status o) (v_date o)
     else o)
    (setCustomers_renamed old newName map)
  = setCustomers_renamed old newName (aggregate_step plus o map).
Proof.
  intros Hmap Ho. unfold setCustomers_renamed.
  induction map as [|e map IH]; cbn [aggregate_step fmap list_fmap].
  - repeat (case_bool_decide; simpl in * ); done.
  - assert (s_customer e ≠ newName) as He
      by (intros <-; apply Hmap; left).
    assert (newName ∉ s_customer <$> map) as Hrest
      by (intros ?; apply Hmap; by right).
    specialize (IH Hrest). clear Hmap Hrest.
    repeat (case_bool_decide; simpl in * ); try congruence;
      try (by rewrite IH); try done.
Qed.

End AggregateFacts.

(** X24: the customers of [aggregateOrders].  The summaries come one
    per customer, in the order in which the customers first occur in
    the orders; no customer is listed twice and none is left out, and
    the order counts add up to the number of orders. *)
Theorem aggregateOrders_customers plus orders :
  s_customer <$> aggregateOrders plus orders
  = reverse (remove_dups (reverse (v_customer <$> orders)))
  ∧ NoDup (s_customer <$> aggregateOrders plus orders)
  ∧ (∀ c, c ∈ s_customer <$> aggregateOrders plus orders ↔
          c ∈ v_customer <$> orders)
  ∧ sum_list (orderCount <$> aggregateOrders plus orders) = length orders.
Proof.
  split; [apply aggregateOrders_keys|]. split.
  { rewrite aggregateOrders_keys, reverse_Permutation.
    apply NoDup_remove_dups. }
  split; [apply aggregateOrders_keys_elem|].
  induction orders as [|o orders IH] using rev_ind; [done|].
  rewrite aggregateOrders_snoc, aggregate_step_count, IH, length_app.
  simpl. lia.
Qed.

(** X25: the summary of a customer.  Its order count is the number of
    orders of that customer, which is at least one; its total is the
    amount of the customer's first order to which the amounts of the
    later ones were added in turn; and its latest date is the date of
    one of the customer's orders, than which the date of none of them
    is greater by [>] on strings (the order of their UTF-16 code
    units). *)
Theorem aggregateOrders_summaries plus orders s :
  s ∈ aggregateOrders plus orders →
  let os := filter (λ o, v_customer o = s_customer s) orders in
  orderCount s = length os
  ∧ (∃ o0 rest, os = o0 :: rest
                ∧ totalAmount s
                  = foldl plus (v_amount o0) (v_amount <$> rest))
  ∧ (∃ o, o ∈ os ∧ v_date o = latestOrderDate s)
  ∧ ∀ o, o ∈ os → string_gt (v_date o) (latestOrderDate s) = false.
Proof.
  intros Hs os.
  destruct (aggregateOrders_summary plus orders s Hs)
    as (o0 & rest & Hf & Hcnt & Htot & Hlat).
  unfold os. rewrite Hf. split; [done|]. split; [by exists o0, rest|].
  destruct (foldl_later_max (v_date <$> rest) (v_date o0)) as [Hin Hmax].
  rewrite <- Hlat in Hin, Hmax.
  change (v_date o0 :: (v_date <$> rest)) with (v_date <$> o0 :: rest)
    in Hin, Hmax.
  split.
  - apply list_elem_of_fmap in Hin as (o & Ho & Hin). by exists o.
  - intros o Ho. apply Hmax, list_elem_of_fmap. by exists o.
Qed.

Lemma aggregateOrders_summaries_witness :
  let s := mkCustomerSummary "Acme" (VNumber (Js.Num 3)) 2 "2026-02-26" in
  orderCount s
  = length (filter (λ o, v_customer o = s_customer s) three_view_orders).
Proof.
  refine (proj1 (aggregateOrders_summaries plus_exact three_view_orders
                   (mkCustomerSummary "Acme" (VNumber (Js.Num 3)) 2
                                      "2026-02-26") _)).
  vm_compute. left.
Defined.

(** X26: the local update of the Customers view after a rename.  When
    no order has the new name yet, renaming the customer of the orders
    and of the summaries the view holds gives the summaries that
    [aggregateOrders] computes from the renamed orders. *)
Theorem handleSaveCustomer_local_update plus old newName orders :
  newName ∉ v_customer <$> orders →
  aggregateOrders plus (setAllOrders_renamed old newName orders)
  = setCustomers_renamed old newName (aggregateOrders plus orders).
Proof.
  unfold setAllOrders_renamed.
  induction orders as [|o orders IH] using rev_ind; [done|].
  intros Hnew. rewrite fmap_app in Hnew.
  apply not_elem_of_app in Hnew as [Hrest Ho].
  rewrite fmap_app. cbn [fmap list_fmap].
  rewrite !aggregateOrders_snoc, (IH Hrest).
  apply aggregate_step_renamed.
  - by rewrite aggregateOrders_keys_elem.
  - intros Heq. apply Ho, list_elem_of_fmap. exists o. split; [done|left].
Qed.

Lemma handleSaveCustomer_local_update_witness :
  aggregateOrders plus_exact
    (setAllOrders_renamed "Acme" "Apex" three_view_orders)
  = setCustomers_renamed "Acme" "Apex"
      (aggregateOrders plus_exact three_view_orders).
Proof.
  apply (handleSaveCustomer_local_update plus_exact "Acme" "Apex"
           three_view_orders).
  apply (bool_decide_unpack _). vm_compute. exact I.
Defined.

(** When the new name is the name of another customer the view then
    holds two summaries for it; aggregating the renamed orders gives
    one. *)
Example handleSaveCustomer_merge :
  s_customer <$> setCustomers_renamed "Bolt" "Acme"
                   (aggregateOrders plus_exact three_view_orders)
  = ["Acme"; "Acme"]
  ∧ s_customer <$> aggregateOrders plus_exact
                     (setAllOrders_renamed "Bolt" "Acme" three_view_orders)
    = ["Acme"].
Proof. split; vm_compute; reflexivity. Qed.

(** ** Orders view: the events of a session *)

Lemma existsb_row_id (k : option string) (prev : list ViewRow) :
  existsb (fun o => bool_decide (row_id o = k)) prev = true ↔
  k ∈ row_id <$> prev.
Proof.
  rewrite existsb_exists, list_elem_of_fmap. split.
  - intros (r & Hin%list_elem_of_In & Hr%bool_decide_eq_true). by exists r.
  - intros (r & -> & Hin). exists r. split; [by apply list_elem_of_In|].
    by apply bool_decide_eq_true.
Qed.

Lemma append_unless_listed_cases order prev :
  (row_id order ∈ (row_id <$> prev)
   ∧ append_unless_listed order prev = prev)
  ∨ ((row_id order ∉ (row_id <$> prev))
     ∧ append_unless_listed order prev = (prev ++ [order])%list).
Proof.
  unfold append_unless_listed.
  destruct (existsb _ prev) eqn:Hex.
  - left. split; [by apply existsb_row_id|done].
  - right. split; [|done]. intros Hin%existsb_row_id. congruence.
Qed.

Lemma append_unless_listed_idem order prev :
  append_unless_listed order (append_unless_listed order prev)
  = append_unless_listed order prev.
Proof.
  destruct (append_unless_listed_cases order prev) as [[Hin ->]|[Hnin ->]].
  - by destruct (append_unless_listed_cases order prev) as [[_ ->]|[? _]].
  - destruct (append_unless_listed_cases order (prev ++ [order]))
      as [[_ ->]|[Hnot _]]; [done|].
    exfalso. apply Hnot. rewrite fmap_app, elem_of_app. right. simpl. left.
Qed.

Lemma append_unless_listed_NoDup order prev :
  NoDup (row_id <$> prev) →
  NoDup (row_id <$> append_unless_listed order prev).
Proof.
  intros Hnd.
  destruct (append_unless_listed_cases order prev) as [[Hin ->]|[Hnin ->]];
    [done|].
  rewrite fmap_app. apply NoDup_app. split; [done|]. split.
  - intros k Hk ->%list_elem_of_singleton. done.
  - apply NoDup_singleton.
Qed.

(** X27: a new-order event in the Orders view.  The order is appended
    at the end unless a row with its id is listed, in which case the
    list stays as it is; so the event delivered twice, or delivered
    next to the local update of [handleCreate] for the same order, in
    either order, lists the order once, and rows that had distinct ids
    still have. *)
Theorem onmessage_new_order o prev :
  let row := RowOrder (view_of_order o) in
  let next := onmessage (SseNewOrder o) prev in
  (Some (id o) ∈ row_id <$> prev → next = prev)
  ∧ (Some (id o) ∉ row_id <$> prev → next = (prev ++ [row])%list)
  ∧ onmessage (SseNewOrder o) next = next
  ∧ handleCreate_local o next = next
  ∧ onmessage (SseNewOrder o) (handleCreate_local o prev) = next
  ∧ (NoDup (row_id <$> prev) → NoDup (row_id <$> next)).
Proof.
  intros row next. unfold next, onmessage, handleCreate_local.
  change (event_data (SseNewOrder o)) with row.
  fold row.
  destruct (append_unless_listed_cases row prev) as [[Hin Heq]|[Hnin Heq]].
  - split; [done|]. split; [done|]. rewrite !append_unless_listed_idem.
    do 3 (split; [done|]). by apply append_unless_listed_NoDup.
  - split; [done|]. split; [done|]. rewrite !append_unless_listed_idem.
    do 3 (split; [done|]). by apply append_unless_listed_NoDup.
Qed.

(** X28: a status-change event in the Orders view.  The handler treats
    its envelope as an order: since the envelope has no [id], no listed
    order is replaced or changed, each keeps its place and its status;
    when every row is an order the envelope itself is appended as a
    row; and once such a row is listed every further status-change
    event leaves the list as it is. *)
Theorem onmessage_order_updated o prev :
  let next := onmessage (SseOrderUpdated o) prev in
  (∀ i r, prev !! i = Some r → next !! i = Some r)
  ∧ (∀ r, r ∈ next → r ∈ prev ∨ r = RowUpdate (view_of_order o))
  ∧ (Forall (λ r, is_Some (row_id r)) prev →
     next = (prev ++ [RowUpdate (view_of_order o)])%list)
  ∧ ∀ o', onmessage (SseOrderUpdated o') next = next.
Proof.
  intros next. unfold next, onmessage.
  change (event_data (SseOrderUpdated o)) with (RowUpdate (view_of_order o)).
  assert (∀ l, None ∈ row_id <$> l →
               ∀ o', append_unless_listed (RowUpdate (view_of_order o')) l = l)
    as Hnone.
  { intros l Hl o'.
    by destruct (append_unless_listed_cases (RowUpdate (view_of_order o')) l)
      as [[_ ->]|[? _]]. }
  destruct (append_unless_listed_cases (RowUpdate (view_of_order o)) prev)
    as [[Hin ->]|[Hnin ->]].
  - split; [done|]. split; [by left|]. split.
    + intros Hall. exfalso.
      apply list_elem_of_fmap in Hin as (r & Hr & Hin).
      rewrite Forall_forall in Hall. destruct (Hall r Hin) as [k Hk].
      simpl in Hr. congruence.
    + intros o'. by apply Hnone.
  - split; [intros i r Hi; by apply lookup_app_l_Some|]. split.
    + intros r [?|Hr%list_elem_of_singleton]%elem_of_app; [by left|by right].
    + split; [done|]. intros o'. apply Hnone.
      rewrite fmap_app, elem_of_app. right. simpl. left.
Qed.

(** ** From the server's events to the rows of the Orders view *)

Lemma post_orders_calm toNum name raw w :
  calm w →
  let data := mkOrderData name
                match raw with
                | RawNumber n => Js.Number n
                | RawString s => toNum s
                end Submitted (today w) in
  let order := orderOf (maxNum_of (map_to_list (orders w)) + 1) data in
  ∃ w3, post_orders toNum name raw w
        = (Ok (mkHttpResponse 201 (JsonOrder order)), w3)
        ∧ orders w3 = <[id order := newEntity (id order) data]> (orders w)
        ∧ calm w3
        ∧ sseClients w3 = sseWrite (SseNewOrder order) <$> sseClients w.
Proof.
  intros Hcalm data order.
  pose proof (listEntities_calm w Hcalm) as Hlist.
  set (w1 := push_call (CallList TABLE_NAME) w) in Hlist.
  assert (calm w1) as Hc1 by exact Hcalm.
  assert (orders w1 !! id order = None) as Hfree
    by apply next_id_free, maxNum_of_spec.
  pose proof (createEntity_calm (id order) (newEntity (id order) data)
                w1 Hc1 Hfree) as Hins.
  set (w2 := set_orders _ _) in Hins.
  assert (calm w2) as Hc2 by exact Hcalm.
  destruct (broadcastNewOrder_sessions order w2) as (w3 & Hb & Hs & Ho3 & Hc3).
  exists w3. split.
  { rewrite post_orders_unfold. fold data.
    rewrite (createOrder_insert_ok data (Some broadcastNewOrder) w w1
               _ Hlist w2 Hins).
    fold order. by rewrite Hb. }
  split; [by rewrite Ho3|]. split; [by apply Hc3|]. by rewrite Hs.
Qed.

Lemma sseWrite_twice p1 p2 c :
  writableEnded c = false →
  written (sseWrite p2 (sseWrite p1 c)) = (written c ++ [p1; p2])%list.
Proof.
  intros Hc. unfold sseWrite. rewrite Hc. simpl.
  by rewrite <- (assoc_L (++)).
Qed.

Lemma onmessage_new_rows o prev :
  (Some (id o) ∈ row_id <$> prev → onmessage (SseNewOrder o) prev = prev)
  ∧ (Some (id o) ∉ row_id <$> prev →
     onmessage (SseNewOrder o) prev
     = (prev ++ [RowOrder (view_of_order o)])%list).
Proof.
  unfold onmessage.
  change (event_data (SseNewOrder o)) with (RowOrder (view_of_order o)).
  by destruct (append_unless_listed_cases (RowOrder (view_of_order o)) prev)
    as [[Hin ->]|[Hnin ->]].
Qed.

(** X29: what an open Orders view shows after an order with a finite
    amount was posted and then accepted or cancelled from its card, on
    a store that answers and whose row keys have numeric suffixes below
    2^53.
    Every session that has not ended was written the new order and
    then the status change, in that order.  A view that listed other
    orders then lists the new order once, still with the status
    Submitted, followed by a row that is the envelope of the status
    change: the new status reaches the session but not the row of the
    order. *)
Theorem tapped_order_in_view toNum name raw w a who :
  calm w →
  suffixes_exact (orders w) →
  Js.isFinite (amount_of toNum raw) = true →
  ∃ order w1,
    post_orders toNum name raw w
    = (Ok (mkHttpResponse 201 (JsonOrder order)), w1)
    ∧ status order = Submitted
    ∧ (a ∈ card_actions (buildNewOrderCard order) →
       ∃ resp w2 updated,
         on_card_action (tap a who) w1 = (Ok resp, w2)
         ∧ statusCode resp = 200
         ∧ id updated = id order
         ∧ status updated = status_of_verb (act_verb a)
         ∧ status updated ≠ Submitted
         ∧ orders w2 !! id order
           = Some (mkOrderEntity (id order) name (amount order)
                                 (status updated) (date order))
         ∧ (∀ i c, sseClients w !! i = Some c → writableEnded c = false →
              ∃ c2, sseClients w2 !! i = Some c2
                    ∧ written c2
                      = (written c
                         ++ [SseNewOrder order; SseOrderUpdated updated])%list)
         ∧ ∀ init,
             Forall (λ r, ∃ k, row_id r = Some k ∧ k ≠ id order) init →
             view_after init [SseNewOrder order; SseOrderUpdated updated]
             = (init ++ [RowOrder (view_of_order order);
                         RowUpdate (view_of_order updated)])%list).
Proof.
  intros Hcalm _ _.
  destruct (post_orders_calm toNum name raw w Hcalm)
    as (w3 & Hpost & Ho3 & Hc3 & Hs3).
  set (data := mkOrderData name _ Submitted (today w)) in *.
  set (order := orderOf _ data) in *.
  exists order, w3. split; [exact Hpost|]. split; [done|].
  intros Ha.
  assert (orders w3 !! id order = Some (newEntity (id order) data)) as Hrow
    by (rewrite Ho3; apply lookup_insert_eq).
  destruct (card_actions_answered w3 order _ who a Hrow
              (orderId_nonempty _) Hc3 Ha)
    as (S & label & w4 & HS & Hrun & _ & Hrow4 & Hs4).
  set (updated := mkOrder (id order) name (amount order) S (date order)).
  exists (mkInvokeResponse 200 "application/vnd.microsoft.card.adaptive"
            (CardValue (buildConfirmedCard updated (nullish who "Unknown")))),
    w4, updated.
  split; [exact Hrun|]. split; [done|]. split; [done|].
  assert (S = status_of_verb (act_verb a) ∧ S ≠ Submitted) as [HSv HSn].
  { unfold status_of_verb.
    by destruct HS as [(-> & -> & _)|(-> & -> & _)]. }
  split; [exact HSv|]. split; [exact HSn|]. split; [exact Hrow4|]. split.
  - intros i c Hi Hc. exists (sseWrite (SseOrderUpdated updated)
                                (sseWrite (SseNewOrder order) c)).
    split; [|by apply sseWrite_twice].
    rewrite Hs4, Hs3, <- list_fmap_compose, list_lookup_fmap, Hi. done.
  - intros init Hinit. unfold view_after. cbn [foldl].
    destruct (onmessage_new_rows order init) as [_ Hnew].
    rewrite Hnew.
    2:{ intros (r & Hr & Hin)%list_elem_of_fmap.
        rewrite Forall_forall in Hinit.
        destruct (Hinit r Hin) as (k & Hk & Hne). rewrite Hk in Hr.
        injection Hr as Hr. by apply Hne. }
    unfold onmessage.
    destruct (append_unless_listed_cases
                (event_data (SseOrderUpdated updated))
                (init ++ [RowOrder (view_of_order order)]))
      as [[Hin _]|[_ ->]].
    + exfalso. rewrite fmap_app in Hin.
      apply elem_of_app in Hin as [Hin|Hin].
      * apply list_elem_of_fmap in Hin as (r & Hr & Hin).
        rewrite Forall_forall in Hinit.
        destruct (Hinit r Hin) as (k & Hk & _). rewrite Hk in Hr.
        discriminate Hr.
      * simpl in Hin. by apply list_elem_of_singleton in Hin.
    + by rewrite <- (assoc_L (++)).
Qed.

Lemma tapped_order_in_view_witness :
  ∃ order w1,
    post_orders (λ _, Js.NaN) "Acme" (RawNumber (Js.Num 7)) two_orders
    = (Ok (mkHttpResponse 201 (JsonOrder order)), w1)
    ∧ status order = Submitted.
Proof.
  destruct (tapped_order_in_view (λ _, Js.NaN) "Acme" (RawNumber (Js.Num 7))
              two_orders
              (mkExecuteAction "✅ Accept" "order.accept" "ORD-003" "positive")
              None)
    as (order & w1 & Hrun & Hst & _).
  - reflexivity.
  - apply suffixes_exact_maxNum. vm_compute. reflexivity.
  - reflexivity.
  - exists order, w1. split; [exact Hrun | exact Hst].
Defined.

(** ** Orders view: the local update after a save *)

Lemma put_order_ok k patch w o w' :
  put_order k patch w = (Ok (mkApiResponse 200 (JsonUpdatedOrder o)), w') →
  ∃ e, orders w !! k = Some e
       ∧ o = toOrder (k, merged k patch e)
       ∧ orders w' = <[k := merged k patch e]> (orders w).
Proof.
  unfold put_order, catch. unfold bind at 1.
  destruct (updateOrder k patch w) as [[u|err] w1] eqn:Hup; [|done].
  apply updateOrder_inv in Hup as [_ (e & He & -> & Ho)].
  intros [= <- <-]. by exists e.
Qed.

(** X30: the local update of [handleSave].  When PUT /api/orders/:id
    has answered 200 with the updated order, replacing the rows that
    have its id by it leaves the ids of the rows and every other row
    as they were, leaves an envelope row alone, and makes every row
    with that id show the order as the store now holds it. *)
Theorem handleSave_shows_stored k patch w o w' prev :
  put_order k patch w = (Ok (mkApiResponse 200 (JsonUpdatedOrder o)), w') →
  let next := handleSave_local o prev in
  row_id <$> next = row_id <$> prev
  ∧ (∀ i r, prev !! i = Some r → row_id r ≠ Some k → next !! i = Some r)
  ∧ ∀ r, r ∈ next → row_id r = Some k →
         ∃ e, orders w' !! k = Some e
              ∧ r = RowOrder (view_of_order (toOrder (k, e))).
Proof.
  intros (e & He & -> & Ho)%put_order_ok next.
  unfold next, handleSave_local. cbn [toOrder id fst].
  split; [|split].
  - rewrite <- list_fmap_compose. apply list_fmap_ext.
    intros i r _. simpl. by case_bool_decide.
  - intros i r Hi Hr. rewrite list_lookup_fmap, Hi. simpl.
    by rewrite bool_decide_eq_false_2.
  - intros r (r0 & -> & Hin)%list_elem_of_fmap Hr.
    exists (merged k patch e). split; [by rewrite Ho, lookup_insert_eq|].
    case_bool_decide as Hk; [done|]. by destruct Hk.
Qed.

Lemma handleSave_shows_stored_witness :
  row_id <$> handleSave_local
               (mkOrder "ORD-001" "Acme" (Js.Num (85 # 2)) Shipped
                        "2026-02-24")
               [RowOrder (view_of_order (toOrder ("ORD-001", acme)));
                RowUpdate (view_of_order (toOrder ("ORD-001", acme)))]
  = [Some "ORD-001"; None].
Proof.
  refine (proj1 (handleSave_shows_stored "ORD-001" (status_patch Shipped)
                   two_orders
                   (mkOrder "ORD-001" "Acme" (Js.Num (85 # 2)) Shipped
                            "2026-02-24")
                   (put_order "ORD-001" (status_patch Shipped) two_orders).2
                   [RowOrder (view_of_order (toOrder ("ORD-001", acme)));
                    RowUpdate (view_of_order (toOrder ("ORD-001", acme)))]
                   _)).
  vm_compute. reflexivity.
Defined.
